(** * Chrome SNSS session parser (internal/database/session_chrome.go)

    A shallow embedding of the session-file decoder of web-recap, of the
    queries built on it and of the session directories of
    internal/browser/paths.go, and the properties of its specification.

    Conventions.
    - [uint8], [uint16], [uint32] and [uint64] values are [N]; where the Go
      code can overflow the width, the wrap-around is written out ([wrap32]).
      Go's [int] is 64 bits wide here; the counters held in it stay far
      below that, so they are plain [N].
    - An [io.Reader] (the open file, a [bytes.Buffer]) is the list of bytes
      not yet consumed.  [io.ReadFull] is [ReadFull].
    - Go maps are [gmap]s.  A pointer into a map ([*sessionWindow],
      [*tabGroup]) is the key of the entry it points to: entries are never
      removed or replaced by a fresh object, so the key identifies the object.
    - [range] over a map visits the keys in an unspecified order; the order
      taken by a run is an explicit argument ([tabOrder], [winOrder]).
    - A run-time panic is an outcome of its own ([Panic]).  Memory is not
      modelled: [make] of a non-negative length succeeds. *)

From Stdlib Require Import NArith List.
From Stdlib.Strings Require Import Byte.
From stdpp Require Import gmap strings list fin_maps sorting.

Local Open Scope N_scope.

(** ** Go run time: errors, panics, readers *)

Inductive ioError := EOF | ErrUnexpectedEOF.

Inductive panicKind :=
| MakeSliceLen   (* makeslice: len out of range *)
| SliceBounds    (* slice bounds out of range *)
| IndexRange.    (* index out of range *)

Inductive exec (A : Type) :=
| Done (a : A)
| Panic (k : panicKind).
Arguments Done {A} a.
Arguments Panic {A} k.

Global Instance ioError_eq_dec : EqDecision ioError.
Proof. solve_decision. Defined.
Global Instance panicKind_eq_dec : EqDecision panicKind.
Proof. solve_decision. Defined.

Global Instance byte_eq_dec : EqDecision byte := Byte.byte_eq_dec.

Definition reader := list byte.

(** A computation over a reader: it consumes bytes and may panic. *)
Definition M (A : Type) := reader → exec (A * reader).

Definition ret {A} (a : A) : M A := λ r, Done (a, r).
Definition panic {A} (k : panicKind) : M A := λ _, Panic k.
Definition bind {A B} (m : M A) (f : A → M B) : M B :=
  λ r, match m r with
       | Done (a, r') => f a r'
       | Panic k => Panic k
       end.

Notation "'let*' x ':=' c 'in' k" := (bind c (λ x, k))
  (at level 10, x name, c at level 100, k at level 200, only parsing).
Notation "'let*' ' p ':=' c 'in' k" := (bind c (λ x, match x with p => k end))
  (at level 10, p pattern, c at level 100, k at level 200, only parsing).

(** [v, _ := read(data)]: the error is dropped. *)
Definition val {A E} (m : M (A * E)) : M A := let* x := m in ret (x.1).

Definition wrap32 (n : N) : N := n mod 2 ^ 32.

Definition blen (r : list byte) : N := N.of_nat (length r).

(** [io.ReadFull(r, buf)] with [len(buf) = n].  A read of no bytes succeeds;
    otherwise an exhausted reader gives [EOF], and a reader holding fewer
    than [n] bytes is drained and gives [ErrUnexpectedEOF]. *)
Definition ReadFull (n : N) : M (list byte * option ioError) :=
  λ r, if n =? 0 then Done (([], None), r)
       else if blen r =? 0 then Done (([], Some EOF), r)
       else if blen r <? n then Done ((r, Some ErrUnexpectedEOF), [])
       else Done ((take (N.to_nat n) r, None), drop (N.to_nat n) r).

(** [b[i]] as an unsigned integer (used on buffers that were read in full). *)
Definition at_ (b : list byte) (i : nat) : N := Byte.to_N (nth i b x00).

Definition readUint8 : M (N * option ioError) :=
  let* '(b, err) := ReadFull 1 in
  match err with
  | Some e => ret (0, Some e)
  | None => ret (at_ b 0, None)
  end.

(** [uint16(b[0]) | uint16(b[1])<<8] *)
Definition uint16LE (b : list byte) : N := N.lor (at_ b 0) (N.shiftl (at_ b 1) 8).

Definition readUint16 : M (N * option ioError) :=
  let* '(b, err) := ReadFull 2 in
  match err with
  | Some e => ret (0, Some e)
  | None => ret (uint16LE b, None)
  end.

(** [uint32(b[3])<<24 | uint32(b[2])<<16 | uint32(b[1])<<8 | uint32(b[0])] *)
Definition uint32LE (b : list byte) : N :=
  N.lor (N.lor (N.lor (N.shiftl (at_ b 3) 24) (N.shiftl (at_ b 2) 16))
               (N.shiftl (at_ b 1) 8)) (at_ b 0).

Definition readUint32 : M (N * option ioError) :=
  let* '(b, err) := ReadFull 4 in
  match err with
  | Some e => ret (0, Some e)
  | None => ret (uint32LE b, None)
  end.

Definition uint64LE (b : list byte) : N :=
  N.lor (N.lor (N.lor (N.lor (N.lor (N.lor (N.lor
    (N.shiftl (at_ b 7) 56) (N.shiftl (at_ b 6) 48))
    (N.shiftl (at_ b 5) 40)) (N.shiftl (at_ b 4) 32))
    (N.shiftl (at_ b 3) 24)) (N.shiftl (at_ b 2) 16))
    (N.shiftl (at_ b 1) 8)) (at_ b 0).

Definition readUint64 : M (N * option ioError) :=
  let* '(b, err) := ReadFull 8 in
  match err with
  | Some e => ret (0, Some e)
  | None => ret (uint64LE b, None)
  end.

(** [rsz] rounded up to the next multiple of 4, in [uint32] arithmetic:
    [if rsz%4 != 0 { rsz += 4 - (rsz % 4) }]. *)
Definition align4 (rsz : N) : N :=
  if rsz mod 4 =? 0 then rsz else wrap32 (rsz + (4 - rsz mod 4)).

(** [string(b)] for a byte slice. *)
Definition string_of_bytes (b : list byte) : string := String.string_of_list_byte b.

Definition readString : M (string * option ioError) :=
  let* '(sz, err) := readUint32 in
  match err with
  | Some e => ret (EmptyString, Some e)
  | None =>
      let rsz := align4 sz in
      let* '(b, err) := ReadFull rsz in
      match err with
      | Some e => ret (EmptyString, Some e)
      | None =>
          (* b[:sz] with cap(b) = rsz *)
          if rsz <? sz then panic SliceBounds
          else ret (string_of_bytes (take (N.to_nat sz) b), None)
      end
  end.

(** ** unicode/utf16 and the conversion of runes to a string *)

(** [utf16.Decode]: a high surrogate followed by a low one is one rune, a
    lone surrogate is U+FFFD. *)
Fixpoint utf16_Decode (s : list N) : list N :=
  match s with
  | [] => []
  | r :: s' =>
      if (0xd800 <=? r) && (r <? 0xdc00) then
        match s' with
        | r2 :: s'' =>
            if (0xdc00 <=? r2) && (r2 <? 0xe000)
            then (N.lor (N.shiftl (r - 0xd800) 10) (r2 - 0xdc00) + 0x10000)
                   :: utf16_Decode s''
            else 0xfffd :: utf16_Decode s'
        | [] => 0xfffd :: utf16_Decode s'
        end
      else if (0xd800 <=? r) && (r <? 0xe000) then 0xfffd :: utf16_Decode s'
      else r :: utf16_Decode s'
  end.

Definition byte_of (n : N) : byte := default x00 (Byte.of_N n).

(** [string(runes)]: the UTF-8 encoding of each rune. *)
Definition utf8_rune (r : N) : list byte :=
  if r <? 0x80 then [byte_of r]
  else if r <? 0x800 then
    [byte_of (N.lor 0xc0 (N.shiftr r 6)); byte_of (N.lor 0x80 (N.land r 0x3f))]
  else if r <? 0x10000 then
    [byte_of (N.lor 0xe0 (N.shiftr r 12));
     byte_of (N.lor 0x80 (N.land (N.shiftr r 6) 0x3f));
     byte_of (N.lor 0x80 (N.land r 0x3f))]
  else
    [byte_of (N.lor 0xf0 (N.shiftr r 18));
     byte_of (N.lor 0x80 (N.land (N.shiftr r 12) 0x3f));
     byte_of (N.lor 0x80 (N.land (N.shiftr r 6) 0x3f));
     byte_of (N.lor 0x80 (N.land r 0x3f))].

Definition string_of_runes (rs : list N) : string :=
  string_of_bytes (flat_map utf8_rune rs).

(** The loop of [readString16]:
    [for i := 0; i < n; i += 2 { s = append(s, uint16(b[i+1])<<8|uint16(b[i])) }]
    over the bytes of [b] from position [i] on; [units] counts the
    iterations left.  Indexing past the end of [b] panics. *)
Fixpoint codeUnits (b : list byte) (units : N) : exec (list N) :=
  if units =? 0 then Done []
  else match b with
       | lo :: hi :: b' =>
           match codeUnits b' (units - 1) with
           | Done s => Done (N.lor (N.shiftl (Byte.to_N hi) 8) (Byte.to_N lo) :: s)
           | Panic k => Panic k
           end
       | _ => Panic IndexRange
       end.

Definition readString16 : M (string * option ioError) :=
  let* '(sz, err) := readUint32 in
  match err with
  | Some e => ret (EmptyString, Some e)
  | None =>
      let rsz := align4 (wrap32 (sz * 2)) in
      let* '(b, err) := ReadFull rsz in
      match err with
      | Some e => ret (EmptyString, Some e)
      | None =>
          match codeUnits b (wrap32 (sz * 2) / 2) with
          | Done s => ret (string_of_runes (utf16_Decode s), None)
          | Panic k => panic k
          end
      end
  end.

(** [fmt.Sprintf("%x", v)] for an unsigned [v]: lower-case hexadecimal
    without leading zeros.  Sixteen digits are enough for a [uint64]. *)
Definition hexDigit (d : N) : Ascii.ascii :=
  match String.get (N.to_nat d) "0123456789abcdef" with
  | Some c => c
  | None => Ascii.zero
  end.

Fixpoint hexDigits (fuel : nat) (v : N) (acc : string) : string :=
  match fuel with
  | O => acc
  | S fuel' =>
      let acc' := String (hexDigit (v mod 16)) acc in
      if v / 16 =? 0 then acc' else hexDigits fuel' (v / 16) acc'
  end.

Definition formatHex (v : N) : string := hexDigits 16 v EmptyString.

(** ** SNSS command types *)

Definition kCommandSetTabWindow : N := 0.
Definition kCommandSetTabIndexInWindow : N := 2.
Definition kCommandUpdateTabNavigation : N := 6.
Definition kCommandSetSelectedNavigationIndex : N := 7.
Definition kCommandSetSelectedTabInIndex : N := 8.
Definition kCommandTabClosed : N := 16.
Definition kCommandWindowClosed : N := 17.
Definition kCommandSetActiveWindow : N := 20.
Definition kCommandSetTabGroup : N := 25.
Definition kCommandSetTabGroupMetadata2 : N := 27.

(** ** Internal structures *)

Record tabGroup := mkGroup {
  g_high : N;
  g_low : N;
  g_name : string }.

Record historyItem := mkItem {
  h_idx : N;
  h_url : string;
  h_title : string }.

(** [t_group] is the [*tabGroup]: the key of the group in [groups], or
    [None] for nil. *)
Record sessionTab := mkTab {
  t_id : N;
  t_history : list historyItem;
  t_idx : N;
  t_win : N;
  t_deleted : bool;
  t_currentHistoryIdx : N;
  t_group : option string }.

(** [w_tabs] holds pointers to tabs of [tabs]; it is filled by
    [buildTabEntries] only, and no tab is written after it was appended, so
    the list holds the tabs as they are at that moment. *)
Record sessionWindow := mkWindow {
  w_activeTabIdx : N;
  w_id : N;
  w_deleted : bool;
  w_tabs : list sessionTab }.

(** [activeWindow] is the [*sessionWindow]: the key of the window. *)
Record SessionParser := mkParser {
  tabs : gmap N sessionTab;
  windows : gmap N sessionWindow;
  groups : gmap string tabGroup;
  activeWindow : option N }.

Definition newSessionParser : SessionParser := mkParser ∅ ∅ ∅ None.

Definition newWindow (id : N) : sessionWindow := mkWindow 0 id false [].
Definition newTab (id : N) : sessionTab := mkTab id [] 0 0 false 0 None.

(** Writes through a pointer obtained from one of the maps. *)
Definition putTab (id : N) (t : sessionTab) (p : SessionParser) : SessionParser :=
  mkParser (<[id := t]> (tabs p)) (windows p) (groups p) (activeWindow p).
Definition putWindow (id : N) (w : sessionWindow) (p : SessionParser) : SessionParser :=
  mkParser (tabs p) (<[id := w]> (windows p)) (groups p) (activeWindow p).
Definition putGroup (key : string) (g : tabGroup) (p : SessionParser) : SessionParser :=
  mkParser (tabs p) (windows p) (<[key := g]> (groups p)) (activeWindow p).

Definition getWindow (id : N) (p : SessionParser) : sessionWindow * SessionParser :=
  match windows p !! id with
  | Some w => (w, p)
  | None => (newWindow id, putWindow id (newWindow id) p)
  end.

(** [fmt.Sprintf("%x%x", high, low)] *)
Definition groupKey (high low : N) : string :=
  String.append (formatHex high) (formatHex low).

(** [getGroup] returns the pointer, that is the key, and the group. *)
Definition getGroup (high low : N) (p : SessionParser)
  : string * tabGroup * SessionParser :=
  let key := groupKey high low in
  match groups p !! key with
  | Some g => (key, g, p)
  | None => (key, mkGroup high low EmptyString,
             putGroup key (mkGroup high low EmptyString) p)
  end.

Definition getTab (id : N) (p : SessionParser) : sessionTab * SessionParser :=
  match tabs p !! id with
  | Some t => (t, p)
  | None => (newTab id, putTab id (newTab id) p)
  end.

(** Field assignments. *)
Definition tab_with_history (h : list historyItem) (t : sessionTab) : sessionTab :=
  mkTab (t_id t) h (t_idx t) (t_win t) (t_deleted t) (t_currentHistoryIdx t) (t_group t).
Definition tab_with_idx (i : N) (t : sessionTab) : sessionTab :=
  mkTab (t_id t) (t_history t) i (t_win t) (t_deleted t) (t_currentHistoryIdx t) (t_group t).
Definition tab_with_win (w : N) (t : sessionTab) : sessionTab :=
  mkTab (t_id t) (t_history t) (t_idx t) w (t_deleted t) (t_currentHistoryIdx t) (t_group t).
Definition tab_with_deleted (d : bool) (t : sessionTab) : sessionTab :=
  mkTab (t_id t) (t_history t) (t_idx t) (t_win t) d (t_currentHistoryIdx t) (t_group t).
Definition tab_with_currentHistoryIdx (i : N) (t : sessionTab) : sessionTab :=
  mkTab (t_id t) (t_history t) (t_idx t) (t_win t) (t_deleted t) i (t_group t).
Definition tab_with_group (g : option string) (t : sessionTab) : sessionTab :=
  mkTab (t_id t) (t_history t) (t_idx t) (t_win t) (t_deleted t) (t_currentHistoryIdx t) g.

Definition window_with_activeTabIdx (i : N) (w : sessionWindow) : sessionWindow :=
  mkWindow i (w_id w) (w_deleted w) (w_tabs w).
Definition window_with_deleted (d : bool) (w : sessionWindow) : sessionWindow :=
  mkWindow (w_activeTabIdx w) (w_id w) d (w_tabs w).
Definition window_with_tabs (ts : list sessionTab) (w : sessionWindow) : sessionWindow :=
  mkWindow (w_activeTabIdx w) (w_id w) (w_deleted w) ts.

Definition group_with_name (n : string) (g : tabGroup) : tabGroup :=
  mkGroup (g_high g) (g_low g) n.

(** ** processCommand

    Every arm of the switch first reads all its fields from the payload,
    dropping the read errors, and only then touches the store.  The fields
    read are a [command]; [decodeCommand] is the reading half of the arm and
    [applyCommand] the half that mutates the parser. *)

Inductive command :=
| UpdateTabNavigation (id histIdx : N) (urlStr title : string)
| SetSelectedTabInIndex (id idx : N)
| SetTabGroupMetadata2 (high low : N) (name : string)
| SetTabGroup (id high low : N)
| SetTabWindow (win id : N)
| WindowClosed (id : N)
| TabClosed (id : N)
| SetTabIndexInWindow (id index : N)
| SetActiveWindow (id : N)
| SetSelectedNavigationIndex (id idx : N)
| Unrecognized.

Definition decodeCommand (typ : N) : M command :=
  if decide (typ = kCommandUpdateTabNavigation) then
    let* _ := readUint32 in (* size of the data (again) *)
    let* id := val readUint32 in
    let* histIdx := val readUint32 in
    let* urlStr := val readString in
    let* title := val readString16 in
    ret (UpdateTabNavigation id histIdx urlStr title)
  else if decide (typ = kCommandSetSelectedTabInIndex) then
    let* id := val readUint32 in
    let* idx := val readUint32 in
    ret (SetSelectedTabInIndex id idx)
  else if decide (typ = kCommandSetTabGroupMetadata2) then
    let* _ := readUint32 in (* Size *)
    let* high := val readUint64 in
    let* low := val readUint64 in
    let* name := val readString16 in
    ret (SetTabGroupMetadata2 high low name)
  else if decide (typ = kCommandSetTabGroup) then
    let* id := val readUint32 in
    let* _ := readUint32 in (* Struct padding *)
    let* high := val readUint64 in
    let* low := val readUint64 in
    ret (SetTabGroup id high low)
  else if decide (typ = kCommandSetTabWindow) then
    let* win := val readUint32 in
    let* id := val readUint32 in
    ret (SetTabWindow win id)
  else if decide (typ = kCommandWindowClosed) then
    let* id := val readUint32 in
    ret (WindowClosed id)
  else if decide (typ = kCommandTabClosed) then
    let* id := val readUint32 in
    ret (TabClosed id)
  else if decide (typ = kCommandSetTabIndexInWindow) then
    let* id := val readUint32 in
    let* index := val readUint32 in
    ret (SetTabIndexInWindow id index)
  else if decide (typ = kCommandSetActiveWindow) then
    let* id := val readUint32 in
    ret (SetActiveWindow id)
  else if decide (typ = kCommandSetSelectedNavigationIndex) then
    let* id := val readUint32 in
    let* idx := val readUint32 in
    ret (SetSelectedNavigationIndex id idx)
  else ret Unrecognized.

(** The history update of [kCommandUpdateTabNavigation]: the first item
    with index [histIdx] is written in place; without one, a new item is
    appended. *)
Definition upsertHistory (histIdx : N) (urlStr title : string)
    (history : list historyItem) : list historyItem :=
  match list_find (λ h, h_idx h = histIdx) history with
  | Some (i, _) => <[i := mkItem histIdx urlStr title]> history
  | None => history ++ [mkItem histIdx urlStr title]
  end.

Definition applyCommand (c : command) (p : SessionParser) : SessionParser :=
  match c with
  | UpdateTabNavigation id histIdx urlStr title =>
      let '(t, p) := getTab id p in
      putTab id (tab_with_history (upsertHistory histIdx urlStr title (t_history t)) t) p
  | SetSelectedTabInIndex id idx =>
      let '(w, p) := getWindow id p in
      putWindow id (window_with_activeTabIdx idx w) p
  | SetTabGroupMetadata2 high low name =>
      let '(key, g, p) := getGroup high low p in
      putGroup key (group_with_name name g) p
  | SetTabGroup id high low =>
      let '(t, p) := getTab id p in
      let '(key, _, p) := getGroup high low p in
      putTab id (tab_with_group (Some key) t) p
  | SetTabWindow win id =>
      let '(t, p) := getTab id p in
      putTab id (tab_with_win win t) p
  | WindowClosed id =>
      let '(w, p) := getWindow id p in
      putWindow id (window_with_deleted true w) p
  | TabClosed id =>
      let '(t, p) := getTab id p in
      putTab id (tab_with_deleted true t) p
  | SetTabIndexInWindow id index =>
      let '(t, p) := getTab id p in
      putTab id (tab_with_idx index t) p
  | SetActiveWindow id =>
      let '(_, p) := getWindow id p in
      mkParser (tabs p) (windows p) (groups p) (Some id)
  | SetSelectedNavigationIndex id idx =>
      let '(t, p) := getTab id p in
      putTab id (tab_with_currentHistoryIdx idx t) p
  | Unrecognized => p
  end.

(** [p.processCommand(typ, data)]: the parser after the command, or the
    panic raised while reading the payload. *)
Definition processCommand (typ : N) (data : reader) (p : SessionParser)
  : exec SessionParser :=
  match decodeCommand typ data with
  | Done (c, _) => Done (applyCommand c p)
  | Panic k => Panic k
  end.

(** ** Outcomes of parseSessionFile and its command loop *)

Inductive parseError :=
| ErrReadMagic (e : ioError)          (* failed to read magic header *)
| ErrBadMagic                         (* invalid SNSS file: bad magic header *)
| ErrReadVersion (e : ioError)        (* failed to read version *)
| ErrUnsupportedVersion (ver : N)     (* unsupported SNSS version *)
| ErrReadCommandSize (e : ioError)    (* failed to read command size *)
| ErrReadCommandType (e : ioError)    (* failed to read command type *)
| ErrReadCommandPayload (e : ioError). (* failed to read command payload *)

Inductive outcome (A : Type) :=
| Returned (a : A)
| Failed (e : parseError)
| Panicked (k : panicKind).
Arguments Returned {A} a.
Arguments Failed {A} e.
Arguments Panicked {A} k.

(** One round of the [for] loop that reads the commands; [continue] is the
    rest of the loop. *)
Definition readCommandsBody
    (continue : SessionParser → reader → outcome SessionParser)
    (parser : SessionParser) (fh : reader) : outcome SessionParser :=
  match readUint16 fh with
  | Panic k => Panicked k
  | Done ((_, Some EOF), _) => Returned parser (* break *)
  | Done ((_, Some e), _) => Failed (ErrReadCommandSize e)
  | Done ((sz, None), fh) =>
      match readUint8 fh with
      | Panic k => Panicked k
      | Done ((_, Some e), _) => Failed (ErrReadCommandType e)
      | Done ((typ, None), fh) =>
          (* buf := make([]byte, int(sz)-1) *)
          if sz =? 0 then Panicked MakeSliceLen
          else
            match ReadFull (sz - 1) fh with
            | Panic k => Panicked k
            | Done ((_, Some e), _) => Failed (ErrReadCommandPayload e)
            | Done ((buf, None), fh) =>
                match processCommand typ buf parser with
                | Panic k => Panicked k
                | Done parser' => continue parser' fh
                end
            end
      end
  end.

(** The loop.  A round that goes on consumes at least three bytes, so
    fuel above the length of [fh] is never used up: [readCommands]
    satisfies the equation of the loop, [readCommands_unfold]. *)
Fixpoint readCommandsFuel (fuel : nat) (parser : SessionParser) (fh : reader)
  : outcome SessionParser :=
  match fuel with
  | O => Returned parser
  | S fuel' => readCommandsBody (readCommandsFuel fuel') parser fh
  end.

Definition readCommands (parser : SessionParser) (fh : reader)
  : outcome SessionParser :=
  readCommandsFuel (S (length fh)) parser fh.

(** ** sort.Slice

    [sort.Slice] belongs to Go's library.  Its contract: the result is a
    permutation of the slice in which no element is less than an element
    before it; the order of equal elements is not specified.  For the two
    comparators of this file ([a.idx < b.idx]) the second half reads: the
    keys are ascending. *)

Class SortSlice := {
  sortSlice : ∀ {A : Type}, (A → A → bool) → list A → list A;
  sortSlice_perm : ∀ (A : Type) (less : A → A → bool) (l : list A),
      sortSlice less l ≡ₚ l;
  sortSlice_sorted : ∀ (A : Type) (key : A → N) (l : list A),
      StronglySorted (λ a b, key a ≤ key b)
        (sortSlice (λ a b, key a <? key b) l) }.

(** What [sort.Slice] runs on slices of at most 12 elements
    ([insertionSortLessFunc]): each element in turn moves left while it is
    less than its left neighbour.  The sorted prefix is kept reversed in
    [racc], its last element first. *)
Fixpoint insertBack {A} (less : A → A → bool) (x : A) (racc : list A) : list A :=
  match racc with
  | [] => [x]
  | y :: racc' => if less x y then y :: insertBack less x racc' else x :: racc
  end.

Definition insertionSort {A} (less : A → A → bool) (l : list A) : list A :=
  rev (fold_left (λ racc x, insertBack less x racc) l []).

(** ** models.TabEntry *)

Record TabEntry := mkEntry {
  URL : string;
  Title : string;
  Domain : string;
  Active : bool;
  Pinned : bool;
  Group : string;
  WindowID : N;
  Browser : string }.

Section BuildTabEntries.

Context `{SortSlice}.

(** [ExtractDomain] is defined in a file of the package that is not part of
    the sources at hand; no property below depends on what it returns. *)
Variable ExtractDomain : string → string.

(** First loop of [buildTabEntries], for the tab under key [k]. *)
Definition associateTab (p : SessionParser) (k : N) : SessionParser :=
  match tabs p !! k with
  | None => p
  | Some t =>
      let t := tab_with_history
                 (sortSlice (λ a b, h_idx a <? h_idx b) (t_history t)) t in
      let p := putTab k t p in
      let '(w, p) := getWindow (t_win t) p in
      putWindow (t_win t) (window_with_tabs (w_tabs w ++ [t]) w) p
  end.

(** Second loop: every window sorts its own tabs, so the order in which the
    windows are visited does not show. *)
Definition sortWindowTabs (p : SessionParser) : SessionParser :=
  mkParser (tabs p)
    ((λ w, window_with_tabs (sortSlice (λ a b, t_idx a <? t_idx b) (w_tabs w)) w)
       <$> windows p)
    (groups p) (activeWindow p).

(** "Get current URL and title from history" and the fallback. *)
Definition currentItem (t : sessionTab) : string * string :=
  match list_find (λ h, h_idx h = t_currentHistoryIdx t) (t_history t) with
  | Some (_, h) => (h_url h, h_title h)
  | None => (EmptyString, EmptyString)
  end.

Definition resolveTab (t : sessionTab) : string * string :=
  let '(tabURL, tabTitle) := currentItem t in
  if bool_decide (tabURL = EmptyString) && bool_decide (0 < length (t_history t))%nat then
    match last (t_history t) with
    | Some l => (h_url l, h_title l)
    | None => (tabURL, tabTitle)
    end
  else (tabURL, tabTitle).

Definition groupNameOf (p : SessionParser) (t : sessionTab) : string :=
  match t_group t with
  | Some key =>
      match groups p !! key with
      | Some g => if bool_decide (g_name g ≠ EmptyString) then g_name g else EmptyString
      | None => EmptyString
      end
  | None => EmptyString
  end.

(** Body of the loop over [w.tabs]; the state is [(entries, idx)]. *)
Definition emitTab (p : SessionParser) (browserName : string) (w : sessionWindow)
    (windowID : N) (isActiveWindow : bool)
    (st : list TabEntry * N) (t : sessionTab) : list TabEntry * N :=
  let '(entries, idx) := st in
  if t_deleted t then st
  else
    let '(tabURL, tabTitle) := resolveTab t in
    if bool_decide (tabURL = EmptyString) then st
    else
      let domain := ExtractDomain tabURL in
      let groupName := groupNameOf p t in
      let entry :=
        mkEntry tabURL tabTitle domain
          (isActiveWindow && bool_decide (idx = w_activeTabIdx w))
          false groupName windowID browserName in
      (entries ++ [entry], idx + 1).

(** Body of the last loop over [p.windows], for the window under key [k];
    the state is [(entries, windowID)]. *)
Definition emitWindow (p : SessionParser) (browserName : string)
    (st : list TabEntry * N) (k : N) : list TabEntry * N :=
  match windows p !! k with
  | None => st
  | Some w =>
      let '(entries, windowID) := st in
      if w_deleted w then st
      else
        let windowID := windowID + 1 in
        let isActiveWindow := bool_decide (activeWindow p = Some k) in
        let '(entries, _) :=
          fold_left (emitTab p browserName w windowID isActiveWindow)
                    (w_tabs w) (entries, 0) in
        (entries, windowID)
  end.

(** [tabOrder] is the order in which [range p.tabs] visits the keys,
    [winOrder] the order of the last [range p.windows]. *)
Definition assemble (tabOrder : list N) (p : SessionParser) : SessionParser :=
  sortWindowTabs (fold_left associateTab tabOrder p).

Definition buildTabEntries (tabOrder winOrder : list N) (p : SessionParser)
    (browserName : string) : list TabEntry :=
  let p := assemble tabOrder p in
  (fold_left (emitWindow p browserName) winOrder ([], 0)).1.

(** ** parseSessionFile *)

(** [fh] is the content of the file at [path], opened without error. *)
Definition parseSessionFile (tabOrder winOrder : list N) (fh : reader)
    (browserName : string) : outcome (list TabEntry) :=
  match ReadFull 4 fh with
  | Panic k => Panicked k
  | Done ((_, Some e), _) => Failed (ErrReadMagic e)
  | Done ((magic, None), fh) =>
      if bool_decide (magic ≠ [x53; x4e; x53; x53]) then Failed ErrBadMagic
      else
        match readUint32 fh with
        | Panic k => Panicked k
        | Done ((_, Some e), _) => Failed (ErrReadVersion e)
        | Done ((ver, None), fh) =>
            if bool_decide (ver ≠ 1) && bool_decide (ver ≠ 3)
            then Failed (ErrUnsupportedVersion ver)
            else
              match readCommands newSessionParser fh with
              | Returned parser =>
                  Returned (buildTabEntries tabOrder winOrder parser browserName)
              | Failed e => Failed e
              | Panicked k => Panicked k
              end
        end
  end.

End BuildTabEntries.

(** ** browser.Type and the session directories

    [internal/browser/paths.go].  [browser.Type] and the error values are
    declared in a file of the package that is not part of the sources at
    hand: the constants below are the ones paths.go names, and
    [OtherType] stands for any other value of the type. *)

Inductive browser_Type :=
| Chrome | Chromium | Edge | Brave | Vivaldi | Firefox | Safari | Auto | OtherType.

Inductive pathError :=
| ErrUserHomeDir            (* the error of os.UserHomeDir *)
| ErrUnsupportedPlatform
| ErrBrowserNotAvailable
| ErrUnknownBrowser.

(** What the functions ask the operating system. *)
Record platform := mkPlatform {
  GOOS : string;                (* runtime.GOOS *)
  UserHomeDir : option string;  (* os.UserHomeDir(); [None] for an error *)
  LOCALAPPDATA : string }.      (* os.Getenv("LOCALAPPDATA") *)

(** [IsChromiumBased]: does the browser use the SNSS session format? *)
Definition IsChromiumBased (browserType : browser_Type) : bool :=
  match browserType with
  | Chrome | Chromium | Edge | Brave | Vivaldi => true
  | _ => false
  end.

Section Paths.

(** [filepath.Join] of two elements, from Go's library. *)
Variable Join : string → string → string.

Definition getLinuxSessionPath (home : string) (browserType : browser_Type)
  : string * option pathError :=
  match browserType with
  | Chrome => (Join home ".config/google-chrome/Default/Sessions", None)
  | Chromium => (Join home ".config/chromium/Default/Sessions", None)
  | Edge => (Join home ".config/microsoft-edge/Default/Sessions", None)
  | Brave => (Join home ".config/BraveSoftware/Brave-Browser/Default/Sessions", None)
  | Vivaldi => (Join home ".config/vivaldi/Default/Sessions", None)
  | Firefox | Safari => (EmptyString, Some ErrBrowserNotAvailable)
  | Auto => (EmptyString, None)
  | OtherType => (EmptyString, Some ErrUnknownBrowser)
  end.

Definition getDarwinSessionPath (home : string) (browserType : browser_Type)
  : string * option pathError :=
  match browserType with
  | Chrome =>
      (Join home "Library/Application Support/Google/Chrome/Default/Sessions", None)
  | Chromium =>
      (Join home "Library/Application Support/Chromium/Default/Sessions", None)
  | Edge =>
      (Join home "Library/Application Support/Microsoft Edge/Default/Sessions", None)
  | Brave =>
      (Join home "Library/Application Support/BraveSoftware/Brave-Browser/Default/Sessions",
       None)
  | Vivaldi =>
      (Join home "Library/Application Support/Vivaldi/Default/Sessions", None)
  | Firefox | Safari => (EmptyString, Some ErrBrowserNotAvailable)
  | Auto => (EmptyString, None)
  | OtherType => (EmptyString, Some ErrUnknownBrowser)
  end.

Definition getWindowsSessionPath (pf : platform) (browserType : browser_Type)
  : string * option pathError :=
  let appData :=
    if decide (LOCALAPPDATA pf = EmptyString) then
      match UserHomeDir pf with
      | None => None
      | Some home => Some (Join home "AppData/Local")
      end
    else Some (LOCALAPPDATA pf) in
  match appData with
  | None => (EmptyString, Some ErrUserHomeDir)
  | Some appData =>
      match browserType with
      | Chrome => (Join appData "Google\Chrome\User Data\Default\Sessions", None)
      | Chromium => (Join appData "Chromium\User Data\Default\Sessions", None)
      | Edge => (Join appData "Microsoft\Edge\User Data\Default\Sessions", None)
      | Brave =>
          (Join appData "BraveSoftware\Brave-Browser\User Data\Default\Sessions", None)
      | Vivaldi => (Join appData "Vivaldi\User Data\Default\Sessions", None)
      | Firefox | Safari => (EmptyString, Some ErrBrowserNotAvailable)
      | Auto => (EmptyString, None)
      | OtherType => (EmptyString, Some ErrUnknownBrowser)
      end
  end.

(** [GetSessionPath]: the session directory of a browser on this
    platform. *)
Definition GetSessionPath (pf : platform) (browserType : browser_Type)
  : string * option pathError :=
  match UserHomeDir pf with
  | None => (EmptyString, Some ErrUserHomeDir)
  | Some home =>
      if decide (GOOS pf = "linux") then getLinuxSessionPath home browserType
      else if decide (GOOS pf = "darwin") then getDarwinSessionPath home browserType
      else if decide (GOOS pf = "windows") then getWindowsSessionPath pf browserType
      else (EmptyString, Some ErrUnsupportedPlatform)
  end.

End Paths.

(** ** findLatestSessionFile, QueryTabs, QueryMultipleBrowsersTabs *)

(** An [os.DirEntry]: its name, whether it is a directory, and the
    modification time [Info().ModTime().Unix()], an int64, or [None] when
    [Info()] fails. *)
Record DirEntry := mkDirEntry {
  de_Name : string;
  de_IsDir : bool;
  de_ModTime : option Z }.

(** The files a query reads: [os.ReadDir] of a directory ([None] for an
    error) and [os.Open] of a path with the content of the file ([None]
    for an error). *)
Record fileSystem := mkFileSystem {
  ReadDir : string → option (list DirEntry);
  Open : string → option reader }.

(** A [browser.Browser], as far as the queries use it. *)
Record browser_Browser := mkBrowser {
  b_Type : browser_Type;
  b_Name : string }.

Inductive queryError :=
| ErrReadSessionDir                (* failed to read session directory *)
| ErrNoSessionFile (dir : string)  (* no session file found in ... *)
| ErrNotChromium                   (* tabs extraction only supported for ... *)
| ErrOpenSessionFile               (* failed to open session file *)
| ErrParse (e : parseError).

Section Query.

Context `{SortSlice}.
Variable ExtractDomain : string → string.
Variable Join : string → string → string.

(** Body of the loop over the directory; the state is
    [(latestFile, latestTime)]. *)
Definition scanEntry (sessionDir : string) (st : string * Z) (entry : DirEntry)
  : string * Z :=
  let '(latestFile, latestTime) := st in
  if de_IsDir entry then st
  else
    let name := de_Name entry in
    if negb (String.prefix "Session_" name) && negb (String.prefix "Tabs_" name) then st
    else
      match de_ModTime entry with
      | None => st
      | Some modTime =>
          if (latestTime <? modTime)%Z then (Join sessionDir name, modTime) else st
      end.

Definition findLatestSessionFile (fs : fileSystem) (sessionDir : string)
  : string * option queryError :=
  match ReadDir fs sessionDir with
  | None => (EmptyString, Some ErrReadSessionDir)
  | Some entries =>
      let '(latestFile, _) :=
        fold_left (scanEntry sessionDir) entries (EmptyString, 0%Z) in
      if decide (latestFile = EmptyString)
      then (EmptyString, Some (ErrNoSessionFile sessionDir))
      else (latestFile, None)
  end.

(** [parseSessionFile(path, browserName)] from the path: the file is
    opened, then read as [parseSessionFile] says. *)
Definition parseSessionFileAt (fs : fileSystem) (tabOrder winOrder : list N)
    (path browserName : string) : exec (list TabEntry * option queryError) :=
  match Open fs path with
  | None => Done ([], Some ErrOpenSessionFile)
  | Some fh =>
      match parseSessionFile ExtractDomain tabOrder winOrder fh browserName with
      | Returned entries => Done (entries, None)
      | Failed e => Done ([], Some (ErrParse e))
      | Panicked k => Panic k
      end
  end.

Definition QueryTabs (fs : fileSystem) (tabOrder winOrder : list N)
    (b : browser_Browser) (sessionPath : string)
  : exec (list TabEntry * option queryError) :=
  if negb (IsChromiumBased (b_Type b)) then Done ([], Some ErrNotChromium)
  else
    match findLatestSessionFile fs sessionPath with
    | (_, Some err) => Done ([], Some err)
    | (file, None) => parseSessionFileAt fs tabOrder winOrder file (b_Name b)
    end.

(** The loop of [QueryMultipleBrowsersTabs] over the detected browsers;
    [orders] gives, browser by browser, the orders in which the maps of
    its parse are visited. *)
Fixpoint queryEach (pf : platform) (fs : fileSystem)
    (orders : list (list N * list N)) (browsers : list browser_Browser)
    (allEntries : list TabEntry) : exec (list TabEntry) :=
  match browsers with
  | [] => Done allEntries
  | b :: browsers' =>
      let '(tabOrder, winOrder) := hd ([], []) orders in
      let orders' := tl orders in
      if negb (IsChromiumBased (b_Type b)) then
        queryEach pf fs orders' browsers' allEntries
      else
        match GetSessionPath Join pf (b_Type b) with
        | (_, Some _) => queryEach pf fs orders' browsers' allEntries
        | (sessionPath, None) =>
            match QueryTabs fs tabOrder winOrder b sessionPath with
            | Panic k => Panic k
            | Done (_, Some _) => queryEach pf fs orders' browsers' allEntries
            | Done (entries, None) =>
                queryEach pf fs orders' browsers' (allEntries ++ entries)
            end
        end
  end.

(** [browsers] is what [detector.Detect()] returns. *)
Definition QueryMultipleBrowsersTabs (pf : platform) (fs : fileSystem)
    (orders : list (list N * list N)) (browsers : list browser_Browser)
  : exec (list TabEntry * option queryError) :=
  match queryEach pf fs orders browsers [] with
  | Done allEntries => Done (allEntries, None)
  | Panic k => Panic k
  end.

End Query.

(** ** Writing session files

    The layout of the file and of the payloads, used to state properties
    on well-formed input and to build concrete files. *)

(** [n] in [width] little-endian bytes. *)
Fixpoint le (width : nat) (n : N) : list byte :=
  match width with
  | O => []
  | S width' => byte_of (n mod 256) :: le width' (n / 256)
  end.

(** Zero bytes up to the next multiple of 4. *)
Definition padding (len : nat) : list byte :=
  replicate ((4 - len mod 4) mod 4)%nat x00.

Definition encString (s : list byte) : list byte :=
  le 4 (blen s) ++ s ++ padding (length s).

Definition encString16 (units : list N) : list byte :=
  le 4 (N.of_nat (length units)) ++ flat_map (le 2) units
    ++ padding (2 * length units).

(** One record: size, type, payload. *)
Definition record (typ : N) (payload : list byte) : list byte :=
  le 2 (blen payload + 1) ++ byte_of typ :: payload.

Definition header (ver : N) : list byte := [x53; x4e; x53; x53] ++ le 4 ver.

Definition ascii_bytes (s : string) : list byte := String.list_byte_of_string s.
Definition ascii_units (s : string) : list N := Byte.to_N <$> ascii_bytes s.

Definition encode (c : command) : list byte :=
  match c with
  | UpdateTabNavigation id histIdx urlStr title =>
      record kCommandUpdateTabNavigation
        (le 4 0 ++ le 4 id ++ le 4 histIdx ++ encString (ascii_bytes urlStr)
           ++ encString16 (ascii_units title))
  | SetSelectedTabInIndex id idx =>
      record kCommandSetSelectedTabInIndex (le 4 id ++ le 4 idx)
  | SetTabGroupMetadata2 high low name =>
      record kCommandSetTabGroupMetadata2
        (le 4 0 ++ le 8 high ++ le 8 low ++ encString16 (ascii_units name))
  | SetTabGroup id high low =>
      record kCommandSetTabGroup (le 4 id ++ le 4 0 ++ le 8 high ++ le 8 low)
  | SetTabWindow win id => record kCommandSetTabWindow (le 4 win ++ le 4 id)
  | WindowClosed id => record kCommandWindowClosed (le 4 id)
  | TabClosed id => record kCommandTabClosed (le 4 id)
  | SetTabIndexInWindow id index =>
      record kCommandSetTabIndexInWindow (le 4 id ++ le 4 index)
  | SetActiveWindow id => record kCommandSetActiveWindow (le 4 id)
  | SetSelectedNavigationIndex id idx =>
      record kCommandSetSelectedNavigationIndex (le 4 id ++ le 4 idx)
  | Unrecognized => record 99 []
  end.

Definition sessionFile (ver : N) (cs : list command) : list byte :=
  header ver ++ flat_map encode cs.

(** ** Vocabulary of the properties *)

(** The value of a two-byte little-endian size field. *)
Definition u16 (lo hi : byte) : N := uint16LE [lo; hi].

(** What one round does, by the shape of what is left of the file. *)
Definition roundOf (continue : SessionParser → reader → outcome SessionParser)
    (parser : SessionParser) (fh : reader) : outcome SessionParser :=
  match fh with
  | [] => Returned parser
  | [_] => Failed (ErrReadCommandSize ErrUnexpectedEOF)
  | [_; _] => Failed (ErrReadCommandType EOF)
  | lo :: hi :: typ :: rest =>
      let sz := u16 lo hi in
      if sz =? 0 then Panicked MakeSliceLen
      else if blen rest <? sz - 1
      then Failed (ErrReadCommandPayload
                     (if decide (rest = []) then EOF else ErrUnexpectedEOF))
      else match processCommand (Byte.to_N typ) (take (N.to_nat (sz - 1)) rest) parser with
           | Panic k => Panicked k
           | Done parser' => continue parser' (drop (N.to_nat (sz - 1)) rest)
           end
  end.

(** [framed fh recs]: [fh] is exactly the complete records [recs], each a
    size field of at least 1, a type byte and [size - 1] payload bytes. *)
Inductive framed : reader → list (N * list byte) → Prop :=
| framed_nil : framed [] []
| framed_cons lo hi typ rest recs :
    1 ≤ u16 lo hi →
    u16 lo hi - 1 ≤ blen rest →
    framed (drop (N.to_nat (u16 lo hi - 1)) rest) recs →
    framed (lo :: hi :: typ :: rest)
           ((Byte.to_N typ, take (N.to_nat (u16 lo hi - 1)) rest) :: recs).

(** [truncated tail]: [tail] is not empty and ends inside a record: in the
    size field, before the type byte, or before the end of the payload. *)
Inductive truncated : reader → Prop :=
| truncated_size b : truncated [b]
| truncated_type lo hi : truncated [lo; hi]
| truncated_payload lo hi typ rest :
    1 ≤ u16 lo hi → blen rest < u16 lo hi - 1 →
    truncated (lo :: hi :: typ :: rest).

(** The commands of [recs] processed in order. *)
Fixpoint replay (recs : list (N * list byte)) (p : SessionParser) : exec SessionParser :=
  match recs with
  | [] => Done p
  | (typ, payload) :: recs' =>
      match processCommand typ payload p with
      | Done p' => replay recs' p'
      | Panic k => Panic k
      end
  end.

Definition truncationError (e : parseError) : Prop :=
  match e with
  | ErrReadCommandSize _ | ErrReadCommandType _ | ErrReadCommandPayload _ => True
  | _ => False
  end.

(** [sizesPositive fh]: every record-size field met when [fh] is cut into
    records is at least 1. *)
Inductive sizesPositive : reader → Prop :=
| sizesPositive_nil : sizesPositive []
| sizesPositive_one b : sizesPositive [b]
| sizesPositive_cons lo hi rest :
    1 ≤ u16 lo hi →
    sizesPositive (drop (N.to_nat (u16 lo hi)) rest) →
    sizesPositive (lo :: hi :: rest).

Definition shortRead (r : reader) : ioError :=
  if decide (r = []) then EOF else ErrUnexpectedEOF.

(** The integer of [width] bytes at the head of [r], or 0 when [r] is too
    short to hold it. *)
Definition fieldOr0 (width : nat) (decode : list byte → N) (r : reader) : N :=
  if decide (width ≤ length r)%nat then decode (take width r) else 0.

Definition u32 (r : reader) : N := fieldOr0 4 uint32LE r.
Definition u64 (r : reader) : N := fieldOr0 8 uint64LE r.

(** [n] rounded up to the next multiple of 4. *)
Definition roundUp4 (n : N) : N := 4 * ((n + 3) / 4).

(** The code units of a byte sequence, two little-endian bytes each. *)
Fixpoint unitsLE (b : list byte) : list N :=
  match b with
  | lo :: hi :: b' => uint16LE [lo; hi] :: unitsLE b'
  | _ => []
  end.

(** No tab holds two history items with the same index. *)
Definition historyUnique (p : SessionParser) : Prop :=
  ∀ id t, tabs p !! id = Some t → NoDup (h_idx <$> t_history t).

(** The stores a parse goes through. *)
Inductive reachable : SessionParser → Prop :=
| reachable_new : reachable newSessionParser
| reachable_step p typ data p' :
    reachable p → processCommand typ data p = Done p' → reachable p'.

Definition recognized (typ : N) : Prop :=
  typ ∈ [kCommandSetTabWindow; kCommandSetTabIndexInWindow;
         kCommandUpdateTabNavigation; kCommandSetSelectedNavigationIndex;
         kCommandSetSelectedTabInIndex; kCommandTabClosed; kCommandWindowClosed;
         kCommandSetActiveWindow; kCommandSetTabGroup; kCommandSetTabGroupMetadata2].



(** *** The entry assembler *)

Section AssemblerTerms.

Context `{SortSlice}.
Variable ExtractDomain : string → string.

(** The tabs that are emitted: not deleted, and with a resolved URL that
    is not empty. *)
Definition kept (t : sessionTab) : Prop :=
  t_deleted t = false ∧ (resolveTab t).1 ≠ EmptyString.

Global Instance kept_dec t : Decision (kept t).
Proof. unfold kept. apply _. Defined.

Definition keptTabs (ts : list sessionTab) : list sessionTab := filter kept ts.

(** The entry of tab [t], emitted at position [pos] of window [w]. *)
Definition entryOf (p : SessionParser) (browserName : string) (w : sessionWindow)
    (windowID : N) (isActiveWindow : bool) (pos : N) (t : sessionTab) : TabEntry :=
  mkEntry (resolveTab t).1 (resolveTab t).2 (ExtractDomain (resolveTab t).1)
    (isActiveWindow && bool_decide (pos = w_activeTabIdx w))
    false (groupNameOf p t) windowID browserName.

(** The entries of one window, in order. *)
Definition windowEntries (p : SessionParser) (browserName : string)
    (w : sessionWindow) (windowID : N) (isActiveWindow : bool) : list TabEntry :=
  imap (λ i t, entryOf p browserName w windowID isActiveWindow (N.of_nat i) t)
       (keptTabs (w_tabs w)).

(** The windows visited by the last loop that are not deleted, with their
    keys, in the order of the visit. *)
Definition liveWindows (p : SessionParser) (winOrder : list N)
  : list (N * sessionWindow) :=
  filter (λ kw, w_deleted kw.2 = false)
         (omap (λ k, (λ w, (k, w)) <$> windows p !! k) winOrder).

(** A tab after the first loop: its history is sorted. *)
Definition sortedHistory (t : sessionTab) : sessionTab :=
  tab_with_history (sortSlice (λ a b, h_idx a <? h_idx b) (t_history t)) t.

(** The tabs met by the first loop, in the order of the visit. *)
Definition visitedTabs (p : SessionParser) (tabOrder : list N) : list sessionTab :=
  omap (λ id, tabs p !! id) tabOrder.

(** The tabs of the store that point to window [k], as the first loop
    appends them. *)
Definition tabsOfWindow (p : SessionParser) (tabOrder : list N) (k : N)
  : list sessionTab :=
  filter (λ t, t_win t = k) (sortedHistory <$> visitedTabs p tabOrder).

(** Before [buildTabEntries] runs no window holds a tab. *)
Definition tablessWindows (p : SessionParser) : Prop :=
  ∀ k w, windows p !! k = Some w → w_tabs w = [].

(** The number of entries marked active. *)
Definition activeCount (es : list TabEntry) : nat :=
  length (filter (λ e, Active e = true) es).

(** Does window [w], visited under key [k], emit the active entry? *)
Definition emitsActive (p : SessionParser) (kw : N * sessionWindow) : Prop :=
  activeWindow p = Some kw.1
  ∧ w_activeTabIdx kw.2 < N.of_nat (length (keptTabs (w_tabs kw.2))).

Global Instance emitsActive_dec p kw : Decision (emitsActive p kw).
Proof. unfold emitsActive. apply _. Defined.

End AssemblerTerms.

(** *** Concrete session files *)

(** Two group-metadata commands with different id pairs, then a tab put
    in the group of the first pair. *)
Definition collidingGroups : list command :=
  [SetTabGroupMetadata2 0x1 0x23 "A"; SetTabGroupMetadata2 0x12 0x3 "B";
   SetTabGroup 5 0x1 0x23].

(** Two windows with one tab each. *)
Definition twoWindows : list command :=
  [SetTabWindow 1 1; UpdateTabNavigation 1 0 "http://a" "A";
   SetTabWindow 2 2; UpdateTabNavigation 2 0 "http://b" "B"].

(** A tab whose selected navigation entry has an empty URL and is not the
    last entry. *)
Definition emptyCurrentURL : list command :=
  [SetTabWindow 1 1; UpdateTabNavigation 1 0 "" "T0";
   UpdateTabNavigation 1 1 "http://b" "B"; SetSelectedNavigationIndex 1 0].

(** An [UpdateTabNavigation] record whose URL declares 0xFFFFFFFF bytes. *)
Definition hugeURLLength : list byte :=
  record kCommandUpdateTabNavigation
    (le 4 0 ++ le 4 1 ++ le 4 0 ++ [xff; xff; xff; xff]).

(** A tab in the active window whose active index points past the
    emitted entries. *)
Definition activeIndexOutOfRange : list command :=
  [SetTabWindow 1 1; UpdateTabNavigation 1 0 "http://a" "A";
   SetActiveWindow 1; SetSelectedTabInIndex 1 5].

(** The store after the commands [cs]. *)
Definition storeOf (cs : list command) : SessionParser :=
  fold_left (λ p c, applyCommand c p) cs newSessionParser.

(** *** Little-endian values *)

(** The number written by a sequence of bytes, least significant first. *)
Definition leValue (b : list byte) : N :=
  foldr (λ x acc, Byte.to_N x + 256 * acc) 0 b.

(** *** Commands as written in a file *)

(** Text whose characters are all below 0x80, one byte and one code unit
    each. *)
Definition sevenBit (s : string) : Prop :=
  Forall (λ b, Byte.to_N b < 0x80) (ascii_bytes s).

Definition typeOf (c : command) : N :=
  match c with
  | UpdateTabNavigation _ _ _ _ => kCommandUpdateTabNavigation
  | SetSelectedTabInIndex _ _ => kCommandSetSelectedTabInIndex
  | SetTabGroupMetadata2 _ _ _ => kCommandSetTabGroupMetadata2
  | SetTabGroup _ _ _ => kCommandSetTabGroup
  | SetTabWindow _ _ => kCommandSetTabWindow
  | WindowClosed _ => kCommandWindowClosed
  | TabClosed _ => kCommandTabClosed
  | SetTabIndexInWindow _ _ => kCommandSetTabIndexInWindow
  | SetActiveWindow _ => kCommandSetActiveWindow
  | SetSelectedNavigationIndex _ _ => kCommandSetSelectedNavigationIndex
  | Unrecognized => 99
  end.

(** The payload of the record [encode c]. *)
Definition payloadOf (c : command) : list byte := drop 3 (encode c).

(** The fields of [c] fit their widths, its wide strings are plain text,
    and its record fits the 16-bit size field. *)
Definition wellFormed (c : command) : Prop :=
  blen (payloadOf c) + 1 < 2 ^ 16
  ∧ match c with
    | UpdateTabNavigation id histIdx _ title =>
        id < 2 ^ 32 ∧ histIdx < 2 ^ 32 ∧ sevenBit title
    | SetSelectedTabInIndex id idx => id < 2 ^ 32 ∧ idx < 2 ^ 32
    | SetTabGroupMetadata2 high low name =>
        high < 2 ^ 64 ∧ low < 2 ^ 64 ∧ sevenBit name
    | SetTabGroup id high low => id < 2 ^ 32 ∧ high < 2 ^ 64 ∧ low < 2 ^ 64
    | SetTabWindow win id => win < 2 ^ 32 ∧ id < 2 ^ 32
    | WindowClosed id | TabClosed id | SetActiveWindow id => id < 2 ^ 32
    | SetTabIndexInWindow id index => id < 2 ^ 32 ∧ index < 2 ^ 32
    | SetSelectedNavigationIndex id idx => id < 2 ^ 32 ∧ idx < 2 ^ 32
    | Unrecognized => True
    end.


(** *** Header of a session file *)

(** The error of a file that does not start with a valid header. *)
Definition headerErrorOf (fh : reader) : parseError :=
  if decide (length fh < 4)%nat then ErrReadMagic (shortRead fh)
  else if decide (take 4 fh ≠ [x53; x4e; x53; x53]) then ErrBadMagic
  else if decide (length fh < 8)%nat then ErrReadVersion (shortRead (drop 4 fh))
  else ErrUnsupportedVersion (u32 (drop 4 fh)).

Definition validHeader (fh : reader) : Prop :=
  ∃ ver rest, (ver = 1 ∨ ver = 3) ∧ fh = header ver ++ rest.

(** *** What a command does to the store *)

(** The tab a command writes, with the assignment it makes to it. *)
Definition tabEffect (c : command) : option (N * (sessionTab → sessionTab)) :=
  match c with
  | UpdateTabNavigation id histIdx urlStr title =>
      Some (id, λ t, tab_with_history
                       (upsertHistory histIdx urlStr title (t_history t)) t)
  | SetTabGroup id high low => Some (id, tab_with_group (Some (groupKey high low)))
  | SetTabWindow win id => Some (id, tab_with_win win)
  | TabClosed id => Some (id, tab_with_deleted true)
  | SetTabIndexInWindow id index => Some (id, tab_with_idx index)
  | SetSelectedNavigationIndex id idx => Some (id, tab_with_currentHistoryIdx idx)
  | _ => None
  end.

(** The window a command looks up, with the assignment it makes to it. *)
Definition windowEffect (c : command)
  : option (N * (sessionWindow → sessionWindow)) :=
  match c with
  | SetSelectedTabInIndex id idx => Some (id, window_with_activeTabIdx idx)
  | WindowClosed id => Some (id, window_with_deleted true)
  | SetActiveWindow id => Some (id, λ w, w)
  | _ => None
  end.

(** The group a command looks up, with the assignment it makes to it. *)
Definition groupEffect (c : command) : option (N * N * (tabGroup → tabGroup)) :=
  match c with
  | SetTabGroupMetadata2 high low name => Some (high, low, group_with_name name)
  | SetTabGroup id high low => Some (high, low, λ g, g)
  | _ => None
  end.

(** The object under [k], created as [new] when there is none, after the
    assignment [f]. *)
Definition upsert `{Countable K} {A} (k : K) (new : A) (f : A → A)
    (m : gmap K A) : gmap K A :=
  <[k := f (default new (m !! k))]> m.

(** Every object is stored under its own identifier, and the pointers
    held by the tabs and by the parser lead to objects of the store. *)
Definition wellKeyed (p : SessionParser) : Prop :=
  (∀ id t, tabs p !! id = Some t → t_id t = id)
  ∧ (∀ id w, windows p !! id = Some w → w_id w = id)
  ∧ (∀ key g, groups p !! key = Some g → key = groupKey (g_high g) (g_low g))
  ∧ (∀ id t key, tabs p !! id = Some t → t_group t = Some key →
       is_Some (groups p !! key))
  ∧ (∀ k, activeWindow p = Some k → is_Some (windows p !! k)).

(** [p'] holds every object of [p]; closed tabs and windows are still
    closed, history indices are still there, groups keep their
    identifiers, and an active window is still designated. *)
Definition extends (p p' : SessionParser) : Prop :=
  (∀ id t, tabs p !! id = Some t →
     ∃ t', tabs p' !! id = Some t'
           ∧ (t_deleted t = true → t_deleted t' = true)
           ∧ (h_idx <$> t_history t) ⊆ (h_idx <$> t_history t')
           ∧ (is_Some (t_group t) → is_Some (t_group t')))
  ∧ (∀ id w, windows p !! id = Some w →
       ∃ w', windows p' !! id = Some w'
             ∧ (w_deleted w = true → w_deleted w' = true))
  ∧ (∀ key g, groups p !! key = Some g →
       ∃ g', groups p' !! key = Some g'
             ∧ g_high g' = g_high g ∧ g_low g' = g_low g)
  ∧ (is_Some (activeWindow p) → is_Some (activeWindow p')).

(** The identifiers of the tab, the window and the group a command
    names. *)
Definition tabOf (c : command) : option N := fst <$> tabEffect c.
Definition windowOf (c : command) : option N := fst <$> windowEffect c.
Definition groupOf (c : command) : option string :=
  (λ e, groupKey e.1.1 e.1.2) <$> groupEffect c.

(** Does the command designate the active window? *)
Definition activates (c : command) : Prop :=
  match c with SetActiveWindow _ => True | _ => False end.

(** Two commands that name different tabs, different windows and
    different groups, and do not both designate the active window. *)
Definition independent (c1 c2 : command) : Prop :=
  (∀ id, tabOf c1 = Some id → tabOf c2 ≠ Some id)
  ∧ (∀ id, windowOf c1 = Some id → windowOf c2 ≠ Some id)
  ∧ (∀ key, groupOf c1 = Some key → groupOf c2 ≠ Some key)
  ∧ ¬ (activates c1 ∧ activates c2).

(** *** Orders of iteration *)

(** No two tabs of the same window have the same index in the window. *)
Definition distinctTabIndices (p : SessionParser) : Prop :=
  ∀ id1 id2 t1 t2,
    tabs p !! id1 = Some t1 → tabs p !! id2 = Some t2 → id1 ≠ id2 →
    t_win t1 = t_win t2 → t_idx t1 ≠ t_idx t2.

(** *** Platforms and session directories *)

Definition supportedOS (pf : platform) : Prop :=
  GOOS pf = "linux"%string ∨ GOOS pf = "darwin"%string ∨ GOOS pf = "windows"%string.

(** Is [name] the name of a session file? *)
Definition sessionFileName (name : string) : bool :=
  String.prefix "Session_" name || String.prefix "Tabs_" name.

(** [e] is a file that [findLatestSessionFile] can return: a session file
    that is not a directory, whose modification time [modTime] is known
    and is after the epoch. *)
Definition candidate (e : DirEntry) (modTime : Z) : Prop :=
  de_IsDir e = false ∧ sessionFileName (de_Name e) = true
  ∧ de_ModTime e = Some modTime ∧ (0 < modTime)%Z.

(** The modification time of an entry that the scan compares, if any. *)
Definition eligible (e : DirEntry) : option Z :=
  if de_IsDir e then None
  else if sessionFileName (de_Name e) then de_ModTime e else None.

(** What the scan holds after the entries [entries]: nothing when none
    is a candidate, and otherwise the first candidate among those with
    the latest modification time. *)
Definition scanned (Join : string → string → string) (dir : string)
    (entries : list DirEntry) (st : string * Z) : Prop :=
  (st = (EmptyString, 0%Z) ∧ ∀ e mt, e ∈ entries → ¬ candidate e mt)
  ∨ ∃ i e,
      entries !! i = Some e ∧ candidate e st.2 ∧ st.1 = Join dir (de_Name e)
      ∧ (∀ e' mt', e' ∈ entries → candidate e' mt' → (mt' ≤ st.2)%Z)
      ∧ (∀ j e' mt', (j < i)%nat → entries !! j = Some e' → candidate e' mt' →
           (mt' < st.2)%Z).

(** *** A concrete session directory *)

Definition slashJoin (a b : string) : string :=
  String.append a (String.append "/" b).

Definition sampleListing : list DirEntry :=
  [mkDirEntry "Session_1" false (Some 5%Z);
   mkDirEntry "Tabs_2" false (Some 9%Z);
   mkDirEntry "Session_3" false (Some 9%Z);
   mkDirEntry "Session_0" false (Some 0%Z);
   mkDirEntry "Preferences" false (Some 20%Z)].

(** A directory with the listing above, whose files cannot be opened. *)
Definition sampleSessions : fileSystem :=
  mkFileSystem (λ _, Some sampleListing) (λ _, None).

Definition linuxUser : platform :=
  mkPlatform "linux" (Some "/home/u"%string) EmptyString.

(** A file system in which every file is a session file whose first
    record declares the size 0. *)
Definition zeroSizeSessions : fileSystem :=
  mkFileSystem (λ _, Some sampleListing) (λ _, Some (header 1 ++ [x00; x00; x05])).

(** *** Hexadecimal text *)

(** The value of a hexadecimal digit of [fmt]'s [%x]. *)
Definition digitValue (c : Ascii.ascii) : N :=
  let n := Ascii.N_of_ascii c in
  if n <? 58 then n - 48 else n - 87.

(** The number written by hexadecimal digits, read after [acc]. *)
Fixpoint hexValueAcc (s : string) (acc : N) : N :=
  match s with
  | EmptyString => acc
  | String c s' => hexValueAcc s' (16 * acc + digitValue c)
  end.

Definition hexValue (s : string) : N := hexValueAcc s 0.
(** *** Strings that are cut short *)




(** A window without tabs, then a window with one tab. *)
Definition emptyWindowFirst : list command :=
  [SetSelectedTabInIndex 1 0; SetTabWindow 2 2;
   UpdateTabNavigation 2 0 "http://b" "B"].

(** * Properties *)

(** ** Readers on concrete bytes *)

Example readString_padded :
  readString [x03; x00; x00; x00; x61; x62; x63; x00; xff]
  = Done (("abc"%string, None), [xff]).
Proof. reflexivity. Qed.

Example readString16_padded :
  readString16 [x01; x00; x00; x00; x41; x00; x00; x00; xff]
  = Done (("A"%string, None), [xff]).
Proof. reflexivity. Qed.

Example formatHex_ex : formatHex 0x1f0 = "1f0"%string ∧ formatHex 0 = "0"%string.
Proof. split; reflexivity. Qed.

(** ** The insertion sort meets the contract of [sort.Slice] *)

Section InsertionSort.
Context {A : Type}.

Lemma insertBack_perm (less : A → A → bool) x racc :
  insertBack less x racc ≡ₚ x :: racc.
Proof.
  induction racc as [|y racc IH]; simpl; [done|].
  destruct (less x y); [|done].
  rewrite IH. apply Permutation_swap.
Qed.

Lemma insertionSort_perm (less : A → A → bool) l : insertionSort less l ≡ₚ l.
Proof.
  unfold insertionSort.
  assert (G : ∀ racc, fold_left (λ racc x, insertBack less x racc) l racc
                      ≡ₚ l ++ racc).
  { induction l as [|x l IH]; intros racc; simpl; [done|].
    rewrite IH, insertBack_perm. simpl. symmetry. apply Permutation_middle. }
  rewrite <- Permutation_rev. rewrite G. by rewrite app_nil_r.
Qed.

Variable key : A → N.

Let less : A → A → bool := λ a b, key a <? key b.
Let desc : A → A → Prop := λ a b, key b ≤ key a.
Let asc : A → A → Prop := λ a b, key a ≤ key b.

Lemma insertBack_desc x racc :
  StronglySorted desc racc → StronglySorted desc (insertBack less x racc).
Proof.
  induction 1 as [|y racc Hs IH Hall]; simpl.
  - repeat constructor.
  - unfold less at 1. destruct (N.ltb_spec (key x) (key y)) as [Hlt|Hge].
    + constructor; [done|].
      rewrite insertBack_perm. constructor; [unfold desc; lia | done].
    + constructor; [by constructor|].
      constructor; [done|].
      eapply Forall_impl; [exact Hall|]. unfold desc. intros z Hz. lia.
Qed.

Lemma StronglySorted_rev_desc l :
  StronglySorted desc l → StronglySorted asc (rev l).
Proof.
  induction 1 as [|y l Hs IH Hall]; simpl; [constructor|].
  apply StronglySorted_app_2; [| done | repeat constructor].
  intros x1 x2 Hx1 ->%list_elem_of_singleton.
  rewrite list_elem_of_In, <- in_rev, <- list_elem_of_In in Hx1.
  rewrite Forall_forall in Hall.
  by apply Hall.
Qed.

Lemma insertionSort_sorted l : StronglySorted asc (insertionSort less l).
Proof.
  unfold insertionSort. apply StronglySorted_rev_desc.
  assert (G : ∀ racc, StronglySorted desc racc →
              StronglySorted desc (fold_left (λ racc x, insertBack less x racc) l racc)).
  { induction l as [|x l IH]; intros racc Hr; simpl; [done|].
    apply IH. by apply insertBack_desc. }
  apply G. constructor.
Qed.
End InsertionSort.

Definition insertionSortSlice : SortSlice :=
  {| sortSlice := @insertionSort;
     sortSlice_perm := @insertionSort_perm;
     sortSlice_sorted := @insertionSort_sorted |}.

(** ** Readers *)

Lemma blen_app (a b : list byte) : blen (a ++ b) = blen a + blen b.
Proof. unfold blen. rewrite length_app. lia. Qed.

Lemma ReadFull_enough (n : N) (r : reader) :
  0 < n → n ≤ blen r →
  ReadFull n r = Done ((take (N.to_nat n) r, None), drop (N.to_nat n) r).
Proof.
  intros Hn Hr. unfold ReadFull.
  destruct (N.eqb_spec n 0); [lia|].
  destruct (N.eqb_spec (blen r) 0); [lia|].
  destruct (N.ltb_spec (blen r) n); [lia|done].
Qed.

Lemma ReadFull_zero (r : reader) : ReadFull 0 r = Done (([], None), r).
Proof. done. Qed.

Lemma ReadFull_short (n : N) (r : reader) :
  blen r < n →
  ReadFull n r
  = Done ((r, Some (if decide (r = []) then EOF else ErrUnexpectedEOF)), []).
Proof.
  intros Hr. unfold ReadFull.
  destruct (N.eqb_spec n 0); [lia|].
  destruct r as [|b r]; [done|].
  destruct (N.eqb_spec (blen (b :: r)) 0) as [E|_]; [discriminate E|].
  destruct (N.ltb_spec (blen (b :: r)) n); [done|lia].
Qed.

(** A read either fails and drains the reader or takes exactly [n] bytes:
    in both cases [n] bytes are dropped. *)
Lemma ReadFull_drop (n : N) (r : reader) :
  ∃ b err, ReadFull n r = Done ((b, err), drop (N.to_nat n) r)
           ∧ (err = None ↔ n ≤ blen r)
           ∧ (err = None → b = take (N.to_nat n) r).
Proof.
  destruct (N.eqb_spec n 0) as [->|Hn].
  { exists [], None. rewrite ReadFull_zero. simpl. split_and!; [done| |done].
    split; [lia|done]. }
  destruct (N.ltb_spec (blen r) n) as [Hlt|Hge].
  - eexists _, _. rewrite ReadFull_short by done.
    rewrite drop_ge by (unfold blen in Hlt; lia).
    split_and!; [done| |done]. split; [done|lia].
  - eexists _, _. rewrite ReadFull_enough by lia. done.
Qed.

Lemma readUint16_nil : readUint16 [] = Done ((0, Some EOF), []).
Proof. done. Qed.

Lemma readUint16_one b : readUint16 [b] = Done ((0, Some ErrUnexpectedEOF), []).
Proof. done. Qed.

Lemma readUint16_cons lo hi r : readUint16 (lo :: hi :: r) = Done ((u16 lo hi, None), r).
Proof.
  unfold readUint16, bind. rewrite ReadFull_enough by (unfold blen; simpl; lia).
  done.
Qed.

Lemma readUint8_nil : readUint8 [] = Done ((0, Some EOF), []).
Proof. done. Qed.

Lemma readUint8_cons b r : readUint8 (b :: r) = Done ((Byte.to_N b, None), r).
Proof.
  unfold readUint8, bind. rewrite ReadFull_enough by (unfold blen; simpl; lia).
  done.
Qed.

(** ** The command loop *)

Lemma readCommandsBody_round continue parser fh :
  readCommandsBody continue parser fh = roundOf continue parser fh.
Proof.
  destruct fh as [|lo [|hi [|typ rest]]]; [done..|].
  unfold readCommandsBody, roundOf.
  rewrite readUint16_cons, readUint8_cons.
  destruct (u16 lo hi =? 0) eqn:Hsz; [done|].
  apply N.eqb_neq in Hsz.
  destruct (N.ltb_spec (blen rest) (u16 lo hi - 1)) as [Hlt|Hge].
  - by rewrite ReadFull_short.
  - destruct (N.eqb_spec (u16 lo hi - 1) 0) as [E|E].
    + by rewrite E, ReadFull_zero.
    + by rewrite ReadFull_enough by lia.
Qed.

Lemma roundOf_ext k1 k2 parser fh :
  (∀ p' fh', (length fh' + 3 ≤ length fh)%nat → k1 p' fh' = k2 p' fh') →
  roundOf k1 parser fh = roundOf k2 parser fh.
Proof.
  intros Hk. destruct fh as [|lo [|hi [|typ rest]]]; [done..|]. simpl.
  destruct (_ =? 0); [done|]. destruct (_ <? _); [done|].
  destruct (processCommand _ _ _); [|done].
  apply Hk. simpl. rewrite length_drop. lia.
Qed.

Lemma readCommandsFuel_irrel f1 : ∀ f2 parser fh,
  (length fh < f1)%nat → (length fh < f2)%nat →
  readCommandsFuel f1 parser fh = readCommandsFuel f2 parser fh.
Proof.
  induction f1 as [|f1 IH]; intros f2 parser fh H1 H2; [lia|].
  destruct f2 as [|f2]; [lia|]. simpl.
  rewrite !readCommandsBody_round. apply roundOf_ext.
  intros p' fh' Hlen. apply IH; lia.
Qed.

(** The loop equation: [readCommands] is one round followed by itself. *)
Lemma readCommands_unfold parser fh :
  readCommands parser fh = roundOf readCommands parser fh.
Proof.
  unfold readCommands at 1. simpl. rewrite readCommandsBody_round.
  apply roundOf_ext. intros p' fh' Hlen.
  apply readCommandsFuel_irrel; lia.
Qed.

(** ** Framing of the record stream *)

Lemma readCommands_framed fh recs :
  framed fh recs → ∀ p p',
  replay recs p = Done p' → readCommands p fh = Returned p'.
Proof.
  induction 1 as [|lo hi typ rest recs Hsz Hlen Hfr IH]; intros p p' Hre.
  - simpl in Hre. by injection Hre as ->.
  - rewrite readCommands_unfold. simpl. simpl in Hre.
    destruct (N.eqb_spec (u16 lo hi) 0); [lia|].
    destruct (N.ltb_spec (blen rest) (u16 lo hi - 1)); [lia|].
    destruct (processCommand _ _ p) as [p1|]; [|done].
    by apply IH.
Qed.

Lemma readCommands_returned_inv n : ∀ fh p p',
  (length fh ≤ n)%nat →
  readCommands p fh = Returned p' →
  ∃ recs, framed fh recs ∧ replay recs p = Done p'.
Proof.
  induction n as [|n IH]; intros fh p p' Hn Hret;
    rewrite readCommands_unfold in Hret.
  - destruct fh; [|simpl in Hn; lia]. simpl in Hret. injection Hret as ->.
    exists []. split; [constructor|done].
  - destruct fh as [|lo [|hi [|typ rest]]]; simpl in Hret; try discriminate.
    + injection Hret as ->. exists []. split; [constructor|done].
    + destruct (N.eqb_spec (u16 lo hi) 0) as [|Hsz]; [done|].
      destruct (N.ltb_spec (blen rest) (u16 lo hi - 1)) as [|Hlen]; [done|].
      destruct (processCommand _ _ p) as [p1|] eqn:Hpc; [|done].
      apply IH in Hret as (recs & Hfr & Hre).
      2:{ rewrite length_drop. simpl in Hn. lia. }
      eexists (_ :: recs). split.
      * constructor; [lia|done|done].
      * simpl. by rewrite Hpc.
Qed.

Lemma readCommands_truncated fh recs : 
  framed fh recs → ∀ tail p p',
  replay recs p = Done p' → truncated tail →
  ∃ e, readCommands p (fh ++ tail) = Failed e ∧ truncationError e.
Proof.
  induction 1 as [|lo hi typ rest recs Hsz Hlen Hfr IH]; intros tail p p' Hre Htr.
  - simpl in Hre. injection Hre as ->. simpl. rewrite readCommands_unfold.
    destruct Htr as [b|lo hi|lo hi typ rest Hsz Hlen]; simpl; [by eexists..|].
    destruct (N.eqb_spec (u16 lo hi) 0); [lia|].
    destruct (N.ltb_spec (blen rest) (u16 lo hi - 1)); [|lia].
    by eexists.
  - rewrite readCommands_unfold. simpl. simpl in Hre.
    destruct (N.eqb_spec (u16 lo hi) 0); [lia|].
    rewrite blen_app.
    destruct (N.ltb_spec (blen rest + blen tail) (u16 lo hi - 1)); [lia|].
    rewrite take_app_le by (unfold blen in Hlen; lia).
    destruct (processCommand _ _ p) as [p1|]; [|done].
    rewrite drop_app_le by (unfold blen in Hlen; lia).
    by eapply IH.
Qed.

(** ** Fields read with their errors dropped *)

Lemma readUint32_total r :
  readUint32 r
  = Done ((u32 r, if decide (4 ≤ length r)%nat then None else Some (shortRead r)),
          drop 4 r).
Proof.
  unfold readUint32, bind, u32, fieldOr0. case_decide as Hlen.
  - rewrite ReadFull_enough by (unfold blen; lia). done.
  - rewrite ReadFull_short by (unfold blen; lia).
    rewrite drop_ge by lia. done.
Qed.

Lemma readUint64_total r :
  readUint64 r
  = Done ((u64 r, if decide (8 ≤ length r)%nat then None else Some (shortRead r)),
          drop 8 r).
Proof.
  unfold readUint64, bind, u64, fieldOr0. case_decide as Hlen.
  - rewrite ReadFull_enough by (unfold blen; lia). done.
  - rewrite ReadFull_short by (unfold blen; lia).
    rewrite drop_ge by lia. done.
Qed.

Lemma val_readUint32 r : val readUint32 r = Done (u32 r, drop 4 r).
Proof. unfold val, bind. by rewrite readUint32_total. Qed.

Lemma val_readUint64 r : val readUint64 r = Done (u64 r, drop 8 r).
Proof. unfold val, bind. by rewrite readUint64_total. Qed.

Lemma skip_readUint32 {B} (k : M B) r :
  (let* _ := readUint32 in k) r = k (drop 4 r).
Proof. unfold bind. by rewrite readUint32_total. Qed.

Lemma bind_val_readUint32 {B} (k : N → M B) r :
  (let* x := val readUint32 in k x) r = k (u32 r) (drop 4 r).
Proof. unfold bind at 1. by rewrite val_readUint32. Qed.

Lemma bind_val_readUint64 {B} (k : N → M B) r :
  (let* x := val readUint64 in k x) r = k (u64 r) (drop 8 r).
Proof. unfold bind at 1. by rewrite val_readUint64. Qed.

(** The string readers on a reader too short for the length prefix. *)
Lemma readString_no_length r :
  (length r < 4)%nat → readString r = Done ((EmptyString, Some (shortRead r)), []).
Proof.
  intros Hlen. unfold readString, bind. rewrite readUint32_total.
  case_decide; [lia|]. by rewrite drop_ge by lia.
Qed.

Lemma readString16_no_length r :
  (length r < 4)%nat → readString16 r = Done ((EmptyString, Some (shortRead r)), []).
Proof.
  intros Hlen. unfold readString16, bind. rewrite readUint32_total.
  case_decide; [lia|]. by rewrite drop_ge by lia.
Qed.

(** The only panics of the string readers. *)
Lemma readString_panic r k : readString r = Panic k → k = SliceBounds.
Proof.
  unfold readString, bind. rewrite readUint32_total.
  case_decide; [|done].
  destruct (ReadFull_drop (align4 (u32 r)) (drop 4 r)) as (b & err & -> & _).
  destruct err; [done|].
  destruct (_ <? _); [|done]. unfold panic. by intros [= <-].
Qed.

Lemma codeUnits_panic_len m : ∀ b n k,
  (length b ≤ m)%nat → codeUnits b n = Panic k → k = IndexRange.
Proof.
  induction m as [|m IH]; intros b n k Hlen.
  - destruct b; [|simpl in Hlen; lia]. simpl.
    destruct (n =? 0); [done|]. by intros [= <-].
  - destruct b as [|lo [|hi b]]; simpl; destruct (n =? 0); try done;
      try by intros [= <-].
    destruct (codeUnits b (n - 1)) eqn:E; [done|].
    intros [= <-]. eapply IH; [|exact E]. simpl in Hlen. lia.
Qed.

Lemma codeUnits_panic b n k : codeUnits b n = Panic k → k = IndexRange.
Proof. by apply (codeUnits_panic_len (length b)). Qed.

Lemma readString16_panic r k : readString16 r = Panic k → k = IndexRange.
Proof.
  unfold readString16, bind. rewrite readUint32_total.
  case_decide; [|done].
  destruct (ReadFull_drop (align4 (wrap32 (u32 r * 2))) (drop 4 r)) as (b & err & -> & _).
  destruct err; [done|].
  destruct (codeUnits _ _) eqn:E; [done|].
  unfold panic. intros [= <-]. by eapply codeUnits_panic.
Qed.

Lemma val_panic {A E} (m : M (A * E)) r k : val m r = Panic k → m r = Panic k.
Proof. unfold val, bind. destruct (m r) as [[? ?]|]; [done|]. by intros [= <-]. Qed.

Lemma decodeCommand_panic typ data k :
  decodeCommand typ data = Panic k → k = SliceBounds ∨ k = IndexRange.
Proof.
  unfold decodeCommand.
  repeat case_decide;
    rewrite ?skip_readUint32, ?bind_val_readUint32, ?bind_val_readUint64,
            ?skip_readUint32, ?bind_val_readUint32, ?bind_val_readUint64,
            ?bind_val_readUint32, ?bind_val_readUint64; try done.
  - unfold bind at 1.
    destruct (val readString _) as [[u r1]|k1] eqn:E1.
    + unfold bind.
      destruct (val readString16 r1) as [[t r2]|k2] eqn:E2; [done|].
      intros [= <-]. right. apply val_panic in E2. by eapply readString16_panic.
    + intros [= <-]. left. apply val_panic in E1. by eapply readString_panic.
  - unfold bind.
    destruct (val readString16 _) as [[t r2]|k2] eqn:E2; [done|].
    intros [= <-]. right. apply val_panic in E2. by eapply readString16_panic.
Qed.

Lemma processCommand_panic typ data p k :
  processCommand typ data p = Panic k → k = SliceBounds ∨ k = IndexRange.
Proof.
  unfold processCommand.
  destruct (decodeCommand typ data) as [[c r]|k'] eqn:E; [done|].
  intros [= <-]. by eapply decodeCommand_panic.
Qed.

(** ** The record stream reader *)

Lemma readCommands_zero_size p lo hi typ rest :
  u16 lo hi = 0 → readCommands p (lo :: hi :: typ :: rest) = Panicked MakeSliceLen.
Proof. intros Hsz. rewrite readCommands_unfold. simpl. by rewrite Hsz. Qed.

Lemma readCommands_sizesPositive fh :
  sizesPositive fh → ∀ p, readCommands p fh ≠ Panicked MakeSliceLen.
Proof.
  induction 1 as [|b|lo hi rest Hsz Hsp IH]; intros p;
    rewrite readCommands_unfold; [done..|].
  destruct rest as [|typ rest]; [done|]. simpl.
  destruct (N.eqb_spec (u16 lo hi) 0); [lia|].
  destruct (_ <? _); [done|].
  destruct (processCommand _ _ p) as [p1|k] eqn:Hpc.
  - replace (N.to_nat (u16 lo hi)) with (S (N.to_nat (u16 lo hi - 1))) in IH by lia.
    apply IH.
  - apply processCommand_panic in Hpc as [-> | ->]; done.
Qed.

Section Parse.

Context `{SortSlice}.
Variable ExtractDomain : string → string.

Lemma parseSessionFile_header tabOrder winOrder ver fh browserName :
  ver = 1 ∨ ver = 3 →
  parseSessionFile ExtractDomain tabOrder winOrder (header ver ++ fh) browserName
  = match readCommands newSessionParser fh with
    | Returned parser =>
        Returned (buildTabEntries ExtractDomain tabOrder winOrder parser browserName)
    | Failed e => Failed e
    | Panicked k => Panicked k
    end.
Proof.
  intros [-> | ->]; unfold parseSessionFile, header; simpl.
  all: rewrite ReadFull_enough by (unfold blen; simpl; lia); simpl.
  all: rewrite readUint32_total; simpl.
  all: by rewrite drop_0.
Qed.

(** C4: some file with a valid magic header and version whose next record
    declares the size 0 makes the record loop ask for a buffer of length -1
    and panic, where no error is returned; this is what a zero size field
    followed by a type byte always does, and a stream all of whose
    record-size fields are at least 1 never panics in that allocation. *)
Theorem C4_zero_size_record_panics :
  (∀ tabOrder winOrder browserName,
      parseSessionFile ExtractDomain tabOrder winOrder
        (header 1 ++ [x00; x00; x05]) browserName
      = Panicked MakeSliceLen)
  ∧ (∀ p lo hi typ rest,
        u16 lo hi = 0 →
        readCommands p (lo :: hi :: typ :: rest) = Panicked MakeSliceLen)
  ∧ (∀ p fh, sizesPositive fh → readCommands p fh ≠ Panicked MakeSliceLen).
Proof.
  split_and!.
  - intros. rewrite parseSessionFile_header by auto.
    by rewrite readCommands_zero_size.
  - intros. by apply readCommands_zero_size.
  - intros. by apply readCommands_sizesPositive.
Qed.

(** C5: after a valid header the record loop ends normally, returning the
    assembled entries, exactly when the rest of the file is a sequence of
    complete records, that is when the end of the stream is met at the
    start of a record-size field; a file that ends inside the size field,
    before the type byte or inside the payload fails the whole parse with
    one of the three truncation errors, and no entries are returned. *)
Theorem C5_loop_ends_at_record_boundary tabOrder winOrder browserName ver fh :
  ver = 1 ∨ ver = 3 →
  (∀ entries,
      parseSessionFile ExtractDomain tabOrder winOrder (header ver ++ fh) browserName
      = Returned entries
      ↔ ∃ recs p, framed fh recs ∧ replay recs newSessionParser = Done p
                  ∧ entries = buildTabEntries ExtractDomain tabOrder winOrder p browserName)
  ∧ (∀ complete tail recs p,
        fh = complete ++ tail → framed complete recs →
        replay recs newSessionParser = Done p → truncated tail →
        ∃ e, parseSessionFile ExtractDomain tabOrder winOrder (header ver ++ fh) browserName
             = Failed e ∧ truncationError e).
Proof.
  intros Hver. rewrite parseSessionFile_header by done. split.
  - intros entries. split.
    + destruct (readCommands newSessionParser fh) as [p| |] eqn:Hrc; [|done..].
      intros [= <-].
      apply (readCommands_returned_inv (length fh)) in Hrc as (recs & ? & ?); [|done].
      by exists recs, p.
    + intros (recs & p & Hfr & Hre & ->).
      by rewrite (readCommands_framed _ _ Hfr _ _ Hre).
  - intros complete tail recs p -> Hfr Hre Htr.
    destruct (readCommands_truncated _ _ Hfr tail _ _ Hre Htr) as (e & -> & He).
    by exists e.
Qed.

End Parse.

Lemma C4_zero_size_record_panics_witness :
  sizesPositive (encode (TabClosed 7))
  ∧ readCommands newSessionParser (encode (TabClosed 7)) ≠ Panicked MakeSliceLen.
Proof.
  assert (Hsp : sizesPositive (encode (TabClosed 7))).
  { apply sizesPositive_cons; [vm_compute; discriminate|]. apply sizesPositive_nil. }
  split; [exact Hsp|].
  exact (proj2 (proj2 (@C4_zero_size_record_panics insertionSortSlice (λ _, EmptyString)))
           newSessionParser _ Hsp).
Defined.

Lemma C5_loop_ends_at_record_boundary_witness :
  (1 = 1 ∨ 1 = 3)
  ∧ (∃ e, parseSessionFile (H := insertionSortSlice) (λ _, EmptyString) [] []
            (header 1 ++ encode (TabClosed 7) ++ [x05; x00; x10; x01]) "chrome"
          = Failed e ∧ truncationError e).
Proof.
  split; [by left|].
  refine (proj2 (@C5_loop_ends_at_record_boundary insertionSortSlice (λ _, EmptyString)
                   [] [] "chrome"%string 1 _ (or_introl eq_refl))
            (encode (TabClosed 7)) [x05; x00; x10; x01]
            [(16, le 4 7)] _ eq_refl _ eq_refl _).
  - apply (framed_cons x05 x00 x10 (le 4 7) []); [vm_compute; discriminate..|].
    apply framed_nil.
  - apply truncated_payload; [vm_compute; discriminate | vm_compute; reflexivity].
Defined.

(** ** The scenarios of the specification *)

Example scenario_A (ExtractDomain : string → string) :
  parseSessionFile (H := insertionSortSlice) ExtractDomain [1] [1]
    (sessionFile 1 [SetTabWindow 1 1; UpdateTabNavigation 1 0 "https://a.example" "A";
                    SetSelectedNavigationIndex 1 0]) "chrome"
  = Returned [mkEntry "https://a.example" "A" (ExtractDomain "https://a.example"%string)
                false false "" 1 "chrome"].
Proof. vm_compute. reflexivity. Qed.

Example scenario_B (ExtractDomain : string → string) :
  parseSessionFile (H := insertionSortSlice) ExtractDomain [1] [1]
    (sessionFile 1 [SetTabWindow 1 1; UpdateTabNavigation 1 0 "https://a.example" "A";
                    SetSelectedNavigationIndex 1 0; SetActiveWindow 1;
                    SetSelectedTabInIndex 1 0]) "chrome"
  = Returned [mkEntry "https://a.example" "A" (ExtractDomain "https://a.example"%string)
                true false "" 1 "chrome"].
Proof. vm_compute. reflexivity. Qed.

Example scenario_C (ExtractDomain : string → string) :
  parseSessionFile (H := insertionSortSlice) ExtractDomain [1; 2] [1]
    (sessionFile 1 [SetTabWindow 1 1; UpdateTabNavigation 1 0 "https://a.example" "A";
                    SetTabIndexInWindow 1 1;
                    SetTabWindow 1 2; UpdateTabNavigation 2 0 "https://b.example" "B";
                    SetTabIndexInWindow 2 0]) "chrome"
  = Returned [mkEntry "https://b.example" "B" (ExtractDomain "https://b.example"%string)
                false false "" 1 "chrome";
              mkEntry "https://a.example" "A" (ExtractDomain "https://a.example"%string)
                false false "" 1 "chrome"].
Proof. vm_compute. reflexivity. Qed.

Example scenario_D (ExtractDomain : string → string) :
  parseSessionFile (H := insertionSortSlice) ExtractDomain [1] [1]
    (sessionFile 1 [SetTabWindow 1 1; Unrecognized;
                    UpdateTabNavigation 1 0 "https://a.example" "A";
                    SetSelectedNavigationIndex 1 0]) "chrome"
  = Returned [mkEntry "https://a.example" "A" (ExtractDomain "https://a.example"%string)
                false false "" 1 "chrome"].
Proof. vm_compute. reflexivity. Qed.

Example scenario_E (ExtractDomain : string → string) :
  parseSessionFile (H := insertionSortSlice) ExtractDomain [] []
    (header 1 ++ [x09; x00; x00; x01; x00]) "chrome"
  = Failed (ErrReadCommandPayload ErrUnexpectedEOF).
Proof. vm_compute. reflexivity. Qed.

(** ** Defects shown on concrete files

    The map orders and the slices below have at most two elements, where
    [sort.Slice] is the insertion sort. *)

(** C3: the key built by getGroup is not injective on the pair: the pairs
    (0x1, 0x23) and (0x12, 0x3) are different and share the key 123, so
    the two metadata commands write the name of one and the same group,
    and a tab put in the group (0x1, 0x23) carries the name given to
    (0x12, 0x3). *)
Theorem C3_group_key_collision :
  (0x1, 0x23) ≠ (0x12, 0x3)
  ∧ groupKey 0x1 0x23 = groupKey 0x12 0x3
  ∧ readCommands newSessionParser (flat_map encode collidingGroups)
    = Returned (mkParser {[ 5 := tab_with_group (Some "123"%string) (newTab 5) ]} ∅
                  {[ "123"%string := mkGroup 0x1 0x23 "B" ]} None).
Proof. split_and!; [discriminate | reflexivity | vm_compute; reflexivity]. Qed.

(** C1: on one and the same file, whose store has the tabs 1 and 2 and,
    once assembled, the windows 1 and 2, the two orders in which the range
    over the windows map may visit its keys give two different outputs: the
    window numbers and the order of the entries follow the iteration order
    of the map. *)
Theorem C1_output_follows_map_iteration_order (ExtractDomain : string → string) :
  ∃ p,
    readCommands newSessionParser (flat_map encode twoWindows) = Returned p
    ∧ dom (tabs p) = {[1; 2]}
    ∧ dom (windows (assemble (H := insertionSortSlice) [1; 2] p)) = {[1; 2]}
    ∧ parseSessionFile (H := insertionSortSlice) ExtractDomain [1; 2] [1; 2]
        (sessionFile 1 twoWindows) "chrome"
      = Returned
          [mkEntry "http://a" "A" (ExtractDomain "http://a"%string) false false "" 1 "chrome";
           mkEntry "http://b" "B" (ExtractDomain "http://b"%string) false false "" 2 "chrome"]
    ∧ parseSessionFile (H := insertionSortSlice) ExtractDomain [1; 2] [2; 1]
        (sessionFile 1 twoWindows) "chrome"
      = Returned
          [mkEntry "http://b" "B" (ExtractDomain "http://b"%string) false false "" 1 "chrome";
           mkEntry "http://a" "A" (ExtractDomain "http://a"%string) false false "" 2 "chrome"].
Proof.
  eexists. split; [vm_compute; reflexivity|].
  split; [vm_compute; reflexivity|].
  split; [vm_compute; reflexivity|].
  split; vm_compute; reflexivity.
Qed.

(** C7: for the tab of [emptyCurrentURL] the history item at
    currentHistoryIdx 0 exists, with an empty URL and the title T0; the
    assembler does not use it: the fallback runs because the URL is empty,
    and the tab is emitted with the URL and title of the last item. *)
Theorem C7_fallback_overrides_found_item (ExtractDomain : string → string) :
  let t := mkTab 1 [mkItem 0 "" "T0"; mkItem 1 "http://b" "B"] 0 1 false 0 None in
  readCommands newSessionParser (flat_map encode emptyCurrentURL)
  = Returned (mkParser {[ 1 := t ]} ∅ ∅ None)
  ∧ currentItem t = (""%string, "T0"%string)
  ∧ resolveTab t = ("http://b"%string, "B"%string)
  ∧ parseSessionFile (H := insertionSortSlice) ExtractDomain [1] [1]
      (sessionFile 1 emptyCurrentURL) "chrome"
    = Returned
        [mkEntry "http://b" "B" (ExtractDomain "http://b"%string) false false "" 1 "chrome"].
Proof. split_and!; vm_compute; reflexivity. Qed.

(** C10: a length field of 0xFFFFFFFF makes the byte-string reader panic
    on slicing, and a length field of 0x7FFFFFFF makes the wide-string
    reader panic on indexing, where an end-of-data error is due; with the
    length 0x80000001 the wide-string reader returns a string of one
    character from 4 bytes without any error.  A session file with such a
    URL length makes the whole parse panic. *)
Theorem C10_length_overflow (ExtractDomain : string → string) :
  readString [xff; xff; xff; xff] = Panic SliceBounds
  ∧ readString16 [xff; xff; xff; x7f] = Panic IndexRange
  ∧ readString16 [x01; x00; x00; x80; x41; x00; x00; x00]
    = Done (("A"%string, None), [])
  ∧ parseSessionFile (H := insertionSortSlice) ExtractDomain [] []
      (header 1 ++ hugeURLLength) "chrome"
    = Panicked SliceBounds.
Proof. split_and!; vm_compute; reflexivity. Qed.

(** ** The string readers on lengths that do not overflow *)

Lemma divmod4 n : ∃ q r, n / 4 = q ∧ n mod 4 = r ∧ n = 4 * q + r ∧ r < 4.
Proof.
  exists (n / 4), (n mod 4).
  split_and!; [done | done | by apply N.div_mod | by apply N.mod_lt].
Qed.

Lemma align4_roundUp4 n : n + 3 < 2 ^ 32 → align4 n = roundUp4 n.
Proof.
  intros Hn. unfold align4, roundUp4, wrap32.
  assert (2 ^ 32 = 4294967296) as Hp by reflexivity. rewrite Hp in *.
  destruct (divmod4 n) as (q & r & _ & Er & ? & ?).
  destruct (divmod4 (n + 3)) as (q' & r' & -> & _ & ? & ?).
  rewrite Er. destruct (N.eqb_spec r 0) as [E|E].
  - lia.
  - rewrite N.mod_small by lia. lia.
Qed.

Lemma roundUp4_ge n : n ≤ roundUp4 n.
Proof.
  unfold roundUp4. destruct (divmod4 (n + 3)) as (q' & r' & -> & _ & ? & ?). lia.
Qed.

Lemma readString_wellformed r :
  (4 ≤ length r)%nat →
  u32 r + 3 < 2 ^ 32 →
  roundUp4 (u32 r) ≤ blen (drop 4 r) →
  readString r
  = Done ((string_of_bytes (take (N.to_nat (u32 r)) (drop 4 r)), None),
          drop (N.to_nat (roundUp4 (u32 r))) (drop 4 r)).
Proof.
  intros Hlen Hn Hpay. unfold readString, bind. rewrite readUint32_total.
  case_decide; [|lia]. rewrite align4_roundUp4 by done.
  pose proof (roundUp4_ge (u32 r)) as Hge.
  destruct (N.eqb_spec (roundUp4 (u32 r)) 0) as [E|E].
  - rewrite E, ReadFull_zero. assert (u32 r = 0) as -> by lia. done.
  - rewrite ReadFull_enough by lia.
    destruct (N.ltb_spec (roundUp4 (u32 r)) (u32 r)); [lia|].
    unfold ret. rewrite take_take, Nat.min_l by lia. done.
Qed.

Lemma readString_short r :
  (4 ≤ length r)%nat →
  u32 r + 3 < 2 ^ 32 →
  blen (drop 4 r) < roundUp4 (u32 r) →
  readString r = Done ((EmptyString, Some (shortRead (drop 4 r))), []).
Proof.
  intros Hlen Hn Hpay. unfold readString, bind. rewrite readUint32_total.
  case_decide; [|lia]. rewrite align4_roundUp4 by done.
  by rewrite ReadFull_short.
Qed.

Lemma codeUnits_enough n : ∀ b,
  2 * n ≤ blen b → codeUnits b n = Done (unitsLE (take (N.to_nat (2 * n)) b)).
Proof.
  induction n as [|n IH] using N.peano_ind; intros b Hb.
  - destruct b as [|lo [|hi b]]; done.
  - destruct b as [|lo [|hi b]]; unfold blen in Hb; simpl in Hb; [lia..|].
    simpl. destruct (N.eqb_spec (N.succ n) 0); [lia|].
    replace (N.succ n - 1) with n by lia.
    rewrite IH by (unfold blen; lia).
    replace (N.to_nat (2 * N.succ n)) with (S (S (N.to_nat (2 * n)))) by lia.
    simpl. unfold uint16LE, at_. simpl. by rewrite N.lor_comm.
Qed.

Lemma unitsLE_take_take (m k : nat) b :
  (k ≤ m)%nat → unitsLE (take k (take m b)) = unitsLE (take k b).
Proof. intros. by rewrite take_take, Nat.min_l by lia. Qed.

Lemma readString16_wellformed r :
  (4 ≤ length r)%nat →
  2 * u32 r + 2 < 2 ^ 32 →
  roundUp4 (2 * u32 r) ≤ blen (drop 4 r) →
  readString16 r
  = Done ((string_of_runes
             (utf16_Decode (unitsLE (take (N.to_nat (2 * u32 r)) (drop 4 r)))), None),
          drop (N.to_nat (roundUp4 (2 * u32 r))) (drop 4 r)).
Proof.
  intros Hlen Hn Hpay. unfold readString16, bind. rewrite readUint32_total.
  case_decide; [|lia].
  assert (wrap32 (u32 r * 2) = 2 * u32 r) as ->.
  { unfold wrap32. rewrite N.mod_small by lia. lia. }
  rewrite align4_roundUp4 by lia.
  pose proof (roundUp4_ge (2 * u32 r)) as Hge.
  replace (2 * u32 r / 2) with (u32 r) by (rewrite N.mul_comm, N.div_mul; lia).
  destruct (N.eqb_spec (roundUp4 (2 * u32 r)) 0) as [E|E].
  - rewrite E, ReadFull_zero. assert (u32 r = 0) as -> by lia. done.
  - rewrite ReadFull_enough by lia.
    rewrite codeUnits_enough.
    2:{ unfold blen. rewrite length_take. unfold blen in Hpay. lia. }
    unfold ret. rewrite unitsLE_take_take by lia. done.
Qed.

Lemma readString16_short r :
  (4 ≤ length r)%nat →
  2 * u32 r + 2 < 2 ^ 32 →
  blen (drop 4 r) < roundUp4 (2 * u32 r) →
  readString16 r = Done ((EmptyString, Some (shortRead (drop 4 r))), []).
Proof.
  intros Hlen Hn Hpay. unfold readString16, bind. rewrite readUint32_total.
  case_decide; [|lia].
  assert (wrap32 (u32 r * 2) = 2 * u32 r) as ->.
  { unfold wrap32. rewrite N.mod_small by lia. lia. }
  rewrite align4_roundUp4 by lia.
  by rewrite ReadFull_short.
Qed.

(** ** Session State Store: navigation history *)

Lemma upsertHistory_indices histIdx urlStr title history :
  NoDup (h_idx <$> history) →
  NoDup (h_idx <$> upsertHistory histIdx urlStr title history).
Proof.
  intros Hnd. unfold upsertHistory.
  destruct (list_find _ history) as [[i x]|] eqn:Hfind.
  - apply list_find_Some in Hfind as (Hi & Hx & _).
    rewrite list_fmap_insert. simpl.
    rewrite list_insert_id; [done|].
    by rewrite list_lookup_fmap, Hi, <- Hx.
  - apply list_find_None in Hfind.
    rewrite fmap_app. simpl. apply NoDup_app. split_and!; [done| |apply NoDup_singleton].
    intros k Hk ->%list_elem_of_singleton.
    apply list_elem_of_fmap in Hk as (x & Hx & Hin).
    rewrite Forall_forall in Hfind. by eapply Hfind.
Qed.

Lemma upsertHistory_elem histIdx urlStr title history :
  mkItem histIdx urlStr title ∈ upsertHistory histIdx urlStr title history.
Proof.
  unfold upsertHistory.
  destruct (list_find _ history) as [[i x]|] eqn:Hfind.
  - apply list_find_Some in Hfind as (Hi & _ & _).
    apply list_elem_of_lookup. exists i.
    apply list_lookup_insert_eq. by eapply lookup_lt_Some.
  - apply elem_of_app. right. by apply list_elem_of_singleton.
Qed.

Lemma filter_key_absent {A} (key : A → N) (k : N) (l : list A) :
  k ∉ key <$> l → filter (λ y, key y = k) l = [].
Proof.
  induction l as [|y l IH]; [done|].
  rewrite fmap_cons, not_elem_of_cons. intros [Hy Hl].
  rewrite filter_cons_False by done. by apply IH.
Qed.

Lemma filter_unique_key {A} (key : A → N) (k : N) (l : list A) (x : A) :
  NoDup (key <$> l) → x ∈ l → key x = k →
  filter (λ y, key y = k) l = [x].
Proof.
  induction l as [|y l IH]; intros Hnd Hin Hk; [by apply elem_of_nil in Hin|].
  rewrite fmap_cons in Hnd. apply NoDup_cons in Hnd as [Hy Hnd].
  apply elem_of_cons in Hin as [->|Hin].
  - rewrite filter_cons_True by done. f_equal.
    apply filter_key_absent. by rewrite <- Hk.
  - rewrite filter_cons_False; [by apply IH|].
    intros Hyk. apply Hy. rewrite Hyk, <- Hk. by apply list_elem_of_fmap_2.
Qed.

Lemma historyUnique_putTab id t p :
  historyUnique p → NoDup (h_idx <$> t_history t) → historyUnique (putTab id t p).
Proof.
  intros Hp Ht id' t'. unfold putTab. simpl. rewrite lookup_insert.
  case_decide; [by intros [= <-]|]. apply Hp.
Qed.

Lemma historyUnique_getTab id p :
  historyUnique p →
  historyUnique (getTab id p).2 ∧ NoDup (h_idx <$> t_history (getTab id p).1).
Proof.
  intros Hp. unfold getTab. destruct (tabs p !! id) as [t|] eqn:Ht; simpl.
  - split; [done|]. by eapply Hp.
  - split; [|constructor]. apply historyUnique_putTab; [done|constructor].
Qed.

Lemma tabs_getWindow id p : tabs (getWindow id p).2 = tabs p.
Proof. unfold getWindow. by destruct (windows p !! id). Qed.

Lemma tabs_getGroup high low p : tabs (getGroup high low p).2 = tabs p.
Proof. unfold getGroup. by destruct (groups p !! _). Qed.

Lemma historyUnique_tabs p q : tabs q = tabs p → historyUnique p → historyUnique q.
Proof. unfold historyUnique. by intros ->. Qed.

Lemma applyCommand_historyUnique c p :
  historyUnique p → historyUnique (applyCommand c p).
Proof.
  intros Hp.
  destruct c as [id histIdx urlStr title | id idx | high low name | id high low
                | win id | id | id | id index | id | id idx |]; simpl; try done.
  all: try match goal with
           | Hp : historyUnique ?p |- context [getTab ?id ?p] =>
               destruct (getTab id p) as [t p1] eqn:Hg;
               pose proof (historyUnique_getTab id p Hp) as [Hp1 Ht];
               rewrite Hg in Hp1, Ht; simpl in Hp1, Ht
           | Hp : historyUnique ?p |- context [getWindow ?id ?p] =>
               destruct (getWindow id p) as [w p1] eqn:Hg;
               pose proof (tabs_getWindow id p) as Htabs; rewrite Hg in Htabs;
               simpl in Htabs; eapply historyUnique_tabs; [|exact Hp]; done
           end.
  - apply historyUnique_putTab; [done|]. simpl. by apply upsertHistory_indices.
  - destruct (getGroup high low p) as [[key g] p1] eqn:Hg.
    pose proof (tabs_getGroup high low p) as Htabs. rewrite Hg in Htabs.
    eapply historyUnique_tabs; [|exact Hp]. done.
  - destruct (getGroup high low p1) as [[key g] p2] eqn:Hg2.
    pose proof (tabs_getGroup high low p1) as Htabs. rewrite Hg2 in Htabs.
    simpl in Htabs. apply historyUnique_putTab; [|done].
    eapply historyUnique_tabs; [|exact Hp1]. done.
  - by apply historyUnique_putTab.
  - by apply historyUnique_putTab.
  - by apply historyUnique_putTab.
  - by apply historyUnique_putTab.
Qed.

Lemma processCommand_historyUnique typ data p p' :
  processCommand typ data p = Done p' → historyUnique p → historyUnique p'.
Proof.
  unfold processCommand. destruct (decodeCommand typ data) as [[c r]|]; [|done].
  intros [= <-]. apply applyCommand_historyUnique.
Qed.

Lemma reachable_historyUnique p : reachable p → historyUnique p.
Proof.
  induction 1 as [|p typ data p' _ IH Hstep].
  - intros id t. unfold newSessionParser. simpl. by rewrite lookup_empty.
  - by eapply processCommand_historyUnique.
Qed.

Lemma applyCommand_UpdateTabNavigation id histIdx urlStr title p :
  historyUnique p →
  ∃ t, tabs (applyCommand (UpdateTabNavigation id histIdx urlStr title) p) !! id = Some t
       ∧ filter (λ h, h_idx h = histIdx) (t_history t) = [mkItem histIdx urlStr title].
Proof.
  intros Hp. simpl.
  destruct (getTab id p) as [t p1] eqn:Hg.
  pose proof (historyUnique_getTab id p Hp) as [Hp1 Ht].
  rewrite Hg in Hp1, Ht; simpl in Hp1, Ht.
  eexists. unfold putTab. simpl. rewrite lookup_insert_eq. split; [done|]. simpl.
  apply (filter_unique_key h_idx).
  - by apply upsertHistory_indices.
  - apply upsertHistory_elem.
  - done.
Qed.

(** C9: in every store a parse goes through, no tab holds two history
    items with the same index; and two UpdateTabNavigation commands with
    the same tab id and the same history index, processed one after the
    other, leave exactly one item at that index, with the url and title of
    the second command. *)
Theorem C9_history_index_overwrite p :
  reachable p →
  historyUnique p
  ∧ ∀ d1 d2 r1 r2 id histIdx url1 title1 url2 title2,
      decodeCommand kCommandUpdateTabNavigation d1
        = Done (UpdateTabNavigation id histIdx url1 title1, r1) →
      decodeCommand kCommandUpdateTabNavigation d2
        = Done (UpdateTabNavigation id histIdx url2 title2, r2) →
      ∃ p1 p2 t,
        processCommand kCommandUpdateTabNavigation d1 p = Done p1
        ∧ processCommand kCommandUpdateTabNavigation d2 p1 = Done p2
        ∧ historyUnique p2
        ∧ tabs p2 !! id = Some t
        ∧ filter (λ h, h_idx h = histIdx) (t_history t) = [mkItem histIdx url2 title2].
Proof.
  intros Hreach. pose proof (reachable_historyUnique p Hreach) as Hp.
  split; [done|].
  intros d1 d2 r1 r2 id histIdx url1 title1 url2 title2 Hd1 Hd2.
  unfold processCommand. rewrite Hd1. eexists _, _. rewrite Hd2.
  pose proof (applyCommand_historyUnique (UpdateTabNavigation id histIdx url1 title1) p Hp)
    as Hp1.
  destruct (applyCommand_UpdateTabNavigation id histIdx url2 title2 _ Hp1) as (t & Ht & Hf).
  exists t. split_and!; [done..| |done|done].
  by apply applyCommand_historyUnique.
Qed.

Lemma C9_history_index_overwrite_witness :
  reachable newSessionParser
  ∧ ∃ p1 p2 t,
      processCommand kCommandUpdateTabNavigation
        (le 4 0 ++ le 4 7 ++ le 4 3 ++ encString (ascii_bytes "http://a")
           ++ encString16 (ascii_units "A")) newSessionParser = Done p1
      ∧ processCommand kCommandUpdateTabNavigation
          (le 4 0 ++ le 4 7 ++ le 4 3 ++ encString (ascii_bytes "http://b")
             ++ encString16 (ascii_units "B")) p1 = Done p2
      ∧ historyUnique p2
      ∧ tabs p2 !! 7 = Some t
      ∧ filter (λ h, h_idx h = 3) (t_history t) = [mkItem 3 "http://b" "B"].
Proof.
  split; [constructor|].
  refine (proj2 (C9_history_index_overwrite newSessionParser reachable_new)
            _ _ [] [] 7 3 "http://a"%string "A"%string "http://b"%string "B"%string _ _);
    vm_compute; reflexivity.
Defined.

(** ** Commands with a short payload *)

Lemma u32_short r : (length r < 4)%nat → u32 r = 0.
Proof. intros. unfold u32, fieldOr0. case_decide; [lia|done]. Qed.

Lemma u64_short r : (length r < 8)%nat → u64 r = 0.
Proof. intros. unfold u64, fieldOr0. case_decide; [lia|done]. Qed.





(** A record whose command is processed without panic never stops the
    loop: the loop goes on with the next record. *)
Lemma readCommands_record typ payload p p' lo hi rest :
  typ < 256 → u16 lo hi = blen payload + 1 →
  processCommand typ payload p = Done p' →
  readCommands p (lo :: hi :: byte_of typ :: payload ++ rest) = readCommands p' rest.
Proof.
  intros Hty Hsz Hpc. rewrite readCommands_unfold. simpl.
  rewrite Hsz. destruct (N.eqb_spec (blen payload + 1) 0); [lia|].
  replace (blen payload + 1 - 1) with (blen payload) by lia.
  rewrite blen_app. destruct (N.ltb_spec (blen payload + blen rest) (blen payload)); [lia|].
  unfold blen. rewrite Nat2N.id, take_app_length, drop_app_length.
  assert (Byte.to_N (byte_of typ) = typ) as ->; [|by rewrite Hpc].
  unfold byte_of. destruct (Byte.of_N typ) as [b|] eqn:Hb.
  - by apply Byte.to_of_N.
  - apply Byte.of_N_None_iff in Hb. lia.
Qed.


(** ** Entry Assembler *)

Section Assembler.

Context `{SortSlice}.
Variable ExtractDomain : string → string.

Lemma emitTab_step p browserName w windowID act entries idx t :
  emitTab ExtractDomain p browserName w windowID act (entries, idx) t
  = if decide (kept t)
    then (entries ++ [entryOf ExtractDomain p browserName w windowID act idx t], idx + 1)
    else (entries, idx).
Proof.
  unfold emitTab, entryOf. destruct (decide (kept t)) as [[Hd Hu]|Hn].
  - rewrite Hd. destruct (resolveTab t) as [tabURL tabTitle]. simpl in Hu.
    by rewrite bool_decide_eq_false_2 by done.
  - unfold kept in Hn. destruct (t_deleted t); [done|].
    destruct (resolveTab t) as [tabURL tabTitle]. simpl in Hn.
    case_bool_decide; [done|]. exfalso. by apply Hn.
Qed.

Lemma fold_emitTab p browserName w windowID act ts : ∀ entries idx,
  fold_left (emitTab ExtractDomain p browserName w windowID act) ts (entries, idx)
  = (entries
       ++ imap (λ i t, entryOf ExtractDomain p browserName w windowID act (idx + N.of_nat i) t)
               (keptTabs ts),
     idx + N.of_nat (length (keptTabs ts))).
Proof.
  induction ts as [|t ts IH]; intros entries idx.
  { simpl. rewrite app_nil_r. f_equal. lia. }
  cbn [fold_left]. rewrite emitTab_step. unfold keptTabs.
  destruct (decide (kept t)) as [Hk|Hk].
  - rewrite filter_cons_True by done. rewrite IH. cbn [imap length].
    rewrite <- app_assoc. cbn [app]. f_equal; [|unfold keptTabs; lia].
    f_equal. rewrite N.add_0_r. f_equal.
    apply imap_ext. intros i x _. simpl. f_equal. lia.
  - rewrite filter_cons_False by done. apply IH.
Qed.

Lemma emitWindow_step p browserName entries windowID k :
  emitWindow ExtractDomain p browserName (entries, windowID) k
  = match windows p !! k with
    | Some w =>
        if w_deleted w then (entries, windowID)
        else (entries ++ windowEntries ExtractDomain p browserName w (windowID + 1)
                           (bool_decide (activeWindow p = Some k)),
              windowID + 1)
    | None => (entries, windowID)
    end.
Proof.
  unfold emitWindow. destruct (windows p !! k) as [w|]; [|done].
  destruct (w_deleted w); [done|].
  rewrite fold_emitTab. unfold windowEntries. do 2 f_equal.
Qed.

Lemma fold_emitWindow p browserName ks : ∀ entries windowID,
  fold_left (emitWindow ExtractDomain p browserName) ks (entries, windowID)
  = (entries
       ++ mjoin (imap (λ j kw, windowEntries ExtractDomain p browserName kw.2
                                 (windowID + N.of_nat j + 1)
                                 (bool_decide (activeWindow p = Some kw.1)))
                      (liveWindows p ks)),
     windowID + N.of_nat (length (liveWindows p ks))).
Proof.
  induction ks as [|k ks IH]; intros entries windowID.
  { simpl. rewrite app_nil_r. f_equal. unfold liveWindows. simpl. lia. }
  cbn [fold_left]. rewrite emitWindow_step. unfold liveWindows. cbn [omap list_omap].
  destruct (windows p !! k) as [w|] eqn:Hw; cbn [fmap option_fmap option_map]; [|apply IH].
  destruct (w_deleted w) eqn:Hdel.
  { rewrite filter_cons_False by (simpl; rewrite Hdel; done). apply IH. }
  rewrite filter_cons_True by done.
  rewrite IH. cbn [imap mjoin list_join length]. rewrite <- app_assoc.
  f_equal; [|unfold liveWindows; lia].
  f_equal. f_equal; [simpl; f_equal; lia|].
  f_equal. apply imap_ext. intros j kw _. simpl. f_equal. lia.
Qed.

(** The output of [buildTabEntries], window by window. *)
Lemma buildTabEntries_windows tabOrder winOrder p browserName :
  buildTabEntries ExtractDomain tabOrder winOrder p browserName
  = mjoin (imap (λ j kw, windowEntries ExtractDomain (assemble tabOrder p) browserName kw.2
                           (N.of_nat j + 1)
                           (bool_decide (activeWindow (assemble tabOrder p) = Some kw.1)))
                (liveWindows (assemble tabOrder p) winOrder)).
Proof.
  unfold buildTabEntries. rewrite fold_emitWindow. simpl.
  f_equal. 
Qed.

Lemma fmap_mjoin {A B} (f : A → B) (ls : list (list A)) :
  f <$> mjoin ls = mjoin (fmap f <$> ls).
Proof.
  induction ls as [|l ls IH]; [done|]. simpl. by rewrite fmap_app, IH.
Qed.

Lemma fmap_windowEntries p browserName w windowID act :
  (λ e, (URL e, Title e, WindowID e)) <$> windowEntries ExtractDomain p browserName w windowID act
  = (λ t, ((resolveTab t).1, (resolveTab t).2, windowID)) <$> keptTabs (w_tabs w).
Proof.
  unfold windowEntries. rewrite fmap_imap. rewrite <- imap_const.
  by apply imap_ext.
Qed.

Lemma windowEntries_URL p browserName w windowID act :
  Forall (λ e, URL e ≠ EmptyString) (windowEntries ExtractDomain p browserName w windowID act).
Proof.
  apply Forall_forall. intros e He. unfold windowEntries in He.
  apply elem_of_lookup_imap in He as (i & t & -> & Ht). simpl.
  apply list_elem_of_lookup_2 in Ht. unfold keptTabs in Ht.
  apply list_elem_of_filter in Ht as [[_ Hu] _]. done.
Qed.

(** *** The first two loops: tabs joined to their windows *)

Lemma window_with_tabs_id w : window_with_tabs (w_tabs w) w = w.
Proof. by destruct w. Qed.

Lemma associateTab_Some p id t :
  tabs p !! id = Some t →
  associateTab p id
  = mkParser (<[id := sortedHistory t]> (tabs p))
      (<[t_win t :=
           window_with_tabs
             (w_tabs (default (newWindow (t_win t)) (windows p !! t_win t))
                ++ [sortedHistory t])
             (default (newWindow (t_win t)) (windows p !! t_win t))]> (windows p))
      (groups p) (activeWindow p).
Proof.
  intros Ht. unfold associateTab. rewrite Ht. fold (sortedHistory t).
  change (t_win (sortedHistory t)) with (t_win t).
  unfold getWindow, putTab, putWindow. simpl.
  destruct (windows p !! t_win t) as [w|] eqn:Hw; simpl; [done|].
  by rewrite insert_insert_eq.
Qed.

Lemma associateTab_None p id : tabs p !! id = None → associateTab p id = p.
Proof. intros Ht. unfold associateTab. by rewrite Ht. Qed.

Lemma associateTab_tabs_ne p id id' :
  id ≠ id' → tabs (associateTab p id) !! id' = tabs p !! id'.
Proof.
  intros Hne. destruct (tabs p !! id) as [t|] eqn:Ht.
  - rewrite (associateTab_Some _ _ _ Ht). simpl.
    by rewrite lookup_insert_ne by done.
  - by rewrite (associateTab_None _ _ Ht).
Qed.

Lemma visitedTabs_associateTab p id tabOrder :
  id ∉ tabOrder →
  visitedTabs (associateTab p id) tabOrder = visitedTabs p tabOrder.
Proof.
  intros Hid. unfold visitedTabs.
  induction tabOrder as [|id' tabOrder IH]; [done|].
  apply not_elem_of_cons in Hid as [Hne Hid]. csimpl.
  by rewrite associateTab_tabs_ne, IH by done.
Qed.

Lemma fold_associateTab_windows tabOrder : ∀ p k,
  NoDup tabOrder →
  windows (fold_left associateTab tabOrder p) !! k
  = match windows p !! k with
    | Some w => Some (window_with_tabs (w_tabs w ++ tabsOfWindow p tabOrder k) w)
    | None =>
        if decide (tabsOfWindow p tabOrder k = []) then None
        else Some (window_with_tabs (tabsOfWindow p tabOrder k) (newWindow k))
    end.
Proof.
  induction tabOrder as [|id tabOrder IH]; intros p k Hnd.
  { simpl. unfold tabsOfWindow. simpl. destruct (windows p !! k) as [w|]; [|done].
    by rewrite app_nil_r, window_with_tabs_id. }
  apply NoDup_cons in Hnd as [Hid Hnd]. cbn [fold_left].
  rewrite IH by done. unfold tabsOfWindow.
  rewrite visitedTabs_associateTab by done.
  unfold visitedTabs at 3 4 5. csimpl.
  destruct (tabs p !! id) as [t|] eqn:Ht.
  2:{ by rewrite (associateTab_None _ _ Ht). }
  rewrite (associateTab_Some _ _ _ Ht). cbn [windows fmap list_fmap].
  fold (visitedTabs p tabOrder).
  set (rest := sortedHistory <$> visitedTabs p tabOrder).
  destruct (decide (t_win t = k)) as [<-|Hne].
  - rewrite lookup_insert_eq.
    rewrite (filter_cons_True _ (sortedHistory t)) by done.
    destruct (windows p !! t_win t) as [w|]; simpl.
    + by rewrite <- app_assoc.
    + done.
  - rewrite lookup_insert_ne by done.
    by rewrite (filter_cons_False _ (sortedHistory t)) by done.
Qed.

Lemma fold_associateTab_other tabOrder : ∀ p,
  groups (fold_left associateTab tabOrder p) = groups p
  ∧ activeWindow (fold_left associateTab tabOrder p) = activeWindow p.
Proof.
  induction tabOrder as [|id tabOrder IH]; intros p; [done|].
  cbn [fold_left]. destruct (IH (associateTab p id)) as [-> ->].
  destruct (tabs p !! id) as [t|] eqn:Ht.
  - by rewrite (associateTab_Some _ _ _ Ht).
  - by rewrite (associateTab_None _ _ Ht).
Qed.

Lemma assemble_activeWindow tabOrder p :
  activeWindow (assemble tabOrder p) = activeWindow p.
Proof. unfold assemble. simpl. apply fold_associateTab_other. Qed.

Lemma assemble_groups tabOrder p : groups (assemble tabOrder p) = groups p.
Proof. unfold assemble. simpl. apply fold_associateTab_other. Qed.

(** A window of the assembled store: its flags are those the commands
    set, and its tabs are the tabs of the store that point to it, sorted
    by their index in the window. *)
Lemma assemble_window tabOrder p k w :
  NoDup tabOrder → tablessWindows p →
  windows (assemble tabOrder p) !! k = Some w →
  w_tabs w = sortSlice (λ a b, t_idx a <? t_idx b) (tabsOfWindow p tabOrder k)
  ∧ w_deleted w = default false (w_deleted <$> windows p !! k)
  ∧ w_activeTabIdx w = default 0 (w_activeTabIdx <$> windows p !! k).
Proof.
  intros Hnd Htl. unfold assemble, sortWindowTabs. cbn [windows].
  rewrite lookup_fmap, fold_associateTab_windows by done.
  destruct (windows p !! k) as [w0|] eqn:Hw0; simpl.
  - intros [= <-]. simpl. by rewrite (Htl _ _ Hw0).
  - case_decide; [done|]. by intros [= <-].
Qed.

(** *** The live windows *)

Lemma liveWindows_cons p k winOrder :
  liveWindows p (k :: winOrder)
  = match windows p !! k with
    | Some w => if w_deleted w then liveWindows p winOrder
                else (k, w) :: liveWindows p winOrder
    | None => liveWindows p winOrder
    end.
Proof.
  unfold liveWindows. csimpl. destruct (windows p !! k) as [w|]; csimpl; [|done].
  destruct (w_deleted w) eqn:Hdel.
  - by rewrite filter_cons_False by (simpl; rewrite Hdel; done).
  - by rewrite filter_cons_True by done.
Qed.

Lemma elem_of_liveWindows p winOrder k w :
  (k, w) ∈ liveWindows p winOrder
  ↔ k ∈ winOrder ∧ windows p !! k = Some w ∧ w_deleted w = false.
Proof.
  unfold liveWindows. rewrite list_elem_of_filter, list_elem_of_omap. simpl. split.
  - intros [Hdel (k' & Hk' & Hlook)].
    destruct (windows p !! k') as [w'|] eqn:Hw'; simpl in Hlook; [|done].
    injection Hlook as -> ->. done.
  - intros (Hk & Hw & Hdel). split; [done|]. exists k. by rewrite Hw.
Qed.

Lemma liveWindows_NoDup p winOrder :
  NoDup winOrder → NoDup (liveWindows p winOrder).*1.
Proof.
  induction 1 as [|k winOrder Hk Hnd IH]; [constructor|].
  rewrite liveWindows_cons.
  destruct (windows p !! k) as [w|]; [|done].
  destruct (w_deleted w); [done|].
  rewrite fmap_cons. apply NoDup_cons. split; [|done]. simpl.
  intros Hin. apply list_elem_of_fmap in Hin as ([k' w'] & -> & Hin).
  apply elem_of_liveWindows in Hin as [? _]. done.
Qed.

(** *** The active flag *)

Lemma activeCount_app es1 es2 :
  activeCount (es1 ++ es2) = (activeCount es1 + activeCount es2)%nat.
Proof. unfold activeCount. by rewrite filter_app, length_app. Qed.

Lemma activeCount_imap_entryOf p browserName w windowID act ts : ∀ m,
  activeCount (imap (λ i t, entryOf ExtractDomain p browserName w windowID act (N.of_nat (m + i)) t) ts)
  = if decide (act = true ∧ N.of_nat m ≤ w_activeTabIdx w
               ∧ w_activeTabIdx w < N.of_nat (m + length ts))
    then 1%nat else 0%nat.
Proof.
  induction ts as [|t ts IH]; intros m.
  { simpl. rewrite decide_False; [done|lia]. }
  rewrite imap_cons. change (?x :: ?l) with ([x] ++ l) at 1.
  rewrite activeCount_app.
  rewrite (imap_ext _ (λ i t, entryOf ExtractDomain p browserName w windowID act (N.of_nat (S m + i)) t))
    by (intros i x _; simpl; do 2 f_equal; lia).
  rewrite IH. unfold activeCount. simpl length at 2.
  rewrite Nat.add_0_r.
  destruct (decide (act = true ∧ N.of_nat m = w_activeTabIdx w)) as [[-> Heq]|Hne].
  - rewrite filter_cons_True by (simpl; by rewrite bool_decide_eq_true_2).
    simpl. rewrite decide_False by lia. rewrite decide_True by lia. done.
  - rewrite filter_cons_False.
    2:{ simpl. destruct act; [|done]. simpl.
        rewrite bool_decide_eq_false_2; [done|]. intros ?. by apply Hne. }
    simpl. apply decide_ext.
    destruct act; [|split; intros [? _]; done].
    assert (N.of_nat m ≠ w_activeTabIdx w) by (intros ?; by apply Hne).
    split; intros (? & ? & ?); split_and!; [done|lia..|done|lia|lia].
Qed.

Lemma activeCount_windowEntries p browserName w windowID act :
  activeCount (windowEntries ExtractDomain p browserName w windowID act)
  = if decide (act = true
               ∧ w_activeTabIdx w < N.of_nat (length (keptTabs (w_tabs w))))
    then 1%nat else 0%nat.
Proof.
  unfold windowEntries.
  pose proof (activeCount_imap_entryOf p browserName w windowID act
                (keptTabs (w_tabs w)) 0) as Hc.
  simpl in Hc. rewrite Hc. apply decide_ext.
  split; [intros (? & ? & ?); done | intros [? ?]; split_and!; [done|lia|done]].
Qed.

Lemma activeCount_windows p browserName (l : list (N * sessionWindow)) : ∀ n,
  activeCount
    (mjoin (imap (λ j kw, windowEntries ExtractDomain p browserName kw.2 (N.of_nat (n + j) + 1)
                            (bool_decide (activeWindow p = Some kw.1))) l))
  = sum_list_with (λ kw, if decide (emitsActive p kw) then 1%nat else 0%nat) l.
Proof.
  induction l as [|kw l IH]; intros n; [done|].
  rewrite imap_cons. cbn [mjoin list_join sum_list_with].
  rewrite activeCount_app, activeCount_windowEntries.
  rewrite (imap_ext _ (λ j kw, windowEntries ExtractDomain p browserName kw.2 (N.of_nat (S n + j) + 1)
                                 (bool_decide (activeWindow p = Some kw.1))))
    by (intros j x _; simpl; do 3 f_equal; lia).
  rewrite IH. f_equal.
  apply decide_ext. unfold emitsActive. by rewrite bool_decide_eq_true.
Qed.

Lemma sum_emitsActive_le p (l : list (N * sessionWindow)) :
  NoDup l.*1 →
  (sum_list_with (λ kw, if decide (emitsActive p kw) then 1 else 0) l ≤ 1)%nat.
Proof.
  induction l as [|kw l IH]; [simpl; lia|].
  rewrite fmap_cons. intros [Hk Hnd]%NoDup_cons. simpl.
  specialize (IH Hnd).
  destruct (decide (emitsActive p kw)) as [[Ha _]|]; [|lia].
  assert (sum_list_with (λ kw, if decide (emitsActive p kw) then 1 else 0) l = 0)%nat
    as ->; [|lia].
  clear IH Hnd. induction l as [|kw' l IH]; [done|]. simpl.
  rewrite fmap_cons, not_elem_of_cons in Hk. destruct Hk as [Hne Hk].
  rewrite IH by done.
  rewrite decide_False; [done|]. intros [Ha' _]. congruence.
Qed.

Lemma sum_emitsActive_pos p (l : list (N * sessionWindow)) :
  (0 < sum_list_with (λ kw, if decide (emitsActive p kw) then 1 else 0) l)%nat
  ↔ ∃ kw, kw ∈ l ∧ emitsActive p kw.
Proof.
  split.
  - induction l as [|kw l IH]; simpl; [lia|].
    destruct (decide (emitsActive p kw)) as [He|].
    + intros _. exists kw. split; [left|done].
    + intros Hpos. destruct IH as (kw' & ? & ?); [lia|].
      exists kw'. split; [by right|done].
  - intros (kw & Hin & He).
    pose proof (sum_list_with_in kw
                  (λ kw, if decide (emitsActive p kw) then 1 else 0)%nat l Hin) as Hle.
    simpl in Hle. rewrite decide_True in Hle by done. lia.
Qed.

(** C6 (amended): at most one emitted entry has active = true; such an
    entry exists only if a window was designated active, and it is then
    the entry of the tab at emitted position activeTabIdx of that window;
    there is exactly one such entry if and only if the designated window
    is visited, is not deleted and emits more than activeTabIdx entries
    (and none otherwise, although a window is marked active). *)
Theorem C6_at_most_one_active tabOrder winOrder p browserName :
  NoDup winOrder →
  let p' := assemble tabOrder p in
  let es := buildTabEntries ExtractDomain tabOrder winOrder p browserName in
  (activeCount es ≤ 1)%nat
  ∧ (∀ e, e ∈ es → Active e = true →
       ∃ k w j i t,
         activeWindow p = Some k
         ∧ liveWindows p' winOrder !! j = Some (k, w)
         ∧ keptTabs (w_tabs w) !! i = Some t
         ∧ N.of_nat i = w_activeTabIdx w
         ∧ e = entryOf ExtractDomain p' browserName w (N.of_nat j + 1) true (N.of_nat i) t)
  ∧ (activeCount es = 1%nat
     ↔ ∃ k w, activeWindow p = Some k ∧ (k, w) ∈ liveWindows p' winOrder
              ∧ w_activeTabIdx w < N.of_nat (length (keptTabs (w_tabs w)))).
Proof.
  intros Hnd p' es.
  assert (activeCount es
          = sum_list_with (λ kw, if decide (emitsActive p' kw) then 1%nat else 0%nat)
              (liveWindows p' winOrder)) as Hcount.
  { unfold es. rewrite buildTabEntries_windows. fold p'.
    apply (activeCount_windows p' browserName (liveWindows p' winOrder) 0). }
  pose proof (sum_emitsActive_le p' _ (liveWindows_NoDup p' winOrder Hnd)) as Hle.
  assert (activeWindow p' = activeWindow p) as Haw by apply assemble_activeWindow.
  split_and!.
  - lia.
  - intros e He Hact. unfold es in He. rewrite buildTabEntries_windows in He. fold p' in He.
    apply list_elem_of_join in He as (es' & He & Hes').
    apply elem_of_lookup_imap in Hes' as (j & [k w] & -> & Hj).
    unfold windowEntries in He. simpl in He.
    apply elem_of_lookup_imap in He as (i & t & -> & Hi).
    simpl in Hact. apply andb_true_iff in Hact as [Hk Hpos].
    apply bool_decide_eq_true in Hk, Hpos.
    simpl in Hk.
    exists k, w, j, i, t. split_and!; [by rewrite <- Haw|done..|].
    simpl. by rewrite Hk, bool_decide_eq_true_2.
  - rewrite Hcount. split.
    + intros Hone.
      destruct (proj1 (sum_emitsActive_pos p' (liveWindows p' winOrder)))
        as ([k w] & Hin & Ha & Hidx); [lia|].
      simpl in Ha, Hidx. exists k, w. split_and!; [by rewrite <- Haw|done..].
    + intros (k & w & Ha & Hin & Hidx).
      assert (0 < sum_list_with (λ kw, if decide (emitsActive p' kw) then 1 else 0)
                    (liveWindows p' winOrder))%nat; [|lia].
      apply sum_emitsActive_pos. exists (k, w). split; [done|].
      split; [|done]. simpl. etrans; [apply assemble_activeWindow|done].
Qed.

(** C8 (amended): the output is, window by window, the list of the tabs
    that are not deleted and whose resolved URL is not empty, of the
    windows that are not deleted: a deleted tab, a tab with an empty
    resolved URL and a deleted window have no entry.  The windowId of an
    entry is 1 plus the number of windows visited before its window that
    are not deleted, so a deleted window takes no identifier; a window
    that is not deleted takes one whether or not it emits an entry, and
    the identifiers found in the output are those of the non-deleted
    windows that emit at least one entry.  The windows and tabs are
    those of the store: a window that emits was not closed by a command,
    and its tabs are the tabs of the store that point to it. *)
Theorem C8_deleted_and_empty_filtered tabOrder winOrder p browserName :
  NoDup tabOrder → tablessWindows p →
  let p' := assemble tabOrder p in
  let live := filter (λ kw, w_deleted kw.2 = false)
                (omap (λ k, (λ w, (k, w)) <$> windows p' !! k) winOrder) in
  (λ e, (URL e, Title e, WindowID e))
    <$> buildTabEntries ExtractDomain tabOrder winOrder p browserName
  = mjoin (imap (λ j kw, (λ t, ((resolveTab t).1, (resolveTab t).2, N.of_nat j + 1))
                           <$> filter kept (w_tabs kw.2)) live)
  ∧ Forall (λ e, URL e ≠ EmptyString)
      (buildTabEntries ExtractDomain tabOrder winOrder p browserName)
  ∧ (∀ k w, (k, w) ∈ live →
       (∀ w0, windows p !! k = Some w0 → w_deleted w0 = false)
       ∧ w_tabs w ≡ₚ tabsOfWindow p tabOrder k
       ∧ ∀ t, t ∈ w_tabs w →
           ∃ id t0, tabs p !! id = Some t0 ∧ t_win t0 = k
                    ∧ t = sortedHistory t0 ∧ t_deleted t = t_deleted t0)
  ∧ (∀ n, n ∈ WindowID <$> buildTabEntries ExtractDomain tabOrder winOrder p browserName
          ↔ ∃ j kw, live !! j = Some kw ∧ n = N.of_nat j + 1
                    ∧ filter kept (w_tabs kw.2) ≠ []).
Proof.
  intros Hnd Htl p' live. rewrite buildTabEntries_windows. fold p'.
  fold (liveWindows p' winOrder) in live. split_and!.
  - rewrite fmap_mjoin, fmap_imap. f_equal.
    apply imap_ext. intros j kw _. simpl. apply fmap_windowEntries.
  - apply Forall_join, Forall_forall. intros es Hes.
    apply elem_of_lookup_imap in Hes as (j & kw & -> & _).
    by apply windowEntries_URL.
  - intros k w Hin. apply elem_of_liveWindows in Hin as (_ & Hw & Hdel).
    destruct (assemble_window _ _ _ _ Hnd Htl Hw) as (Htabs & Hd & _).
    assert (w_tabs w ≡ₚ tabsOfWindow p tabOrder k) as Hperm.
    { rewrite Htabs. apply sortSlice_perm. }
    split_and!; [|done|].
    + intros w0 Hw0. rewrite Hw0 in Hd. simpl in Hd. congruence.
    + intros t Ht. rewrite Hperm in Ht. unfold tabsOfWindow in Ht.
      apply list_elem_of_filter in Ht as [Hwin Ht].
      apply list_elem_of_fmap in Ht as (t0 & -> & Ht0).
      unfold visitedTabs in Ht0. apply list_elem_of_omap in Ht0 as (id & _ & Hid).
      by exists id, t0.
  - intros n. rewrite list_elem_of_fmap. split.
    + intros (e & -> & He). apply list_elem_of_join in He as (l & He & Hl).
      apply elem_of_lookup_imap in Hl as (j & kw & -> & Hj).
      apply elem_of_lookup_imap in He as (i & t & -> & Hi).
      exists j, kw. split_and!; [done..|].
      intros E. unfold keptTabs in Hi. rewrite E in Hi. done.
    + intros (j & kw & Hj & -> & Hne).
      destruct (filter kept (w_tabs kw.2)) as [|t ts] eqn:E; [done|].
      eexists. split; [|apply list_elem_of_join; eexists; split;
                         [|apply elem_of_lookup_imap; by exists j, kw]].
      2:{ unfold windowEntries, keptTabs. rewrite E. left. }
      done.
Qed.

End Assembler.

(** ** Stores reached by a parse hold no window tabs yet *)

Lemma tablessWindows_putWindow id w p :
  tablessWindows p → w_tabs w = [] → tablessWindows (putWindow id w p).
Proof.
  intros Hp Hw k w'. unfold putWindow. simpl. rewrite lookup_insert.
  case_decide; [by intros [= <-]|]. apply Hp.
Qed.

Lemma tablessWindows_getWindow id p :
  tablessWindows p →
  tablessWindows (getWindow id p).2 ∧ w_tabs (getWindow id p).1 = [].
Proof.
  intros Hp. unfold getWindow. destruct (windows p !! id) as [w|] eqn:Hw; simpl.
  - split; [done|]. by eapply Hp.
  - split; [|done]. by apply tablessWindows_putWindow.
Qed.

Lemma tablessWindows_windows p q :
  windows q = windows p → tablessWindows p → tablessWindows q.
Proof. unfold tablessWindows. by intros ->. Qed.

Lemma windows_getTab id p : windows (getTab id p).2 = windows p.
Proof. unfold getTab. by destruct (tabs p !! id). Qed.

Lemma windows_getGroup high low p : windows (getGroup high low p).2 = windows p.
Proof. unfold getGroup. by destruct (groups p !! _). Qed.

Lemma applyCommand_tablessWindows c p :
  tablessWindows p → tablessWindows (applyCommand c p).
Proof.
  intros Hp.
  destruct c as [id histIdx urlStr title | id idx | high low name | id high low
                | win id | id | id | id index | id | id idx |]; simpl; try done.
  all: try match goal with
           | Hp : tablessWindows ?p |- context [getWindow ?id ?p] =>
               destruct (getWindow id p) as [w p1] eqn:Hg;
               pose proof (tablessWindows_getWindow id p Hp) as [Hp1 Hw];
               rewrite Hg in Hp1, Hw; simpl in Hp1, Hw
           | Hp : tablessWindows ?p |- context [getTab ?id ?p] =>
               destruct (getTab id p) as [t p1] eqn:Hg;
               pose proof (windows_getTab id p) as Hwin; rewrite Hg in Hwin;
               simpl in Hwin
           end.
  all: try (by apply tablessWindows_putWindow).
  all: try (eapply tablessWindows_windows; [|exact Hp]; done).
  - destruct (getGroup high low p) as [[key g] p1] eqn:Hg.
    pose proof (windows_getGroup high low p) as Hwin. rewrite Hg in Hwin.
    eapply tablessWindows_windows; [|exact Hp]. done.
  - destruct (getGroup high low p1) as [[key g] p2] eqn:Hg2.
    pose proof (windows_getGroup high low p1) as Hwin2. rewrite Hg2 in Hwin2.
    simpl in Hwin2. eapply tablessWindows_windows; [|exact Hp]. simpl. congruence.
  - eapply tablessWindows_windows; [|exact Hp1]. done.
Qed.

Lemma reachable_tablessWindows p : reachable p → tablessWindows p.
Proof.
  induction 1 as [|p typ data p' _ IH Hstep].
  - intros k w. unfold newSessionParser. simpl. by rewrite lookup_empty.
  - unfold processCommand in Hstep.
    destruct (decodeCommand typ data) as [[c r]|]; [|done].
    injection Hstep as <-. by apply applyCommand_tablessWindows.
Qed.

Lemma readCommands_reachable n : ∀ fh p p',
  (length fh ≤ n)%nat → reachable p → readCommands p fh = Returned p' → reachable p'.
Proof.
  induction n as [|n IH]; intros fh p p' Hn Hp Hret;
    rewrite readCommands_unfold in Hret.
  - destruct fh; [|simpl in Hn; lia]. simpl in Hret. by injection Hret as <-.
  - destruct fh as [|lo [|hi [|typ rest]]]; simpl in Hret; try discriminate.
    + by injection Hret as <-.
    + destruct (u16 lo hi =? 0); [done|].
      destruct (_ <? _); [done|].
      destruct (processCommand _ _ p) as [p1|] eqn:Hpc; [|done].
      eapply IH; [|by eapply reachable_step|exact Hret].
      rewrite length_drop. simpl in Hn. lia.
Qed.

(** ** Resolution of the URL and title of a tab *)

Lemma last_greatest (l : list historyItem) x :
  StronglySorted (λ a b, h_idx a ≤ h_idx b) l → last l = Some x →
  ∀ h, h ∈ l → h_idx h ≤ h_idx x.
Proof.
  intros Hs Hlast h Hin.
  apply last_Some in Hlast as [l' ->].
  apply StronglySorted_app in Hs as (Hle & _ & _).
  apply elem_of_app in Hin as [Hin|Hin%list_elem_of_singleton].
  - apply Hle; [done|]. by apply list_elem_of_singleton.
  - subst. lia.
Qed.

(** What [resolveTab] returns on a tab whose history is sorted and holds
    each index once: nothing for an empty history; the item at
    currentHistoryIdx when it exists and its URL is not empty; the last
    item, which has the greatest index, when no item has the index
    currentHistoryIdx. *)
Lemma resolveTab_cases (t : sessionTab) :
  StronglySorted (λ a b, h_idx a ≤ h_idx b) (t_history t) →
  NoDup (h_idx <$> t_history t) →
  (t_history t = [] → resolveTab t = (EmptyString, EmptyString))
  ∧ (∀ h, h ∈ t_history t → h_idx h = t_currentHistoryIdx t →
          h_url h ≠ EmptyString → resolveTab t = (h_url h, h_title h))
  ∧ ((∀ h, h ∈ t_history t → h_idx h ≠ t_currentHistoryIdx t) →
     t_history t ≠ [] →
     ∃ l, last (t_history t) = Some l
          ∧ resolveTab t = (h_url l, h_title l)
          ∧ ∀ h, h ∈ t_history t → h_idx h ≤ h_idx l).
Proof.
  intros Hsorted Hnd. unfold resolveTab, currentItem. split_and!.
  - intros ->. done.
  - intros h Hin Hidx Hurl.
    destruct (list_find _ (t_history t)) as [[i x]|] eqn:Hfind.
    + apply list_find_Some in Hfind as (Hi & Hx & _).
      assert (x = h) as ->.
      { apply list_elem_of_lookup_2 in Hi.
        pose proof (filter_unique_key h_idx (h_idx h) _ x Hnd Hi) as Hfx.
        pose proof (filter_unique_key h_idx (h_idx h) _ h Hnd Hin eq_refl) as Hfh.
        rewrite Hfx in Hfh by congruence. by injection Hfh. }
      by rewrite bool_decide_eq_false_2.
    + apply list_find_None in Hfind. rewrite Forall_forall in Hfind.
      by destruct (Hfind h Hin).
  - intros Hnone Hne.
    destruct (list_find _ (t_history t)) as [[i x]|] eqn:Hfind.
    { apply list_find_Some in Hfind as (Hi & Hx & _).
      apply list_elem_of_lookup_2 in Hi. by destruct (Hnone x Hi). }
    destruct (last (t_history t)) as [l|] eqn:Hlast.
    2:{ apply last_None in Hlast. done. }
    exists l. split; [done|]. split.
    + rewrite bool_decide_eq_true_2 by done.
      rewrite bool_decide_eq_true_2; [done|].
      destruct (t_history t); [done|simpl; lia].
    + by apply last_greatest.
Qed.

(** ** Witnesses and counterexamples on concrete stores *)

Lemma storeOf_tablessWindows cs : tablessWindows (storeOf cs).
Proof.
  unfold storeOf.
  assert (tablessWindows newSessionParser) as Hnew.
  { intros k w. unfold newSessionParser. simpl. by rewrite lookup_empty. }
  revert Hnew. generalize newSessionParser.
  induction cs as [|c cs IH]; intros p Hp; [done|].
  simpl. apply IH. by apply applyCommand_tablessWindows.
Qed.

(** C6, as stated, fails: a window is designated active, it is not
    deleted and it emits an entry, and no entry is marked active, because
    the active tab index of the window is 5. *)
Lemma C6_active_window_without_active_entry :
  ∃ p w,
    readCommands newSessionParser (flat_map encode activeIndexOutOfRange) = Returned p
    ∧ activeWindow p = Some 1
    ∧ windows p !! 1 = Some w ∧ w_deleted w = false
    ∧ Active <$> buildTabEntries (H := insertionSortSlice) (λ _, EmptyString)
                   [1] [1] p "chrome"
      = [false].
Proof.
  eexists _, _. split; [vm_compute; reflexivity|].
  split; [vm_compute; reflexivity|].
  split; [vm_compute; reflexivity|].
  split; vm_compute; reflexivity.
Qed.

(** C8, as stated, fails: window 1 is not deleted and holds no tab,
    window 2 holds one; with the windows visited in the order 1, 2 the
    only windowId in the output is 2, so the identifiers of the output
    do not start at 1. *)
Lemma C8_window_ids_skip_empty_window :
  ∃ p,
    readCommands newSessionParser (flat_map encode emptyWindowFirst) = Returned p
    ∧ w_deleted <$> windows p !! 1 = Some false
    ∧ (λ e, (URL e, WindowID e))
        <$> buildTabEntries (H := insertionSortSlice) (λ _, EmptyString)
              [2] [1; 2] p "chrome"
      = [("http://b"%string, 2)].
Proof.
  eexists. split; [vm_compute; reflexivity|].
  split; vm_compute; reflexivity.
Qed.

Lemma C6_at_most_one_active_witness :
  NoDup [1; 2]
  ∧ (activeCount
       (buildTabEntries (H := insertionSortSlice) (λ _, EmptyString) [1%N] [1%N; 2%N]
          (storeOf activeIndexOutOfRange) "chrome") ≤ 1)%nat.
Proof.
  assert (NoDup [1; 2]) as Hnd by compute_done.
  split; [done|].
  exact (proj1 (@C6_at_most_one_active insertionSortSlice (λ _, EmptyString)
                  [1] [1; 2] (storeOf activeIndexOutOfRange) "chrome"%string Hnd)).
Defined.

Lemma C8_deleted_and_empty_filtered_witness :
  NoDup [1; 2]
  ∧ tablessWindows (storeOf twoWindows)
  ∧ Forall (λ e, URL e ≠ EmptyString)
      (buildTabEntries (H := insertionSortSlice) (λ _, EmptyString) [1; 2] [2; 1]
         (storeOf twoWindows) "chrome").
Proof.
  assert (NoDup [1; 2]) as Hnd by compute_done.
  pose proof (storeOf_tablessWindows twoWindows) as Htl.
  split_and!; [done..|].
  exact (proj1 (proj2 (@C8_deleted_and_empty_filtered insertionSortSlice (λ _, EmptyString)
                         [1; 2] [2; 1] (storeOf twoWindows) "chrome"%string Hnd Htl))).
Defined.

(** ** Integer readers and the little-endian layout *)

Lemma lor_add_low x a c m k :
  m = 2 ^ k → x = c * m → a < m → N.lor x a = x + a.
Proof.
  intros -> -> Ha.
  assert (N.land (c * 2 ^ k) a = 0) as Hland.
  { apply N.bits_inj. intros i. rewrite N.land_spec, N.bits_0.
    destruct (N.lt_ge_cases i k) as [Hlt|Hge].
    - by rewrite N.mul_pow2_bits_low.
    - destruct (N.eq_dec a 0) as [->|Hne]; [by rewrite N.bits_0, andb_false_r|].
      rewrite (N.bits_above_log2 a i), andb_false_r; [done|].
      apply N.lt_le_trans with k; [|done]. apply N.log2_lt_pow2; lia. }
  by rewrite <- N.lxor_lor, <- N.add_nocarry_lxor.
Qed.

Lemma to_N_byte_of m : m < 256 → Byte.to_N (byte_of m) = m.
Proof.
  intros Hm. unfold byte_of. destruct (Byte.of_N m) as [b|] eqn:Hb.
  - by apply Byte.to_of_N.
  - apply Byte.of_N_None_iff in Hb. lia.
Qed.

Lemma to_N_lt b : Byte.to_N b < 256.
Proof. pose proof (Byte.to_N_bounded b). lia. Qed.

Lemma length_le w : ∀ n, length (le w n) = w.
Proof. induction w as [|w IH]; intros n; simpl; [done|]. by rewrite IH. Qed.

Lemma leValue_lt b : leValue b < 256 ^ N.of_nat (length b).
Proof.
  induction b as [|x b IH]; [simpl; lia|].
  cbn [leValue foldr length]. fold (leValue b).
  rewrite Nat2N.inj_succ, N.pow_succ_r'. pose proof (to_N_lt x). lia.
Qed.

Lemma leValue_le w : ∀ n, n < 256 ^ N.of_nat w → leValue (le w n) = n.
Proof.
  induction w as [|w IH]; intros n Hn.
  { simpl in *. lia. }
  rewrite Nat2N.inj_succ, N.pow_succ_r' in Hn.
  cbn [le leValue foldr]. fold (leValue (le w (n / 256))).
  assert (n mod 256 < 256) by (apply N.mod_lt; lia).
  rewrite to_N_byte_of by done.
  rewrite IH.
  - rewrite N.add_comm. symmetry. apply N.div_mod. lia.
  - apply N.Div0.div_lt_upper_bound. lia.
Qed.

Ltac pow2_literals :=
  rewrite ?N.shiftl_mul_pow2;
  change (2 ^ 8) with 256; change (2 ^ 16) with 65536;
  change (2 ^ 24) with 16777216; change (2 ^ 32) with 4294967296;
  change (2 ^ 40) with 1099511627776; change (2 ^ 48) with 281474976710656;
  change (2 ^ 56) with 72057594037927936.

Lemma uint16LE_leValue b0 b1 : uint16LE [b0; b1] = leValue [b0; b1].
Proof.
  unfold uint16LE, at_, leValue. simpl nth. cbn [foldr].
  pose proof (to_N_lt b0). pose proof (to_N_lt b1).
  rewrite N.lor_comm. pow2_literals.
  rewrite (lor_add_low _ _ (Byte.to_N b1) 256 8) by (reflexivity || lia). lia.
Qed.

Lemma uint32LE_leValue b0 b1 b2 b3 :
  uint32LE [b0; b1; b2; b3] = leValue [b0; b1; b2; b3].
Proof.
  unfold uint32LE, at_, leValue. simpl nth. cbn [foldr].
  pose proof (to_N_lt b0).
  pose proof (to_N_lt b1).
  pose proof (to_N_lt b2).
  pose proof (to_N_lt b3).
  pow2_literals.
  rewrite (lor_add_low _ (Byte.to_N b2 * 65536) (Byte.to_N b3) 16777216 24) by (reflexivity || lia).
  rewrite (lor_add_low _ (Byte.to_N b1 * 256) (Byte.to_N b3 * 256 + Byte.to_N b2) 65536 16) by (reflexivity || lia).
  rewrite (lor_add_low _ (Byte.to_N b0) (Byte.to_N b3 * 65536 + Byte.to_N b2 * 256 + Byte.to_N b1) 256 8) by (reflexivity || lia).
  lia.
Qed.

Lemma uint64LE_leValue b0 b1 b2 b3 b4 b5 b6 b7 :
  uint64LE [b0; b1; b2; b3; b4; b5; b6; b7] = leValue [b0; b1; b2; b3; b4; b5; b6; b7].
Proof.
  unfold uint64LE, at_, leValue. simpl nth. cbn [foldr].
  pose proof (to_N_lt b0).
  pose proof (to_N_lt b1).
  pose proof (to_N_lt b2).
  pose proof (to_N_lt b3).
  pose proof (to_N_lt b4).
  pose proof (to_N_lt b5).
  pose proof (to_N_lt b6).
  pose proof (to_N_lt b7).
  pow2_literals.
  rewrite (lor_add_low _ (Byte.to_N b6 * 281474976710656) (Byte.to_N b7) 72057594037927936 56) by (reflexivity || lia).
  rewrite (lor_add_low _ (Byte.to_N b5 * 1099511627776) (Byte.to_N b7 * 256 + Byte.to_N b6) 281474976710656 48) by (reflexivity || lia).
  rewrite (lor_add_low _ (Byte.to_N b4 * 4294967296) (Byte.to_N b7 * 65536 + Byte.to_N b6 * 256 + Byte.to_N b5) 1099511627776 40) by (reflexivity || lia).
  rewrite (lor_add_low _ (Byte.to_N b3 * 16777216) (Byte.to_N b7 * 16777216 + Byte.to_N b6 * 65536 + Byte.to_N b5 * 256 + Byte.to_N b4) 4294967296 32) by (reflexivity || lia).
  rewrite (lor_add_low _ (Byte.to_N b2 * 65536) (Byte.to_N b7 * 4294967296 + Byte.to_N b6 * 16777216 + Byte.to_N b5 * 65536 + Byte.to_N b4 * 256 + Byte.to_N b3) 16777216 24) by (reflexivity || lia).
  rewrite (lor_add_low _ (Byte.to_N b1 * 256) (Byte.to_N b7 * 1099511627776 + Byte.to_N b6 * 4294967296 + Byte.to_N b5 * 16777216 + Byte.to_N b4 * 65536 + Byte.to_N b3 * 256 + Byte.to_N b2) 65536 16) by (reflexivity || lia).
  rewrite (lor_add_low _ (Byte.to_N b0) (Byte.to_N b7 * 281474976710656 + Byte.to_N b6 * 1099511627776 + Byte.to_N b5 * 4294967296 + Byte.to_N b4 * 16777216 + Byte.to_N b3 * 65536 + Byte.to_N b2 * 256 + Byte.to_N b1) 256 8) by (reflexivity || lia).
  lia.
Qed.

Lemma readUint8_le n r : n < 2 ^ 8 → readUint8 (le 1 n ++ r) = Done ((n, None), r).
Proof.
  intros Hn. change (2 ^ 8) with 256 in Hn. simpl. rewrite readUint8_cons.
  rewrite N.mod_small by done. by rewrite to_N_byte_of.
Qed.

Lemma readUint16_le n r : n < 2 ^ 16 → readUint16 (le 2 n ++ r) = Done ((n, None), r).
Proof.
  intros Hn. cbn [le app]. rewrite readUint16_cons. unfold u16.
  rewrite uint16LE_leValue.
  pose proof (leValue_le 2 n Hn) as E. cbn [le] in E. by rewrite E.
Qed.

Lemma u32_le n r : n < 2 ^ 32 → u32 (le 4 n ++ r) = n.
Proof.
  intros Hn. unfold u32, fieldOr0.
  rewrite decide_True by (rewrite length_app, length_le; lia).
  rewrite take_app_length' by (by rewrite length_le).
  cbn [le]. rewrite uint32LE_leValue. by apply (leValue_le 4 n).
Qed.

Lemma u64_le n r : n < 2 ^ 64 → u64 (le 8 n ++ r) = n.
Proof.
  intros Hn. unfold u64, fieldOr0.
  rewrite decide_True by (rewrite length_app, length_le; lia).
  rewrite take_app_length' by (by rewrite length_le).
  cbn [le]. rewrite uint64LE_leValue. by apply (leValue_le 8 n).
Qed.

Lemma readUint32_le n r : n < 2 ^ 32 → readUint32 (le 4 n ++ r) = Done ((n, None), r).
Proof.
  intros Hn. rewrite readUint32_total, u32_le by done.
  rewrite decide_True by (rewrite length_app, length_le; lia).
  by rewrite drop_app_length' by (by rewrite length_le).
Qed.

Lemma readUint64_le n r : n < 2 ^ 64 → readUint64 (le 8 n ++ r) = Done ((n, None), r).
Proof.
  intros Hn. rewrite readUint64_total, u64_le by done.
  rewrite decide_True by (rewrite length_app, length_le; lia).
  by rewrite drop_app_length' by (by rewrite length_le).
Qed.

Lemma u32_lt r : u32 r < 2 ^ 32.
Proof.
  unfold u32, fieldOr0. case_decide as Hlen; [|done].
  destruct r as [|b0 [|b1 [|b2 [|b3 r]]]]; simpl in Hlen; try lia.
  cbn [take]. rewrite uint32LE_leValue.
  apply (leValue_lt [b0; b1; b2; b3]).
Qed.

Lemma u64_lt r : u64 r < 2 ^ 64.
Proof.
  unfold u64, fieldOr0. case_decide as Hlen; [|done].
  destruct r as [|b0 [|b1 [|b2 [|b3 [|b4 [|b5 [|b6 [|b7 r]]]]]]]]; simpl in Hlen; try lia.
  cbn [take]. rewrite uint64LE_leValue.
  apply (leValue_lt [b0; b1; b2; b3; b4; b5; b6; b7]).
Qed.

(** X1: each integer reader, on the little-endian bytes of a number that
    fits its width followed by anything, returns that number without
    error and leaves what follows. *)
Theorem readUint_le_roundtrip n r :
  (n < 2 ^ 8 → readUint8 (le 1 n ++ r) = Done ((n, None), r))
  ∧ (n < 2 ^ 16 → readUint16 (le 2 n ++ r) = Done ((n, None), r))
  ∧ (n < 2 ^ 32 → readUint32 (le 4 n ++ r) = Done ((n, None), r))
  ∧ (n < 2 ^ 64 → readUint64 (le 8 n ++ r) = Done ((n, None), r)).
Proof.
  split_and!; [apply readUint8_le | apply readUint16_le
              | apply readUint32_le | apply readUint64_le].
Qed.

Lemma readUint_le_roundtrip_witness :
  0x12345678 < 2 ^ 32
  ∧ readUint32 (le 4 0x12345678 ++ [xff]) = Done ((0x12345678, None), [xff]).
Proof.
  assert (0x12345678 < 2 ^ 32) as Hn by (vm_compute; reflexivity).
  split; [done|].
  exact (proj1 (proj2 (proj2 (readUint_le_roundtrip 0x12345678 [xff]))) Hn).
Defined.

(** X2: an integer reader on a reader holding fewer bytes than its width
    returns the value 0 with an error, [EOF] when nothing is left and
    [ErrUnexpectedEOF] otherwise, and leaves the reader empty; a value
    returned without error is below 2 to the width. *)
Theorem readUint_short_and_bounds r :
  ((length r < 4)%nat → readUint32 r = Done ((0, Some (shortRead r)), []))
  ∧ ((length r < 8)%nat → readUint64 r = Done ((0, Some (shortRead r)), []))
  ∧ (∀ v r', readUint32 r = Done ((v, None), r') →
       v < 2 ^ 32 ∧ (4 ≤ length r)%nat ∧ r' = drop 4 r)
  ∧ (∀ v r', readUint64 r = Done ((v, None), r') →
       v < 2 ^ 64 ∧ (8 ≤ length r)%nat ∧ r' = drop 8 r).
Proof.
  split_and!.
  - intros Hlen. rewrite readUint32_total, u32_short by done.
    rewrite decide_False by lia. by rewrite drop_ge by lia.
  - intros Hlen. rewrite readUint64_total, u64_short by done.
    rewrite decide_False by lia. by rewrite drop_ge by lia.
  - intros v r'. rewrite readUint32_total. case_decide; [|done].
    intros [= <- <-]. split_and!; [apply u32_lt|done..].
  - intros v r'. rewrite readUint64_total. case_decide; [|done].
    intros [= <- <-]. split_and!; [apply u64_lt|done..].
Qed.

Lemma readUint_short_and_bounds_witness :
  (length [x01; x02] < 4)%nat
  ∧ readUint32 [x01; x02] = Done ((0, Some ErrUnexpectedEOF), []).
Proof.
  assert (length [x01; x02] < 4)%nat as Hlen by (simpl; lia).
  split; [done|].
  exact (proj1 (readUint_short_and_bounds [x01; x02]) Hlen).
Defined.

(** ** String readers and the padded layout *)

Lemma length_padding len : (length (padding len) = (4 - len mod 4) mod 4)%nat.
Proof. unfold padding. apply length_replicate. Qed.

Lemma roundUp4_padding len :
  roundUp4 (N.of_nat len) = N.of_nat (len + length (padding len)).
Proof.
  rewrite length_padding. unfold roundUp4.
  destruct (divmod4 (N.of_nat len + 3)) as (q & r & -> & _ & Hq & Hr).
  pose proof (Nat.div_mod_eq len 4) as Hd.
  pose proof (Nat.mod_upper_bound len 4 ltac:(lia)) as Hm.
  generalize dependent (len mod 4)%nat. generalize dependent (len / 4)%nat.
  intros a b Hd Hb.
  assert (b = 0 ∨ b = 1 ∨ b = 2 ∨ b = 3)%nat as [->|[->|[->| ->]]] by lia;
    simpl; lia.
Qed.

Lemma readString_encString s rest :
  blen s + 3 < 2 ^ 32 →
  readString (encString s ++ rest) = Done ((string_of_bytes s, None), rest).
Proof.
  intros Hs. unfold encString. rewrite <- !app_assoc.
  assert (blen s < 2 ^ 32) as Hs' by lia.
  rewrite readString_wellformed; rewrite ?u32_le by done.
  - rewrite drop_app_length' by (by rewrite length_le).
    unfold blen at 1. rewrite Nat2N.id, take_app_length.
    unfold blen. rewrite roundUp4_padding, Nat2N.id.
    rewrite app_assoc, drop_app_length' by (by rewrite length_app). done.
  - rewrite length_app, length_le. lia.
  - done.
  - rewrite drop_app_length' by (by rewrite length_le).
    unfold blen. rewrite roundUp4_padding, !length_app. lia.
Qed.

Lemma unitsLE_cons lo hi b : unitsLE (lo :: hi :: b) = uint16LE [lo; hi] :: unitsLE b.
Proof. done. Qed.

Lemma unitsLE_encode units :
  Forall (λ u, u < 2 ^ 16) units → unitsLE (flat_map (le 2) units) = units.
Proof.
  induction 1 as [|u units Hu _ IH]; [done|].
  change (flat_map (le 2) (u :: units)) with (le 2 u ++ flat_map (le 2) units).
  assert (le 2 u = [byte_of (u mod 256); byte_of ((u / 256) mod 256)]) as -> by done.
  cbn [app]. rewrite unitsLE_cons, IH. f_equal.
  rewrite uint16LE_leValue.
  pose proof (leValue_le 2 u Hu) as E. by cbn [le] in E.
Qed.

Lemma length_flat_map_le2 (units : list N) :
  length (flat_map (le 2) units) = (2 * length units)%nat.
Proof.
  induction units as [|u units IH]; [done|].
  change (flat_map (le 2) (u :: units)) with (le 2 u ++ flat_map (le 2) units).
  rewrite length_app, length_le, IH. simpl. lia.
Qed.

Lemma readString16_encString16 units rest :
  Forall (λ u, u < 2 ^ 16) units →
  2 * N.of_nat (length units) + 2 < 2 ^ 32 →
  readString16 (encString16 units ++ rest)
  = Done ((string_of_runes (utf16_Decode units), None), rest).
Proof.
  intros Hunits Hlen. unfold encString16. rewrite <- !app_assoc.
  assert (N.of_nat (length units) < 2 ^ 32) as Hn by lia.
  rewrite readString16_wellformed; rewrite ?u32_le by done.
  - rewrite drop_app_length' by (by rewrite length_le).
    replace (2 * N.of_nat (length units)) with (N.of_nat (2 * length units)) by lia.
    rewrite Nat2N.id.
    rewrite take_app_length' by (by rewrite length_flat_map_le2).
    rewrite unitsLE_encode by done.
    rewrite roundUp4_padding, Nat2N.id.
    rewrite app_assoc, drop_app_length'; [done|].
    by rewrite length_app, length_flat_map_le2.
  - rewrite length_app, length_le. lia.
  - done.
  - rewrite drop_app_length' by (by rewrite length_le).
    replace (2 * N.of_nat (length units)) with (N.of_nat (2 * length units)) by lia.
    unfold blen. rewrite roundUp4_padding, !length_app, length_flat_map_le2. lia.
Qed.

Lemma utf16_Decode_small units :
  Forall (λ u, u < 0xd800) units → utf16_Decode units = units.
Proof.
  induction 1 as [|u units Hu _ IH]; [done|]. cbn [utf16_Decode].
  destruct (N.leb_spec 0xd800 u); [lia|]. simpl andb. cbv iota. by rewrite IH.
Qed.

Lemma flat_map_cons_app {A B} (f : A → list B) x l :
  flat_map f (x :: l) = f x ++ flat_map f l.
Proof. done. Qed.

Lemma flat_map_utf8_ascii (bs : list byte) :
  Forall (λ b, Byte.to_N b < 0x80) bs → flat_map utf8_rune (Byte.to_N <$> bs) = bs.
Proof.
  induction 1 as [|b bs Hb _ IH]; [done|].
  rewrite fmap_cons, flat_map_cons_app, IH.
  unfold utf8_rune. destruct (N.ltb_spec (Byte.to_N b) 0x80); [|lia].
  unfold byte_of. by rewrite Byte.of_to_N.
Qed.

Lemma string_of_bytes_ascii_bytes s : string_of_bytes (ascii_bytes s) = s.
Proof. apply String.string_of_list_byte_of_string. Qed.

Lemma string_of_runes_sevenBit s :
  sevenBit s → string_of_runes (utf16_Decode (ascii_units s)) = s.
Proof.
  intros Hs. unfold ascii_units. rewrite utf16_Decode_small.
  - unfold string_of_runes. rewrite flat_map_utf8_ascii by done.
    apply string_of_bytes_ascii_bytes.
  - apply Forall_fmap. eapply Forall_impl; [exact Hs|]. simpl. intros b Hb. lia.
Qed.

Lemma ascii_units_lt s : Forall (λ u, u < 2 ^ 16) (ascii_units s).
Proof.
  unfold ascii_units. apply Forall_fmap, Forall_forall. intros b _. simpl.
  pose proof (to_N_lt b). change (2 ^ 16) with 65536. lia.
Qed.

(** X3: the string readers undo the padded layout: on a length prefix,
    the bytes (resp. the 16-bit code units) and the zero padding up to a
    multiple of 4, followed by anything, the byte-string reader returns the
    bytes and the wide-string reader the UTF-16 decoding of the units,
    which for plain 7-bit text is the text itself; both leave exactly what
    follows. *)
Theorem readString_layout_roundtrip rest :
  (∀ s, blen s + 3 < 2 ^ 32 →
        readString (encString s ++ rest) = Done ((string_of_bytes s, None), rest))
  ∧ (∀ units, Forall (λ u, u < 2 ^ 16) units →
              2 * N.of_nat (length units) + 2 < 2 ^ 32 →
              readString16 (encString16 units ++ rest)
              = Done ((string_of_runes (utf16_Decode units), None), rest))
  ∧ (∀ text, sevenBit text →
             2 * blen (ascii_bytes text) + 2 < 2 ^ 32 →
             readString (encString (ascii_bytes text) ++ rest) = Done ((text, None), rest)
             ∧ readString16 (encString16 (ascii_units text) ++ rest)
               = Done ((text, None), rest)).
Proof.
  split_and!.
  - intros. by apply readString_encString.
  - intros. by apply readString16_encString16.
  - intros text Hs Hlen.
    split.
    + rewrite readString_encString, string_of_bytes_ascii_bytes; [done|lia].
    + rewrite readString16_encString16, string_of_runes_sevenBit;
        [done|done|apply ascii_units_lt|].
      unfold ascii_units. by rewrite length_fmap.
Qed.

Lemma readString_layout_roundtrip_witness :
  sevenBit "tab"
  ∧ 2 * blen (ascii_bytes "tab") + 2 < 2 ^ 32
  ∧ readString16 (encString16 (ascii_units "tab") ++ [xff])
    = Done (("tab"%string, None), [xff]).
Proof.
  assert (sevenBit "tab") as Hs.
  { unfold sevenBit. repeat constructor. }
  assert (2 * blen (ascii_bytes "tab") + 2 < 2 ^ 32) as Hlen by (vm_compute; reflexivity).
  split_and!; [done..|].
  exact (proj2 (proj2 (proj2 (readString_layout_roundtrip [xff])) "tab"%string Hs Hlen)).
Defined.

(** X4: the byte-string reader on a length [n] that the padding
    arithmetic does not overflow ([n + 3 < 2^32]): when the padded payload
    is there it returns the first [n] payload bytes and consumes the
    length prefix and [n] rounded up to a multiple of 4; when it is not,
    it returns the empty string with an end-of-data error and leaves
    nothing; it does not panic. *)
Theorem readString_in_range r :
  (4 ≤ length r)%nat → u32 r + 3 < 2 ^ 32 →
  (roundUp4 (u32 r) ≤ blen (drop 4 r) →
   readString r
   = Done ((string_of_bytes (take (N.to_nat (u32 r)) (drop 4 r)), None),
           drop (N.to_nat (roundUp4 (u32 r))) (drop 4 r)))
  ∧ (blen (drop 4 r) < roundUp4 (u32 r) →
     readString r = Done ((EmptyString, Some (shortRead (drop 4 r))), [])).
Proof.
  intros Hlen Hn. split; intros Hpay.
  - by apply readString_wellformed.
  - by apply readString_short.
Qed.

Lemma readString_in_range_witness :
  (4 ≤ length [x03; x00; x00; x00; x61; x62])%nat
  ∧ u32 [x03; x00; x00; x00; x61; x62] + 3 < 2 ^ 32
  ∧ readString [x03; x00; x00; x00; x61; x62]
    = Done ((EmptyString, Some ErrUnexpectedEOF), []).
Proof.
  assert (4 ≤ length [x03; x00; x00; x00; x61; x62])%nat as Hlen by (simpl; lia).
  assert (u32 [x03; x00; x00; x00; x61; x62] + 3 < 2 ^ 32) as Hn
    by (vm_compute; reflexivity).
  split_and!; [done..|].
  refine (proj2 (readString_in_range _ Hlen Hn) _). vm_compute. reflexivity.
Defined.

(** X5: the wide-string reader on a character count [n] that neither the
    doubling nor the padding overflows ([2n + 2 < 2^32]): when the padded
    payload is there it returns the UTF-16 decoding of the first [n] code
    units and consumes the length prefix and [2n] rounded up to a multiple
    of 4; when it is not, it returns the empty string with an end-of-data
    error and leaves nothing; it does not panic. *)
Theorem readString16_in_range r :
  (4 ≤ length r)%nat → 2 * u32 r + 2 < 2 ^ 32 →
  (roundUp4 (2 * u32 r) ≤ blen (drop 4 r) →
   readString16 r
   = Done ((string_of_runes
              (utf16_Decode (unitsLE (take (N.to_nat (2 * u32 r)) (drop 4 r)))), None),
           drop (N.to_nat (roundUp4 (2 * u32 r))) (drop 4 r)))
  ∧ (blen (drop 4 r) < roundUp4 (2 * u32 r) →
     readString16 r = Done ((EmptyString, Some (shortRead (drop 4 r))), [])).
Proof.
  intros Hlen Hn. split; intros Hpay.
  - by apply readString16_wellformed.
  - by apply readString16_short.
Qed.

Lemma readString16_in_range_witness :
  (4 ≤ length [x01; x00; x00; x00; x41; x00; x00; x00; x07])%nat
  ∧ 2 * u32 [x01; x00; x00; x00; x41; x00; x00; x00; x07] + 2 < 2 ^ 32
  ∧ readString16 [x01; x00; x00; x00; x41; x00; x00; x00; x07]
    = Done (("A"%string, None), [x07]).
Proof.
  assert (4 ≤ length [x01; x00; x00; x00; x41; x00; x00; x00; x07])%nat as Hlen
    by (simpl; lia).
  assert (2 * u32 [x01; x00; x00; x00; x41; x00; x00; x00; x07] + 2 < 2 ^ 32) as Hn
    by (vm_compute; reflexivity).
  split_and!; [done..|].
  refine (proj1 (readString16_in_range _ Hlen Hn) _). vm_compute. discriminate.
Defined.

(** ** Files in the documented layout *)

Lemma encode_record c : encode c = record (typeOf c) (payloadOf c).
Proof. by destruct c. Qed.

Lemma u16_record_size n : n < 2 ^ 16 → ∃ lo hi, le 2 n = [lo; hi] ∧ u16 lo hi = n.
Proof.
  intros Hn. eexists _, _. split; [done|].
  unfold u16. rewrite uint16LE_leValue.
  pose proof (leValue_le 2 n Hn) as E. by cbn [le] in E.
Qed.

Lemma typeOf_lt c : typeOf c < 256.
Proof. destruct c; reflexivity. Qed.

Lemma bind_val_readString_encString {B} (k : string → M B) s rest :
  blen s + 3 < 2 ^ 32 →
  (let* x := val readString in k x) (encString s ++ rest) = k (string_of_bytes s) rest.
Proof.
  intros Hs. unfold bind at 1, val, bind. by rewrite readString_encString.
Qed.

Lemma bind_val_readString16_text {B} (k : string → M B) text rest :
  sevenBit text → 2 * blen (ascii_bytes text) + 2 < 2 ^ 32 →
  (let* x := val readString16 in k x) (encString16 (ascii_units text) ++ rest)
  = k text rest.
Proof.
  intros Hs Hlen. unfold bind at 1, val, bind.
  rewrite readString16_encString16, string_of_runes_sevenBit;
    [done|done|apply ascii_units_lt|].
  unfold ascii_units. by rewrite length_fmap.
Qed.

Lemma blen_encString s : blen s ≤ blen (encString s).
Proof. unfold encString, blen. rewrite !length_app. lia. Qed.

Lemma blen_encString16 text :
  2 * blen (ascii_bytes text) ≤ blen (encString16 (ascii_units text)).
Proof.
  unfold encString16, blen, ascii_units.
  rewrite !length_app, length_flat_map_le2, length_fmap. lia.
Qed.

Lemma skip_readUint32_le {B} (k : M B) n rest :
  (let* _ := readUint32 in k) (le 4 n ++ rest) = k rest.
Proof. rewrite skip_readUint32. by rewrite drop_app_length' by (by rewrite length_le). Qed.

Lemma bind_val_readUint32_le {B} (k : N → M B) n rest :
  n < 2 ^ 32 → (let* x := val readUint32 in k x) (le 4 n ++ rest) = k n rest.
Proof.
  intros Hn. rewrite bind_val_readUint32, u32_le by done.
  by rewrite drop_app_length' by (by rewrite length_le).
Qed.

Lemma bind_val_readUint64_le {B} (k : N → M B) n rest :
  n < 2 ^ 64 → (let* x := val readUint64 in k x) (le 8 n ++ rest) = k n rest.
Proof.
  intros Hn. rewrite bind_val_readUint64, u64_le by done.
  by rewrite drop_app_length' by (by rewrite length_le).
Qed.

Ltac pick_arm :=
  unfold decodeCommand;
  repeat first [ rewrite decide_True by reflexivity
               | rewrite decide_False by (vm_compute; discriminate) ].

Ltac read_fields :=
  repeat first [ rewrite skip_readUint32_le
               | rewrite bind_val_readUint32_le by done
               | rewrite bind_val_readUint64_le by done ].

Lemma decodeCommand_payloadOf c :
  wellFormed c → decodeCommand (typeOf c) (payloadOf c) = Done (c, []).
Proof.
  intros [Hsize Hfields].
  destruct c as [id histIdx urlStr title | id idx | high low name | id high low
                | win id | id | id | id index | id | id idx |].
  - destruct Hfields as (Hid & Hh & Ht).
    change (payloadOf (UpdateTabNavigation id histIdx urlStr title))
      with (le 4 0 ++ le 4 id ++ le 4 histIdx ++ encString (ascii_bytes urlStr)
              ++ encString16 (ascii_units title)) in *.
    assert (blen (encString (ascii_bytes urlStr)) < 2 ^ 16
            ∧ blen (encString16 (ascii_units title)) < 2 ^ 16) as [Hu Hti].
    { unfold blen in *. rewrite !length_app in Hsize. lia. }
    pose proof (blen_encString (ascii_bytes urlStr)).
    pose proof (blen_encString16 title).
    change (2 ^ 16) with 65536 in *.
    cbn [typeOf]. pick_arm. read_fields.
    rewrite bind_val_readString_encString by (change (2 ^ 32) with 4294967296; lia).
    rewrite <- (app_nil_r (encString16 _)).
    rewrite bind_val_readString16_text
      by (done || (change (2 ^ 32) with 4294967296; lia)).
    by rewrite string_of_bytes_ascii_bytes.
  - destruct Hfields as (? & ?).
    change (payloadOf (SetSelectedTabInIndex id idx)) with (le 4 id ++ le 4 idx ++ []).
    cbn [typeOf]. pick_arm. by read_fields.
  - destruct Hfields as (? & ? & Ht).
    change (payloadOf (SetTabGroupMetadata2 high low name))
      with (le 4 0 ++ le 8 high ++ le 8 low ++ encString16 (ascii_units name)) in *.
    assert (blen (encString16 (ascii_units name)) < 2 ^ 16) as Hti.
    { unfold blen in *. rewrite !length_app in Hsize. lia. }
    pose proof (blen_encString16 name).
    change (2 ^ 16) with 65536 in *.
    cbn [typeOf]. pick_arm. read_fields.
    rewrite <- (app_nil_r (encString16 _)).
    by rewrite bind_val_readString16_text
      by (done || (change (2 ^ 32) with 4294967296; lia)).
  - destruct Hfields as (? & ? & ?).
    change (payloadOf (SetTabGroup id high low))
      with (le 4 id ++ le 4 0 ++ le 8 high ++ le 8 low ++ []).
    cbn [typeOf]. pick_arm. by read_fields.
  - destruct Hfields as (? & ?).
    change (payloadOf (SetTabWindow win id)) with (le 4 win ++ le 4 id ++ []).
    cbn [typeOf]. pick_arm. by read_fields.
  - change (payloadOf (WindowClosed id)) with (le 4 id ++ []).
    cbn [typeOf]. pick_arm. by read_fields.
  - change (payloadOf (TabClosed id)) with (le 4 id ++ []).
    cbn [typeOf]. pick_arm. by read_fields.
  - destruct Hfields as (? & ?).
    change (payloadOf (SetTabIndexInWindow id index)) with (le 4 id ++ le 4 index ++ []).
    cbn [typeOf]. pick_arm. by read_fields.
  - change (payloadOf (SetActiveWindow id)) with (le 4 id ++ []).
    cbn [typeOf]. pick_arm. by read_fields.
  - destruct Hfields as (? & ?).
    change (payloadOf (SetSelectedNavigationIndex id idx)) with (le 4 id ++ le 4 idx ++ []).
    cbn [typeOf]. pick_arm. by read_fields.
  - done.
Qed.

Lemma processCommand_payloadOf c p :
  wellFormed c → processCommand (typeOf c) (payloadOf c) p = Done (applyCommand c p).
Proof. intros Hc. unfold processCommand. by rewrite decodeCommand_payloadOf. Qed.

Lemma readCommands_encode c p rest :
  wellFormed c → readCommands p (encode c ++ rest) = readCommands (applyCommand c p) rest.
Proof.
  intros Hc. rewrite encode_record. unfold record.
  destruct (u16_record_size (blen (payloadOf c) + 1) (proj1 Hc)) as (lo & hi & -> & Hsz).
  cbn [app]. apply readCommands_record; [apply typeOf_lt|done|].
  by apply processCommand_payloadOf.
Qed.

Lemma readCommands_encode_all cs : ∀ p,
  Forall wellFormed cs →
  readCommands p (flat_map encode cs)
  = Returned (fold_left (λ p c, applyCommand c p) cs p).
Proof.
  induction cs as [|c cs IH]; intros p Hcs.
  { simpl. by rewrite readCommands_unfold. }
  apply Forall_cons in Hcs as [Hc Hcs].
  rewrite flat_map_cons_app, readCommands_encode by done.
  by apply IH.
Qed.

Section LayoutRoundTrip.

Context `{SortSlice}.
Variable ExtractDomain : string → string.

(** X6: a file written in the documented layout, a valid header followed
    by the records of well-formed commands, parses without error to the
    entries assembled from the store that results from applying the
    commands in order to the empty store; the record loop alone turns the
    records of the commands into that store, from any store. *)
Theorem parseSessionFile_sessionFile tabOrder winOrder ver cs browserName :
  (ver = 1 ∨ ver = 3) → Forall wellFormed cs →
  parseSessionFile ExtractDomain tabOrder winOrder (sessionFile ver cs) browserName
  = Returned (buildTabEntries ExtractDomain tabOrder winOrder (storeOf cs) browserName)
  ∧ ∀ p, readCommands p (flat_map encode cs)
         = Returned (fold_left (λ p c, applyCommand c p) cs p).
Proof.
  intros Hver Hcs. split.
  - unfold sessionFile. rewrite parseSessionFile_header by done.
    by rewrite readCommands_encode_all.
  - intros p. by apply readCommands_encode_all.
Qed.

End LayoutRoundTrip.

Lemma parseSessionFile_sessionFile_witness :
  (1 = 1 ∨ 1 = 3)
  ∧ Forall wellFormed twoWindows
  ∧ parseSessionFile (H := insertionSortSlice) (λ _, EmptyString) [1; 2] [1; 2]
      (sessionFile 1 twoWindows) "chrome"
    = Returned (buildTabEntries (H := insertionSortSlice) (λ _, EmptyString)
                  [1; 2] [1; 2] (storeOf twoWindows) "chrome").
Proof.
  assert (Forall wellFormed twoWindows) as Hcs.
  { unfold twoWindows.
    repeat first [ apply Forall_nil | apply Forall_cons; split ].
    all: try exact I.
    all: split; [vm_compute; reflexivity|].
    all: repeat split; try (vm_compute; reflexivity).
    all: unfold sevenBit; repeat constructor. }
  split_and!; [by left|done|].
  exact (proj1 (@parseSessionFile_sessionFile insertionSortSlice (λ _, EmptyString)
                  [1; 2] [1; 2] 1 twoWindows "chrome"%string (or_introl eq_refl) Hcs)).
Defined.

(** ** processCommand: unknown types and panics *)

Lemma decodeCommand_unrecognized typ data :
  ¬ recognized typ → decodeCommand typ data = Done (Unrecognized, data).
Proof.
  unfold recognized. rewrite !not_elem_of_cons. intros Hty.
  destruct Hty as (?&?&?&?&?&?&?&?&?&?&_).
  unfold decodeCommand. by rewrite !decide_False by done.
Qed.

(** X7: a command whose type is none of the ten recognized ones is read
    as an opaque payload and discarded: whatever its payload, it never
    panics, it leaves the store as it is, and the record loop goes on with
    the next record. *)
Theorem processCommand_unrecognized typ data p :
  ¬ recognized typ →
  processCommand typ data p = Done p
  ∧ ∀ lo hi rest,
      typ < 256 → u16 lo hi = blen data + 1 →
      readCommands p (lo :: hi :: byte_of typ :: data ++ rest) = readCommands p rest.
Proof.
  intros Hty.
  assert (processCommand typ data p = Done p) as Hpc.
  { unfold processCommand. by rewrite decodeCommand_unrecognized. }
  split; [done|]. intros lo hi rest Hlt Hsz. by apply readCommands_record.
Qed.

Lemma processCommand_unrecognized_witness :
  ¬ recognized 99 ∧ processCommand 99 [x01; x02; x03] newSessionParser = Done newSessionParser.
Proof.
  assert (¬ recognized 99) as Hty.
  { unfold recognized. rewrite !not_elem_of_cons.
    split_and!; try (vm_compute; discriminate). apply not_elem_of_nil. }
  split; [done|].
  exact (proj1 (processCommand_unrecognized 99 [x01; x02; x03] newSessionParser Hty)).
Defined.

(** When the string readers panic. *)
Lemma readString_panic_iff r k :
  readString r = Panic k
  ↔ k = SliceBounds ∧ (4 ≤ length r)%nat ∧ 2 ^ 32 - 3 ≤ u32 r.
Proof.
  assert (2 ^ 32 = 4294967296) as Hp by reflexivity.
  split.
  - intros Hpanic. split; [by eapply readString_panic|].
    destruct (decide (4 ≤ length r)%nat) as [Hlen|Hlen].
    2:{ rewrite readString_no_length in Hpanic by lia. done. }
    split; [done|].
    destruct (N.lt_ge_cases (u32 r) (2 ^ 32 - 3)) as [Hlt|Hge]; [|done].
    destruct (N.lt_ge_cases (blen (drop 4 r)) (roundUp4 (u32 r))).
    + rewrite readString_short in Hpanic by (done || lia). done.
    + rewrite readString_wellformed in Hpanic by (done || lia). done.
  - intros (-> & Hlen & Hge). pose proof (u32_lt r) as Hlt.
    unfold readString, bind. rewrite readUint32_total, decide_True by done.
    assert (align4 (u32 r) = 0) as ->.
    { unfold align4, wrap32. rewrite Hp in *.
      destruct (divmod4 (u32 r)) as (q & m & _ & -> & Hq & Hm).
      destruct (N.eqb_spec m 0); [lia|].
      replace (u32 r + (4 - m)) with (1 * 4294967296) by lia.
      by rewrite N.Div0.mod_mul. }
    rewrite ReadFull_zero.
    destruct (N.ltb_spec 0 (u32 r)); [done|lia].
Qed.

Lemma readString16_panic_iff r k :
  readString16 r = Panic k
  ↔ k = IndexRange ∧ (4 ≤ length r)%nat ∧ wrap32 (u32 r * 2) = 2 ^ 32 - 2.
Proof.
  assert (2 ^ 32 = 4294967296) as Hp by reflexivity.
  split.
  - intros Hpanic. split; [by eapply readString16_panic|].
    destruct (decide (4 ≤ length r)%nat) as [Hlen|Hlen].
    2:{ rewrite readString16_no_length in Hpanic by lia. done. }
    split; [done|].
    unfold readString16, bind in Hpanic.
    rewrite readUint32_total, decide_True in Hpanic by done.
    set (rsz0 := wrap32 (u32 r * 2)) in *.
    assert (rsz0 < 2 ^ 32) as Hlt0 by (apply N.mod_lt; done).
    assert (rsz0 mod 2 = 0) as Heven.
    { pose proof (N.div_mod (u32 r * 2) (2 ^ 32) ltac:(done)) as Hd.
      fold (wrap32 (u32 r * 2)) in Hd. fold rsz0 in Hd. rewrite Hp in Hd.
      generalize dependent (u32 r * 2 / 4294967296). intros q Hd.
      replace rsz0 with ((u32 r - 2147483648 * q) * 2) by lia.
      apply N.Div0.mod_mul. }
    destruct (N.eq_dec rsz0 (2 ^ 32 - 2)) as [|Hne]; [done|exfalso].
    assert (∃ y, rsz0 = 2 * y) as [y Hy].
    { exists (rsz0 / 2). pose proof (N.div_mod rsz0 2 ltac:(done)) as Hd.
      rewrite Heven in Hd. lia. }
    assert (rsz0 + 3 < 2 ^ 32) as Hok by (rewrite Hp in *; lia).
    rewrite align4_roundUp4 in Hpanic by done.
    pose proof (roundUp4_ge rsz0) as Hge.
    destruct (ReadFull_drop (roundUp4 rsz0) (drop 4 r)) as (b & err & Hrf & Herr & Hb).
    rewrite Hrf in Hpanic. destruct err as [e|]; [done|].
    rewrite codeUnits_enough in Hpanic; [done|].
    rewrite Hb by done. unfold blen. rewrite length_take.
    assert (roundUp4 rsz0 ≤ blen (drop 4 r)) as Hle by (by apply Herr).
    unfold blen in Hle.
    replace (rsz0 / 2) with y by (rewrite Hy, N.mul_comm, N.div_mul; done).
    lia.
  - intros (-> & Hlen & Hw).
    unfold readString16, bind. rewrite readUint32_total, decide_True by done.
    rewrite Hw.
    assert (align4 (2 ^ 32 - 2) = 0) as -> by reflexivity.
    rewrite ReadFull_zero. reflexivity.
Qed.

(** ** When processCommand panics *)

Lemma decodeCommand_no_strings typ data :
  typ ≠ kCommandUpdateTabNavigation → typ ≠ kCommandSetTabGroupMetadata2 →
  ∃ c r, decodeCommand typ data = Done (c, r).
Proof.
  intros H6 H27. unfold decodeCommand.
  rewrite (decide_False (P := typ = kCommandUpdateTabNavigation)) by done.
  rewrite (decide_False (P := typ = kCommandSetTabGroupMetadata2)) by done.
  repeat case_decide;
    rewrite ?skip_readUint32, ?bind_val_readUint32, ?bind_val_readUint64,
            ?skip_readUint32, ?bind_val_readUint32, ?bind_val_readUint64,
            ?bind_val_readUint32, ?bind_val_readUint64; by eexists _, _.
Qed.

Lemma decodeCommand_metadata_panic data k :
  decodeCommand kCommandSetTabGroupMetadata2 data = Panic k
  ↔ readString16 (drop 20 data) = Panic k.
Proof.
  unfold decodeCommand. simpl.
  rewrite skip_readUint32, !bind_val_readUint64, !drop_drop. simpl.
  unfold bind, val, bind.
  destruct (readString16 (drop 20 data)) as [[[s e] r]|k']; simpl; [done|].
  split; congruence.
Qed.

Lemma decodeCommand_navigation_panic data k :
  decodeCommand kCommandUpdateTabNavigation data = Panic k
  ↔ readString (drop 12 data) = Panic k
    ∨ ∃ u r, readString (drop 12 data) = Done (u, r) ∧ readString16 r = Panic k.
Proof.
  unfold decodeCommand. simpl.
  rewrite skip_readUint32, !bind_val_readUint32, !drop_drop. simpl.
  unfold bind, val, bind.
  destruct (readString (drop 12 data)) as [[[s e] r]|k']; simpl.
  - destruct (readString16 r) as [[[s' e'] r']|k'] eqn:E16; simpl.
    + split; [done|]. intros [|(u & r0 & [= <- <-] & ?)]; [done|]. congruence.
    + split.
      * intros [= <-]. right. by eexists _, _.
      * intros [|(u & r0 & [= <- <-] & ?)]; [done|]. congruence.
  - split.
    + intros [= <-]. by left.
    + intros [[= ->]|(u & r0 & ? & ?)]; done.
Qed.


Lemma processCommand_panic_iff typ data p k :
  processCommand typ data p = Panic k ↔ decodeCommand typ data = Panic k.
Proof.
  unfold processCommand. destruct (decodeCommand typ data) as [[c r]|k']; [done|].
  split; congruence.
Qed.

(** X8: processCommand panics in the two commands that carry strings and
    nowhere else.  A group-metadata command panics exactly when the
    payload holds the length field of the name and twice that length,
    in 32 bits, is 0xFFFFFFFE; a navigation command panics exactly when
    the URL length is 0xFFFFFFFD or more, or the URL is read and the
    title length doubles to 0xFFFFFFFE.  The store plays no part. *)
Theorem processCommand_panics_exactly typ data p :
  (typ ≠ kCommandUpdateTabNavigation → typ ≠ kCommandSetTabGroupMetadata2 →
   ∃ p', processCommand typ data p = Done p')
  ∧ (∀ k, processCommand kCommandSetTabGroupMetadata2 data p = Panic k
          ↔ k = IndexRange ∧ (24 ≤ length data)%nat
            ∧ wrap32 (u32 (drop 20 data) * 2) = 2 ^ 32 - 2)
  ∧ (∀ k, processCommand kCommandUpdateTabNavigation data p = Panic k
          ↔ (k = SliceBounds ∧ (16 ≤ length data)%nat
             ∧ 2 ^ 32 - 3 ≤ u32 (drop 12 data))
            ∨ (k = IndexRange
               ∧ ∃ u title, readString (drop 12 data) = Done (u, title)
                            ∧ (4 ≤ length title)%nat
                            ∧ wrap32 (u32 title * 2) = 2 ^ 32 - 2)).
Proof.
  split_and!.
  - intros H6 H27. unfold processCommand.
    destruct (decodeCommand_no_strings typ data H6 H27) as (c & r & ->). by eexists.
  - intros k.
    rewrite processCommand_panic_iff, decodeCommand_metadata_panic,
            readString16_panic_iff, length_drop.
    split; intros (? & ? & ?); split_and!; (done || lia).
  - intros k.
    rewrite processCommand_panic_iff, decodeCommand_navigation_panic,
            readString_panic_iff, length_drop.
    split.
    + intros [(? & ? & ?)|(u & title & Hrs & E)].
      * left. split_and!; (done || lia).
      * apply readString16_panic_iff in E as (? & ? & ?).
        right. split; [done|]. by exists u, title.
    + intros [(? & ? & ?)|(? & u & title & Hrs & ? & ?)].
      * left. split_and!; (done || lia).
      * right. exists u, title. split; [done|]. by apply readString16_panic_iff.
Qed.

Lemma processCommand_panics_exactly_witness :
  processCommand kCommandSetTabGroupMetadata2
    (replicate 20 x00 ++ [xff; xff; xff; x7f]) newSessionParser
  = Panic IndexRange.
Proof.
  apply (proj2 (proj1 (proj2 (processCommand_panics_exactly
           kCommandSetTabGroupMetadata2
           (replicate 20 x00 ++ [xff; xff; xff; x7f]) newSessionParser)) IndexRange)).
  split_and!; [done | simpl; lia | vm_compute; reflexivity].
Defined.

(** ** The stream of records *)

Lemma byte_of_to_N b : byte_of (Byte.to_N b) = b.
Proof. unfold byte_of. by rewrite Byte.of_to_N. Qed.

Lemma le_leValue b : le (length b) (leValue b) = b.
Proof.
  induction b as [|x b IH]; [done|].
  cbn [length le leValue foldr]. fold (leValue b).
  pose proof (to_N_lt x) as Hx.
  replace (Byte.to_N x + 256 * leValue b) with (Byte.to_N x + leValue b * 256) by lia.
  rewrite N.Div0.mod_add, N.div_add by done.
  rewrite N.mod_small, N.div_small by done. rewrite N.add_0_l.
  by rewrite byte_of_to_N, IH.
Qed.

(** The four bytes of a 32-bit field are the little-endian bytes of the
    value read. *)
Lemma le_u32 r : (4 ≤ length r)%nat → le 4 (u32 r) = take 4 r.
Proof.
  intros Hlen. unfold u32, fieldOr0. rewrite decide_True by done.
  destruct r as [|b0 [|b1 [|b2 [|b3 r]]]]; simpl in Hlen; try lia.
  cbn [take]. rewrite uint32LE_leValue.
  apply (le_leValue [b0; b1; b2; b3]).
Qed.

Lemma readCommands_app fh recs :
  framed fh recs → ∀ rest p,
  readCommands p (fh ++ rest)
  = match replay recs p with
    | Done p' => readCommands p' rest
    | Panic k => Panicked k
    end.
Proof.
  induction 1 as [|lo hi typ body recs Hsz Hlen Hfr IH]; intros rest p; [done|].
  rewrite readCommands_unfold. simpl.
  destruct (N.eqb_spec (u16 lo hi) 0); [lia|].
  rewrite blen_app.
  destruct (N.ltb_spec (blen body + blen rest) (u16 lo hi - 1)); [lia|].
  rewrite take_app_le by (unfold blen in Hlen; lia).
  destruct (processCommand _ _ p) as [p1|]; [|done].
  rewrite drop_app_le by (unfold blen in Hlen; lia).
  apply IH.
Qed.

Lemma readCommands_failed_inv n : ∀ fh p e,
  (length fh ≤ n)%nat →
  readCommands p fh = Failed e →
  truncationError e
  ∧ ∃ complete tail recs p',
      fh = complete ++ tail ∧ framed complete recs
      ∧ replay recs p = Done p' ∧ truncated tail.
Proof.
  induction n as [|n IH]; intros fh p e Hn Hret;
    rewrite readCommands_unfold in Hret.
  - destruct fh; [|simpl in Hn; lia]. done.
  - destruct fh as [|lo [|hi [|typ rest]]]; simpl in Hret; try discriminate.
    + injection Hret as <-. split; [done|].
      exists [], [lo], [], p. split_and!; [done|constructor|done|constructor].
    + injection Hret as <-. split; [done|].
      exists [], [lo; hi], [], p. split_and!; [done|constructor|done|constructor].
    + destruct (N.eqb_spec (u16 lo hi) 0) as [|Hsz]; [done|].
      destruct (N.ltb_spec (blen rest) (u16 lo hi - 1)) as [Hshort|Hlen].
      * injection Hret as <-. split; [done|].
        exists [], (lo :: hi :: typ :: rest), [], p.
        split_and!; [done|constructor|done|]. constructor; [lia|done].
      * destruct (processCommand _ _ p) as [p1|] eqn:Hpc; [|done].
        apply IH in Hret as (He & complete & tail & recs & p' & Hfh & Hfr & Hre & Htr).
        2:{ rewrite length_drop. simpl in Hn. lia. }
        split; [done|].
        set (m := N.to_nat (u16 lo hi - 1)) in *.
        assert (m ≤ length rest)%nat as Hm by (unfold blen in Hlen; lia).
        exists (lo :: hi :: typ :: take m rest ++ complete), tail,
               ((Byte.to_N typ, take m rest) :: recs), p'.
        split_and!.
        -- simpl. rewrite <- app_assoc, <- Hfh. by rewrite take_drop.
        -- assert (take m rest = take m (take m rest ++ complete)) as Et.
           { rewrite take_app_le by (rewrite length_take; lia).
             by rewrite take_take, Nat.min_id. }
           rewrite Et at 2. constructor; [lia| |].
           ++ rewrite blen_app. unfold blen. rewrite length_take. lia.
           ++ fold m. rewrite drop_app_length'; [done|]. rewrite length_take. lia.
        -- simpl. by rewrite Hpc.
        -- done.
Qed.

Lemma readCommands_panicked_inv n : ∀ fh p k,
  (length fh ≤ n)%nat →
  readCommands p fh = Panicked k →
  ∃ complete recs p' lo hi typ rest,
    fh = complete ++ lo :: hi :: typ :: rest
    ∧ framed complete recs ∧ replay recs p = Done p'
    ∧ ((u16 lo hi = 0 ∧ k = MakeSliceLen)
       ∨ (1 ≤ u16 lo hi ∧ u16 lo hi - 1 ≤ blen rest
          ∧ processCommand (Byte.to_N typ) (take (N.to_nat (u16 lo hi - 1)) rest) p'
            = Panic k)).
Proof.
  induction n as [|n IH]; intros fh p k Hn Hret;
    rewrite readCommands_unfold in Hret.
  - destruct fh; [|simpl in Hn; lia]. done.
  - destruct fh as [|lo [|hi [|typ rest]]]; simpl in Hret; try discriminate.
    destruct (N.eqb_spec (u16 lo hi) 0) as [Hz|Hsz].
    { injection Hret as <-. exists [], [], p, lo, hi, typ, rest.
      split_and!; [done|constructor|done|]. by left. }
    destruct (N.ltb_spec (blen rest) (u16 lo hi - 1)) as [Hshort|Hlen]; [done|].
    destruct (processCommand _ _ p) as [p1|k'] eqn:Hpc.
    + apply IH in Hret
        as (complete & recs & p' & lo' & hi' & typ' & rest' & Hfh & Hfr & Hre & Hk).
      2:{ rewrite length_drop. simpl in Hn. lia. }
      set (m := N.to_nat (u16 lo hi - 1)) in *.
      assert (m ≤ length rest)%nat as Hm by (unfold blen in Hlen; lia).
      exists (lo :: hi :: typ :: take m rest ++ complete),
             ((Byte.to_N typ, take m rest) :: recs), p', lo', hi', typ', rest'.
      split_and!.
      * simpl. rewrite <- app_assoc, <- Hfh. by rewrite take_drop.
      * assert (take m rest = take m (take m rest ++ complete)) as Et.
        { rewrite take_app_le by (rewrite length_take; lia).
          by rewrite take_take, Nat.min_id. }
        rewrite Et at 2. constructor; [lia| |].
        -- rewrite blen_app. unfold blen. rewrite length_take. lia.
        -- fold m. rewrite drop_app_length'; [done|]. rewrite length_take. lia.
      * simpl. by rewrite Hpc.
      * done.
    + injection Hret as <-. exists [], [], p, lo, hi, typ, rest.
      split_and!; [done|constructor|done|]. right. split_and!; [lia|done|done].
Qed.

(** X9: the record loop is compositional, and every way it ends is
    accounted for.  Reading complete records followed by more input is
    reading the rest from the store the records leave, or the panic of
    the record that panics.  The loop fails only with one of the three
    truncation errors, and then the input is complete records followed
    by the beginning of a record that the end of the input cuts.  It
    panics only after complete records, at a record whose size field is
    0 or whose command panics. *)
Theorem readCommands_stream p fh :
  (∀ recs rest, framed fh recs →
     readCommands p (fh ++ rest)
     = match replay recs p with
       | Done p' => readCommands p' rest
       | Panic k => Panicked k
       end)
  ∧ (∀ e, readCommands p fh = Failed e →
       truncationError e
       ∧ ∃ complete tail recs p',
           fh = complete ++ tail ∧ framed complete recs
           ∧ replay recs p = Done p' ∧ truncated tail)
  ∧ (∀ k, readCommands p fh = Panicked k →
       ∃ complete recs p' lo hi typ rest,
         fh = complete ++ lo :: hi :: typ :: rest
         ∧ framed complete recs ∧ replay recs p = Done p'
         ∧ ((u16 lo hi = 0 ∧ k = MakeSliceLen)
            ∨ (1 ≤ u16 lo hi ∧ u16 lo hi - 1 ≤ blen rest
               ∧ processCommand (Byte.to_N typ)
                   (take (N.to_nat (u16 lo hi - 1)) rest) p'
                 = Panic k))).
Proof.
  split_and!.
  - intros recs rest Hfr. by apply readCommands_app.
  - intros e. by apply (readCommands_failed_inv (length fh)).
  - intros k. by apply (readCommands_panicked_inv (length fh)).
Qed.

Lemma readCommands_stream_witness :
  readCommands newSessionParser (encode (TabClosed 7) ++ [x05])
  = readCommands (storeOf [TabClosed 7]) [x05].
Proof.
  apply (proj1 (readCommands_stream newSessionParser (encode (TabClosed 7)))
           [(kCommandTabClosed, le 4 7)] [x05]).
  apply (framed_cons x05 x00 x10 (le 4 7) []); [vm_compute; discriminate..|].
  constructor.
Defined.

(** ** The header *)

Section Header.

Context `{SortSlice}.
Variable ExtractDomain : string → string.

Lemma validHeader_iff fh :
  validHeader fh
  ↔ (8 ≤ length fh)%nat ∧ take 4 fh = [x53; x4e; x53; x53]
    ∧ (u32 (drop 4 fh) = 1 ∨ u32 (drop 4 fh) = 3).
Proof.
  split.
  - intros (ver & rest & Hver & ->). unfold header.
    rewrite <- app_assoc. split_and!.
    + rewrite !length_app, length_le. simpl. lia.
    + done.
    + change (drop 4 ([x53; x4e; x53; x53] ++ le 4 ver ++ rest)) with (le 4 ver ++ rest).
      rewrite u32_le by (destruct Hver as [-> | ->]; done). done.
  - intros (Hlen & Hmagic & Hver).
    exists (u32 (drop 4 fh)), (drop 8 fh). split; [done|].
    unfold header. rewrite le_u32 by (rewrite length_drop; lia).
    rewrite <- Hmagic, <- app_assoc.
    replace (drop 8 fh) with (drop 4 (drop 4 fh)) by (by rewrite drop_drop).
    by rewrite !take_drop.
Qed.

Lemma parseSessionFile_invalid_header tabOrder winOrder fh browserName :
  ¬ validHeader fh →
  parseSessionFile ExtractDomain tabOrder winOrder fh browserName
  = Failed (headerErrorOf fh).
Proof.
  rewrite validHeader_iff. intros Hinv.
  unfold parseSessionFile, headerErrorOf.
  destruct (decide (length fh < 4)%nat) as [Hlen|Hlen].
  { rewrite ReadFull_short by (unfold blen; lia). done. }
  rewrite ReadFull_enough by (unfold blen; lia). simpl.
  change (Pos.to_nat 4) with 4%nat.
  destruct (decide (take 4 fh ≠ [x53; x4e; x53; x53])) as [Hm|Hm].
  { by rewrite bool_decide_eq_true_2. }
  rewrite bool_decide_eq_false_2 by done.
  rewrite readUint32_total, length_drop.
  destruct (decide (length fh < 8)%nat) as [Hv|Hv].
  { by rewrite decide_False by lia. }
  rewrite decide_True by lia.
  apply dec_stable in Hm.
  assert (u32 (drop 4 fh) ≠ 1 ∧ u32 (drop 4 fh) ≠ 3) as [H1 H3].
  { split; intros E; apply Hinv; split_and!; (lia || done || auto). }
  by rewrite !bool_decide_eq_true_2.
Qed.

(** X10: a file is accepted or rejected on its first eight bytes.  A
    file that does not start with the magic bytes and version 1 or 3 is
    rejected with the error of the first check that fails (fewer than 4
    bytes, other magic bytes, fewer than 4 bytes of version, another
    version), whatever follows, and no record is read; a file that does
    start with them fails only with a truncation error. *)
Theorem parseSessionFile_header_check tabOrder winOrder fh browserName :
  (¬ validHeader fh →
   parseSessionFile ExtractDomain tabOrder winOrder fh browserName
   = Failed (headerErrorOf fh))
  ∧ (validHeader fh →
     ∀ e, parseSessionFile ExtractDomain tabOrder winOrder fh browserName = Failed e →
          truncationError e).
Proof.
  split; [apply parseSessionFile_invalid_header|].
  intros (ver & rest & Hver & ->) e.
  rewrite parseSessionFile_header by done.
  destruct (readCommands newSessionParser rest) as [p|e'|k] eqn:Hrc; [done| |done].
  intros [= <-]. by apply (readCommands_failed_inv (length rest) _ _ _ (Nat.le_refl _) Hrc).
Qed.

End Header.

Lemma parseSessionFile_header_check_witness :
  ¬ validHeader (header 2 ++ [x00; x00; x05])
  ∧ parseSessionFile (H := insertionSortSlice) (λ _, EmptyString) [] []
      (header 2 ++ [x00; x00; x05]) "Chrome"
    = Failed (ErrUnsupportedVersion 2).
Proof.
  assert (¬ validHeader (header 2 ++ [x00; x00; x05])) as Hinv.
  { rewrite validHeader_iff. intros (_ & _ & [E|E]); vm_compute in E; discriminate. }
  split; [done|].
  exact (proj1 (parseSessionFile_header_check (H := insertionSortSlice) (λ _, EmptyString)
                  [] [] (header 2 ++ [x00; x00; x05]) "Chrome") Hinv).
Defined.

(** ** The effect of a command on the store *)

Lemma applyCommand_effect c p :
  applyCommand c p
  = mkParser
      (match tabEffect c with
       | Some (id, f) => upsert id (newTab id) f (tabs p)
       | None => tabs p
       end)
      (match windowEffect c with
       | Some (id, f) => upsert id (newWindow id) f (windows p)
       | None => windows p
       end)
      (match groupEffect c with
       | Some (high, low, f) =>
           upsert (groupKey high low) (mkGroup high low EmptyString) f (groups p)
       | None => groups p
       end)
      (match c with SetActiveWindow id => Some id | _ => activeWindow p end).
Proof.
  destruct p as [ts ws gs aw].
  destruct c; cbn [applyCommand tabEffect windowEffect groupEffect];
    unfold getTab, getWindow, getGroup, putTab, putWindow, putGroup, upsert;
    cbn [tabs windows groups activeWindow];
    repeat match goal with
           | |- context [?m !! ?k] =>
               let E := fresh "E" in
               destruct (m !! k) eqn:E;
               cbn [tabs windows groups activeWindow default]
           end;
    cbn [tabs windows groups activeWindow default];
    rewrite ?insert_insert_eq; try done.
  all: unfold Datatypes.id; f_equal; by rewrite insert_id.
Qed.

Lemma lookup_upsert `{Countable K} {A} (k k' : K) (new : A) f (m : gmap K A) :
  upsert k new f m !! k'
  = if decide (k = k') then Some (f (default new (m !! k))) else m !! k'.
Proof.
  unfold upsert. case_decide as E.
  - subst. by rewrite lookup_insert_eq.
  - by rewrite lookup_insert_ne.
Qed.

Lemma upsert_is_Some `{Countable K} {A} (k k' : K) (new : A) f (m : gmap K A) :
  is_Some (m !! k') → is_Some (upsert k new f m !! k').
Proof. rewrite lookup_upsert. case_decide; [by eexists|done]. Qed.

Lemma upsert_is_Some_eq `{Countable K} {A} (k : K) (new : A) f (m : gmap K A) :
  is_Some (upsert k new f m !! k).
Proof. rewrite lookup_upsert, decide_True by done. by eexists. Qed.

(** ** Invariants of the store *)

Lemma applyCommand_wellKeyed c p : wellKeyed p → wellKeyed (applyCommand c p).
Proof.
  intros (Ht & Hw & Hg & Htg & Haw). rewrite applyCommand_effect.
  unfold wellKeyed; cbn [tabs windows groups activeWindow].
  split_and!.
  - intros id t.
    destruct c; cbn [tabEffect]; try apply Ht;
      rewrite lookup_upsert; case_decide; try apply Ht; subst;
      intros [= <-]; destruct (tabs p !! _) eqn:E; simpl; eauto.
  - intros id w.
    destruct c; cbn [windowEffect]; try apply Hw;
      rewrite lookup_upsert; case_decide; try apply Hw; subst;
      intros [= <-]; destruct (windows p !! _) eqn:E; simpl; eauto.
  - intros key g.
    destruct c; cbn [groupEffect]; try apply Hg;
      rewrite lookup_upsert; case_decide; try apply Hg; subst;
      intros [= <-]; destruct (groups p !! _) eqn:E; simpl; try done;
      apply Hg in E; done.
  - intros id t key.
    destruct c; cbn [tabEffect groupEffect]; try apply Htg;
      rewrite ?lookup_upsert; repeat case_decide; subst;
      try (intros [= <-]; destruct (tabs p !! _) eqn:E; simpl; try done);
      eauto using upsert_is_Some, upsert_is_Some_eq; congruence.
  - intros k.
    destruct c; cbn [windowEffect]; try apply Haw;
      intros Hk; try (apply upsert_is_Some; by apply Haw).
    injection Hk as ->. apply upsert_is_Some_eq.
Qed.

Lemma reachable_wellKeyed p : reachable p → wellKeyed p.
Proof.
  induction 1 as [|p typ data p' _ IH Hstep].
  - unfold wellKeyed, newSessionParser. simpl.
    split_and!; intros *; rewrite ?lookup_empty; done.
  - unfold processCommand in Hstep.
    destruct (decodeCommand typ data) as [[c r]|]; [|done].
    injection Hstep as <-. by apply applyCommand_wellKeyed.
Qed.

(** X11: in the store a parse hands to the assembler, every tab and
    every window is filed under its own id and every group under the key
    built from its own token; the group a tab points to is a group of the
    store, and the active window is a window of the store. *)
Theorem readCommands_wellKeyed fh p :
  readCommands newSessionParser fh = Returned p → wellKeyed p.
Proof.
  intros Hrc. apply reachable_wellKeyed.
  by apply (readCommands_reachable (length fh) fh newSessionParser p
              (Nat.le_refl _) reachable_new).
Qed.

Lemma readCommands_wellKeyed_witness : wellKeyed (storeOf collidingGroups).
Proof.
  apply (readCommands_wellKeyed (flat_map encode collidingGroups)).
  vm_compute. reflexivity.
Defined.

(** ** Nothing leaves the store *)

Lemma upsertHistory_idx histIdx urlStr title history :
  h_idx <$> upsertHistory histIdx urlStr title history
  = if decide (histIdx ∈ h_idx <$> history) then h_idx <$> history
    else (h_idx <$> history) ++ [histIdx].
Proof.
  unfold upsertHistory.
  destruct (list_find _ history) as [[i x]|] eqn:Hfind.
  - apply list_find_Some in Hfind as (Hi & Hx & _).
    rewrite decide_True.
    2:{ apply list_elem_of_fmap. exists x. split; [done|]. by eapply list_elem_of_lookup_2. }
    rewrite list_fmap_insert. simpl.
    rewrite list_insert_id; [done|].
    by rewrite list_lookup_fmap, Hi, <- Hx.
  - apply list_find_None in Hfind. rewrite decide_False.
    2:{ intros (x & Hx & Hin)%list_elem_of_fmap.
        rewrite Forall_forall in Hfind. by eapply Hfind. }
    by rewrite fmap_app.
Qed.

Lemma extends_refl p : extends p p.
Proof.
  unfold extends. split_and!; [intros id t Ht; by exists t
                              |intros id w Hw; by exists w
                              |intros key g Hg; by exists g|done].
Qed.

Lemma extends_trans p q r : extends p q → extends q r → extends p r.
Proof.
  intros (Ht1 & Hw1 & Hg1 & Ha1) (Ht2 & Hw2 & Hg2 & Ha2). split_and!.
  - intros id t Ht. destruct (Ht1 _ _ Ht) as (t' & Ht' & Hd & Hh & Hgr).
    destruct (Ht2 _ _ Ht') as (t'' & Ht'' & Hd' & Hh' & Hgr').
    exists t''. split_and!; [done|auto| |auto]. by etrans.
  - intros id w Hw. destruct (Hw1 _ _ Hw) as (w' & Hw' & Hd).
    destruct (Hw2 _ _ Hw') as (w'' & Hw'' & Hd').
    exists w''. split; [done|auto].
  - intros key g Hg. destruct (Hg1 _ _ Hg) as (g' & Hg' & Hh & Hl).
    destruct (Hg2 _ _ Hg') as (g'' & Hg'' & Hh' & Hl').
    exists g''. split_and!; [done|congruence..].
  - auto.
Qed.

Lemma applyCommand_extends c p : extends p (applyCommand c p).
Proof.
  rewrite applyCommand_effect. unfold extends.
  cbn [tabs windows groups activeWindow]. split_and!.
  - intros id t Ht.
    destruct c; cbn [tabEffect]; try (by exists t);
      rewrite lookup_upsert; case_decide; try (by exists t); subst;
      rewrite Ht; eexists; (split; [done|]); simpl; try done.
    split_and!; [done| |done].
    rewrite upsertHistory_idx. case_decide; [done|].
    intros x Hx. apply elem_of_app. by left.
  - intros id w Hw.
    destruct c; cbn [windowEffect]; try (by exists w);
      rewrite lookup_upsert; case_decide; try (by exists w); subst;
      rewrite Hw; eexists; (split; [done|]); simpl; done.
  - intros key g Hg.
    destruct c; cbn [groupEffect]; try (by exists g);
      rewrite lookup_upsert; case_decide; try (by exists g); subst;
      rewrite Hg; eexists; (split; [done|]); simpl; done.
  - destruct c; done.
Qed.

Lemma replay_extends recs : ∀ p p', replay recs p = Done p' → extends p p'.
Proof.
  induction recs as [|[typ payload] recs IH]; intros p p' Hre; simpl in Hre.
  - injection Hre as <-. apply extends_refl.
  - unfold processCommand in Hre.
    destruct (decodeCommand typ payload) as [[c r]|]; [|done].
    eapply extends_trans; [apply (applyCommand_extends c)|by apply IH].
Qed.

(** X12: reading records never takes anything out of the store.  In the
    store the loop returns, every tab, window and group that was there
    before is still there; a tab or window that was closed is still
    closed, so no later record reopens it; the history of a tab still
    holds every index it held; a group keeps its token, a grouped tab
    stays grouped, and an active window stays designated. *)
Theorem readCommands_extends p fh p' :
  readCommands p fh = Returned p' → extends p p'.
Proof.
  intros Hrc.
  apply (readCommands_returned_inv (length fh)) in Hrc as (recs & _ & Hre); [|done].
  by eapply replay_extends.
Qed.

Lemma readCommands_extends_witness :
  extends (storeOf [TabClosed 7])
          (storeOf [TabClosed 7; UpdateTabNavigation 7 0 "http://a" "A"]).
Proof.
  apply (readCommands_extends _
           (encode (UpdateTabNavigation 7 0 "http://a" "A"))).
  vm_compute. reflexivity.
Defined.

(** ** Frame and commutation *)

Lemma upsert_commute `{Countable K} {A} (k1 k2 : K) (n1 n2 : A) f1 f2 (m : gmap K A) :
  k1 ≠ k2 →
  upsert k1 n1 f1 (upsert k2 n2 f2 m) = upsert k2 n2 f2 (upsert k1 n1 f1 m).
Proof.
  intros Hne. unfold upsert.
  rewrite !lookup_insert_ne by done. by apply insert_insert_ne.
Qed.

Lemma filter_insert_other {A} (P Q : A → Prop) `{∀ x, Decision (P x)} (l : list A) i x y :
  l !! i = Some x → ¬ P x → ¬ P y → filter P (<[i := y]> l) = filter P l.
Proof.
  intros Hi Hx Hy.
  rewrite insert_take_drop by (by eapply lookup_lt_Some).
  rewrite <- (take_drop_middle l i x) at 3 by done.
  rewrite !filter_app, !filter_cons_False by done. done.
Qed.

Lemma upsertHistory_others histIdx urlStr title history :
  filter (λ h, h_idx h ≠ histIdx) (upsertHistory histIdx urlStr title history)
  = filter (λ h, h_idx h ≠ histIdx) history.
Proof.
  unfold upsertHistory.
  destruct (list_find _ history) as [[i x]|] eqn:Hfind.
  - apply list_find_Some in Hfind as (Hi & Hx & _).
    apply (filter_insert_other _ (λ _, True) _ _ x); [done|..]; simpl; tauto.
  - rewrite filter_app, filter_cons_False by (simpl; tauto).
    by rewrite filter_nil, app_nil_r.
Qed.

(** X13: a command writes the tab, the window and the group it names,
    which are in the store afterwards, and nothing else: every other tab,
    window and group is as before, the active window changes only by
    SetActiveWindow, and a navigation update leaves every history item
    with another index as it was. *)
Theorem applyCommand_frame c p :
  (∀ id, tabOf c ≠ Some id → tabs (applyCommand c p) !! id = tabs p !! id)
  ∧ (∀ id, windowOf c ≠ Some id → windows (applyCommand c p) !! id = windows p !! id)
  ∧ (∀ key, groupOf c ≠ Some key → groups (applyCommand c p) !! key = groups p !! key)
  ∧ (¬ activates c → activeWindow (applyCommand c p) = activeWindow p)
  ∧ (∀ id, tabOf c = Some id → is_Some (tabs (applyCommand c p) !! id))
  ∧ (∀ id, windowOf c = Some id → is_Some (windows (applyCommand c p) !! id))
  ∧ (∀ key, groupOf c = Some key → is_Some (groups (applyCommand c p) !! key))
  ∧ (∀ id histIdx urlStr title t t',
       c = UpdateTabNavigation id histIdx urlStr title →
       tabs p !! id = Some t → tabs (applyCommand c p) !! id = Some t' →
       filter (λ h, h_idx h ≠ histIdx) (t_history t')
       = filter (λ h, h_idx h ≠ histIdx) (t_history t)).
Proof.
  rewrite applyCommand_effect. unfold tabOf, windowOf, groupOf.
  cbn [tabs windows groups activeWindow]. split_and!.
  - intros id Hid. destruct (tabEffect c) as [[id' f]|]; [|done].
    rewrite lookup_upsert, decide_False; [done|]. simpl in Hid. congruence.
  - intros id Hid. destruct (windowEffect c) as [[id' f]|]; [|done].
    rewrite lookup_upsert, decide_False; [done|]. simpl in Hid. congruence.
  - intros key Hkey. destruct (groupEffect c) as [[[high low] f]|]; [|done].
    rewrite lookup_upsert, decide_False; [done|]. simpl in Hkey. congruence.
  - destruct c; simpl; tauto.
  - intros id Hid. destruct (tabEffect c) as [[id' f]|]; [|done].
    injection Hid as ->. apply upsert_is_Some_eq.
  - intros id Hid. destruct (windowEffect c) as [[id' f]|]; [|done].
    injection Hid as ->. apply upsert_is_Some_eq.
  - intros key Hkey. destruct (groupEffect c) as [[[high low] f]|]; [|done].
    injection Hkey as <-. apply upsert_is_Some_eq.
  - intros id histIdx urlStr title t t' -> Ht. cbn [tabEffect].
    rewrite lookup_upsert, decide_True, Ht by done. intros [= <-]. simpl.
    apply upsertHistory_others.
Qed.

Lemma applyCommand_frame_witness :
  tabOf (TabClosed 7) ≠ Some 8
  ∧ tabs (applyCommand (TabClosed 7) (storeOf [SetTabWindow 1 8])) !! 8
    = tabs (storeOf [SetTabWindow 1 8]) !! 8.
Proof.
  assert (tabOf (TabClosed 7) ≠ Some 8) as Hne by (vm_compute; discriminate).
  split; [done|].
  exact (proj1 (applyCommand_frame (TabClosed 7) (storeOf [SetTabWindow 1 8])) 8 Hne).
Defined.

(** X14: two commands that name different objects commute: the store
    after both does not depend on which of the two records comes first in
    the file. *)
Theorem applyCommand_commute c1 c2 p :
  independent c1 c2 →
  applyCommand c1 (applyCommand c2 p) = applyCommand c2 (applyCommand c1 p).
Proof.
  unfold independent, tabOf, windowOf, groupOf.
  intros (Ht & Hw & Hg & Ha). rewrite !applyCommand_effect.
  cbn [tabs windows groups activeWindow]. f_equal.
  - destruct (tabEffect c1) as [[id1 f1]|], (tabEffect c2) as [[id2 f2]|]; try done.
    apply upsert_commute. intros ->. by apply (Ht id2).
  - destruct (windowEffect c1) as [[id1 f1]|], (windowEffect c2) as [[id2 f2]|]; try done.
    apply upsert_commute. intros ->. by apply (Hw id2).
  - destruct (groupEffect c1) as [[[h1 l1] f1]|], (groupEffect c2) as [[[h2 l2] f2]|];
      try done.
    apply upsert_commute. intros E. simpl in Hg. by apply (Hg (groupKey h1 l1)); rewrite ?E.
  - destruct c1, c2; try done. simpl in Ha. tauto.
Qed.

Lemma applyCommand_commute_witness :
  independent (TabClosed 7) (SetTabWindow 1 8)
  ∧ storeOf [SetTabWindow 1 8; TabClosed 7] = storeOf [TabClosed 7; SetTabWindow 1 8].
Proof.
  assert (independent (TabClosed 7) (SetTabWindow 1 8)) as Hind.
  { unfold independent. split_and!; try (intros ? [= <-]; done); try done.
    simpl. tauto. }
  split; [done|].
  exact (applyCommand_commute (TabClosed 7) (SetTabWindow 1 8) newSessionParser Hind).
Defined.

(** X15: a tab is named after its group whether the record that names
    the group comes before or after the record that puts the tab in it:
    both orders leave the same store, in which the tab points to the group
    and the group name resolved for the tab is the name given. *)
Theorem group_name_either_order id high low name p :
  let assign := SetTabGroup id high low in
  let label := SetTabGroupMetadata2 high low name in
  applyCommand label (applyCommand assign p) = applyCommand assign (applyCommand label p)
  ∧ ∃ t, tabs (applyCommand label (applyCommand assign p)) !! id = Some t
         ∧ t_group t = Some (groupKey high low)
         ∧ groupNameOf (applyCommand label (applyCommand assign p)) t = name.
Proof.
  intros assign label. unfold assign, label.
  rewrite !applyCommand_effect.
  cbn [tabs windows groups activeWindow tabEffect windowEffect groupEffect].
  split.
  - f_equal. unfold upsert. rewrite !lookup_insert_eq, !insert_insert_eq. done.
  - eexists. split_and!.
    + unfold upsert. apply lookup_insert_eq.
    + done.
    + unfold groupNameOf. cbn [t_group tab_with_group groups].
      unfold upsert. rewrite !lookup_insert_eq. simpl.
      case_bool_decide as E; [done|]. simpl in E. destruct (decide (name = EmptyString)); [done|tauto].
Qed.

(** ** The entries *)

Section Output.

Context `{SortSlice}.
Variable ExtractDomain : string → string.

Lemma elem_of_buildTabEntries tabOrder winOrder p browserName e :
  e ∈ buildTabEntries ExtractDomain tabOrder winOrder p browserName →
  ∃ j kw i t,
    liveWindows (assemble tabOrder p) winOrder !! j = Some kw
    ∧ keptTabs (w_tabs kw.2) !! i = Some t
    ∧ e = entryOf ExtractDomain (assemble tabOrder p) browserName kw.2 (N.of_nat j + 1)
            (bool_decide (activeWindow (assemble tabOrder p) = Some kw.1))
            (N.of_nat i) t.
Proof.
  rewrite buildTabEntries_windows. intros (l & He & Hl)%list_elem_of_join.
  apply elem_of_lookup_imap in Hl as (j & kw & -> & Hj).
  apply elem_of_lookup_imap in He as (i & t & -> & Hi).
  by exists j, kw, i, t.
Qed.

Lemma windowEntries_WindowID p browserName w windowID act :
  Forall (λ e, WindowID e = windowID)
    (windowEntries ExtractDomain p browserName w windowID act).
Proof.
  apply Forall_forall. intros e He.
  by apply elem_of_lookup_imap in He as (i & t & -> & _).
Qed.

Lemma StronglySorted_same_key {A} (key : A → N) (k : N) (l : list A) :
  Forall (λ x, key x = k) l → StronglySorted (λ a b, key a ≤ key b) l.
Proof.
  induction 1 as [|x l Hx Hl IH]; constructor; [done|].
  eapply Forall_impl; [exact Hl|]. simpl. intros y Hy. lia.
Qed.

Lemma windowIDs_from p browserName (act : N * sessionWindow → bool)
    (l : list (N * sessionWindow)) : ∀ n,
  let es := mjoin (imap (λ j kw, windowEntries ExtractDomain p browserName kw.2
                                   (N.of_nat (n + j) + 1) (act kw)) l) in
  Forall (λ e, N.of_nat n + 1 ≤ WindowID e ≤ N.of_nat (n + length l)) es
  ∧ StronglySorted (λ a b, WindowID a ≤ WindowID b) es.
Proof.
  induction l as [|kw l IH]; intros n; [split; constructor|].
  cbn zeta. rewrite imap_cons. cbn [mjoin list_join].
  rewrite (imap_ext _ (λ j kw, windowEntries ExtractDomain p browserName kw.2
                                 (N.of_nat (S n + j) + 1) (act kw)))
    by (intros j x _; simpl; do 3 f_equal; lia).
  destruct (IH (S n)) as [Hr Hs].
  pose proof (windowEntries_WindowID p browserName kw.2 (N.of_nat (n + 0) + 1) (act kw)) as Hw.
  split.
  - apply Forall_app. split.
    + eapply Forall_impl; [exact Hw|]. simpl. intros e ->. lia.
    + eapply Forall_impl; [exact Hr|]. simpl. intros e ?. lia.
  - apply StronglySorted_app. split_and!.
    + intros x y Hx Hy. rewrite Forall_forall in Hw, Hr.
      rewrite (Hw x Hx). specialize (Hr y Hy). simpl in Hr. lia.
    + by eapply StronglySorted_same_key.
    + done.
Qed.

(** X16: what every entry carries.  The browser name is the one given,
    pinned is false, the domain is taken from the URL of the entry, and
    the group is empty or the name of a group of the store; window
    identifiers run from 1 to the number of visited windows that are not
    deleted, and the entries come window by window, in ascending
    identifier. *)
Theorem buildTabEntries_fields tabOrder winOrder p browserName :
  let es := buildTabEntries ExtractDomain tabOrder winOrder p browserName in
  Forall (λ e, Browser e = browserName ∧ Pinned e = false
               ∧ Domain e = ExtractDomain (URL e)
               ∧ 1 ≤ WindowID e ≤ N.of_nat (length (liveWindows (assemble tabOrder p) winOrder))
               ∧ (Group e = EmptyString
                  ∨ ∃ key g, groups p !! key = Some g ∧ Group e = g_name g)) es
  ∧ StronglySorted (λ a b, WindowID a ≤ WindowID b) es.
Proof.
  intros es. split.
  - apply Forall_forall. intros e He.
    apply elem_of_buildTabEntries in He as (j & kw & i & t & Hj & Hi & ->).
    apply lookup_lt_Some in Hj. simpl. split_and!; [done..|lia|lia|].
    unfold groupNameOf. rewrite assemble_groups.
    destruct (t_group t) as [key|]; [|by left].
    destruct (groups p !! key) as [g|] eqn:Hg; [|by left].
    case_bool_decide; [|by left]. right. by exists key, g.
  - unfold es. rewrite buildTabEntries_windows.
    apply (windowIDs_from (assemble tabOrder p) browserName
             (λ kw, bool_decide (activeWindow (assemble tabOrder p) = Some kw.1)) _ 0).
Qed.

(** *** Sorted tabs and histories *)

Lemma sortedHistory_sorted t :
  StronglySorted (λ a b, h_idx a ≤ h_idx b) (t_history (sortedHistory t))
  ∧ h_idx <$> t_history (sortedHistory t) ≡ₚ h_idx <$> t_history t.
Proof.
  unfold sortedHistory. simpl. split.
  - apply (sortSlice_sorted _ h_idx).
  - by rewrite sortSlice_perm.
Qed.

Lemma elem_of_tabsOfWindow p tabOrder k t :
  t ∈ tabsOfWindow p tabOrder k
  ↔ ∃ id t0, id ∈ tabOrder ∧ tabs p !! id = Some t0 ∧ t_win t0 = k
             ∧ t = sortedHistory t0.
Proof.
  unfold tabsOfWindow, visitedTabs.
  rewrite list_elem_of_filter, list_elem_of_fmap. split.
  - intros (Hw & t0 & -> & Hin). apply list_elem_of_omap in Hin as (id & Hid & Ht0).
    by exists id, t0.
  - intros (id & t0 & Hid & Ht0 & Hw & ->). split; [done|].
    exists t0. split; [done|]. apply list_elem_of_omap. by exists id.
Qed.

(** X17: the tabs the assembler emits from a store built by a parse.
    The tabs of a window are in ascending tab index, the history of each
    is in ascending navigation index and holds each index once.  So a
    tab without history resolves to nothing; a tab whose selected index
    is in the history with a URL resolves to that item; and a tab whose
    selected index is not in the history resolves to the item with the
    greatest index. *)
Theorem assembled_tab_resolution tabOrder p k w t :
  NoDup tabOrder → reachable p →
  windows (assemble tabOrder p) !! k = Some w → t ∈ w_tabs w →
  StronglySorted (λ a b, t_idx a ≤ t_idx b) (w_tabs w)
  ∧ StronglySorted (λ a b, h_idx a ≤ h_idx b) (t_history t)
  ∧ NoDup (h_idx <$> t_history t)
  ∧ (t_history t = [] → resolveTab t = (EmptyString, EmptyString))
  ∧ (∀ h, h ∈ t_history t → h_idx h = t_currentHistoryIdx t →
          h_url h ≠ EmptyString → resolveTab t = (h_url h, h_title h))
  ∧ ((∀ h, h ∈ t_history t → h_idx h ≠ t_currentHistoryIdx t) →
     t_history t ≠ [] →
     ∃ l, last (t_history t) = Some l
          ∧ resolveTab t = (h_url l, h_title l)
          ∧ ∀ h, h ∈ t_history t → h_idx h ≤ h_idx l).
Proof.
  intros Hnd Hreach Hw Ht.
  pose proof (reachable_tablessWindows p Hreach) as Htl.
  pose proof (reachable_historyUnique p Hreach) as Hu.
  destruct (assemble_window _ _ _ _ Hnd Htl Hw) as (Htabs & _ & _).
  assert (StronglySorted (λ a b, t_idx a ≤ t_idx b) (w_tabs w)) as Hsorted.
  { rewrite Htabs. apply (sortSlice_sorted _ t_idx). }
  rewrite Htabs, sortSlice_perm in Ht.
  apply elem_of_tabsOfWindow in Ht as (id & t0 & _ & Ht0 & _ & ->).
  destruct (sortedHistory_sorted t0) as [Hs Hp].
  assert (NoDup (h_idx <$> t_history (sortedHistory t0))) as Hnd'.
  { rewrite Hp. by eapply Hu. }
  split_and!; [done..| | |]; by apply resolveTab_cases.
Qed.

(** *** The order in which the tabs are visited *)

Lemma tabsOfWindow_Permutation p o1 o2 k :
  o1 ≡ₚ o2 → tabsOfWindow p o1 k ≡ₚ tabsOfWindow p o2 k.
Proof. intros Hp. unfold tabsOfWindow, visitedTabs. by rewrite Hp. Qed.

Lemma tabsOfWindow_cons p id tabOrder k :
  tabsOfWindow p (id :: tabOrder) k
  = match tabs p !! id with
    | Some t => if decide (t_win t = k)
                then sortedHistory t :: tabsOfWindow p tabOrder k
                else tabsOfWindow p tabOrder k
    | None => tabsOfWindow p tabOrder k
    end.
Proof.
  unfold tabsOfWindow, visitedTabs. csimpl.
  destruct (tabs p !! id) as [t|]; [|done]. csimpl.
  case_decide.
  - by rewrite filter_cons_True by done.
  - by rewrite filter_cons_False by done.
Qed.

Lemma tabsOfWindow_distinct p tabOrder k :
  NoDup tabOrder → distinctTabIndices p →
  NoDup (t_idx <$> tabsOfWindow p tabOrder k).
Proof.
  intros Hnd Hd. induction Hnd as [|id tabOrder Hid Hnd IH]; [constructor|].
  rewrite tabsOfWindow_cons.
  destruct (tabs p !! id) as [t|] eqn:Ht; [|done].
  case_decide as Hw; [|done].
  rewrite fmap_cons. apply NoDup_cons. split; [|done].
  intros (t' & Hidx & Hin)%list_elem_of_fmap.
  apply elem_of_tabsOfWindow in Hin as (id2 & t2 & Hid2 & Ht2 & Hw2 & ->).
  simpl in Hidx.
  apply (Hd id id2 t t2); [done..| |congruence|done].
  intros ->. done.
Qed.

Lemma sortSlice_unique {A} (key : A → N) (l1 l2 : list A) :
  l1 ≡ₚ l2 → NoDup (key <$> l1) →
  sortSlice (λ a b, key a <? key b) l1 = sortSlice (λ a b, key a <? key b) l2.
Proof.
  intros Hp Hnd.
  apply (StronglySorted_unique_strong (λ a b, key a ≤ key b)).
  - intros x1 x2 Hx1 Hx2 Hle Hge.
    rewrite sortSlice_perm in Hx1. rewrite sortSlice_perm, <- Hp in Hx2.
    assert (key x1 = key x2) as Hk by lia.
    pose proof (filter_unique_key key (key x1) l1 x1 Hnd Hx1 eq_refl) as F1.
    pose proof (filter_unique_key key (key x1) l1 x2 Hnd Hx2 (eq_sym Hk)) as F2.
    congruence.
  - apply sortSlice_sorted.
  - apply sortSlice_sorted.
  - by rewrite !sortSlice_perm.
Qed.

Lemma assemble_windows_tabOrder o1 o2 p :
  NoDup o1 → NoDup o2 → o1 ≡ₚ o2 → tablessWindows p → distinctTabIndices p →
  windows (assemble o1 p) = windows (assemble o2 p).
Proof.
  intros Hn1 Hn2 Hp Htl Hd. apply map_eq. intros k.
  unfold assemble, sortWindowTabs. cbn [windows].
  rewrite !lookup_fmap, !fold_associateTab_windows by done.
  pose proof (tabsOfWindow_Permutation p o1 o2 k Hp) as Hperm.
  pose proof (tabsOfWindow_distinct p o1 k Hn1 Hd) as Hdis.
  pose proof (sortSlice_unique t_idx _ _ Hperm Hdis) as Hsort.
  destruct (windows p !! k) as [w|] eqn:Hw; simpl.
  - rewrite (Htl _ _ Hw). simpl. unfold window_with_tabs. simpl. by rewrite Hsort.
  - destruct (decide (tabsOfWindow p o1 k = [])) as [E1|E1],
             (decide (tabsOfWindow p o2 k = [])) as [E2|E2]; simpl.
    + done.
    + rewrite E1 in Hperm. by apply Permutation_nil in Hperm.
    + rewrite E2 in Hperm. by apply Permutation_nil_r in Hperm.
    + unfold window_with_tabs. simpl. by rewrite Hsort.
Qed.

Lemma windowEntries_store p1 p2 browserName w windowID act :
  groups p1 = groups p2 →
  windowEntries ExtractDomain p1 browserName w windowID act
  = windowEntries ExtractDomain p2 browserName w windowID act.
Proof.
  intros Hg. unfold windowEntries. apply imap_ext. intros i t _. simpl.
  unfold entryOf, groupNameOf. by rewrite Hg.
Qed.

(** X18: when no two tabs of a window have the same index in the
    window, the entries do not depend on the order in which the tabs of
    the store are visited. *)
Theorem buildTabEntries_tabOrder o1 o2 winOrder p browserName :
  NoDup o1 → NoDup o2 → o1 ≡ₚ o2 → tablessWindows p → distinctTabIndices p →
  buildTabEntries ExtractDomain o1 winOrder p browserName
  = buildTabEntries ExtractDomain o2 winOrder p browserName.
Proof.
  intros Hn1 Hn2 Hp Htl Hd. rewrite !buildTabEntries_windows.
  unfold liveWindows.
  rewrite (assemble_windows_tabOrder o1 o2 p) by done.
  rewrite !assemble_activeWindow. f_equal. apply imap_ext. intros j kw _. simpl.
  apply windowEntries_store. by rewrite !assemble_groups.
Qed.

End Output.

(** ** Session directories *)

(** X19: the session directory of a browser.  GetSessionPath returns
    without error only on Linux, macOS or Windows with a home directory,
    and then for a Chromium-based browser, or for Auto with an empty
    path; an error comes with an empty path.  For a Chromium-based
    browser the only errors are those of the environment, and on a
    supported platform with a home directory the result is a path joined
    to the home directory, or on Windows to LOCALAPPDATA when it is
    set. *)
Theorem GetSessionPath_chromium (Join : string → string → string) pf t :
  (∀ path, GetSessionPath Join pf t = (path, None) →
     is_Some (UserHomeDir pf) ∧ supportedOS pf
     ∧ (IsChromiumBased t = true ∨ (t = Auto ∧ path = EmptyString)))
  ∧ (∀ path e, GetSessionPath Join pf t = (path, Some e) →
       path = EmptyString
       ∧ (IsChromiumBased t = true → e = ErrUserHomeDir ∨ e = ErrUnsupportedPlatform))
  ∧ (∀ home, IsChromiumBased t = true → UserHomeDir pf = Some home → supportedOS pf →
       ∃ base rel,
         GetSessionPath Join pf t = (Join base rel, None)
         ∧ (GOOS pf ≠ "windows"%string → base = home)
         ∧ (GOOS pf = "windows"%string → LOCALAPPDATA pf ≠ EmptyString →
            base = LOCALAPPDATA pf)).
Proof.
  unfold GetSessionPath, supportedOS, getWindowsSessionPath. split_and!.
  - intros path. destruct (UserHomeDir pf) as [home|]; [|done].
    repeat case_decide; destruct t; simpl; intros [= <-];
      split_and!; eauto.
  - intros path e. destruct (UserHomeDir pf) as [home|].
    2:{ intros [= <- <-]. eauto. }
    repeat case_decide; destruct t; simpl; intros [= <- <-]; split; try done; eauto.
  - intros home Ht -> Hos.
    destruct (decide (GOOS pf = "linux"%string)) as [E|E].
    { destruct t; try done; simpl; eexists _, _; split_and!; try done; congruence. }
    destruct (decide (GOOS pf = "darwin"%string)) as [E'|E'].
    { destruct t; try done; simpl; eexists _, _; split_and!; try done; congruence. }
    rewrite decide_True by tauto.
    destruct (decide (LOCALAPPDATA pf = EmptyString)) as [El|El];
      destruct t; try done; simpl; eexists _, _; split_and!; try done; tauto.
Qed.

Lemma GetSessionPath_chromium_witness :
  GetSessionPath slashJoin
    (mkPlatform "linux" (Some "/home/u"%string) EmptyString) Chrome
  = ("/home/u/.config/google-chrome/Default/Sessions"%string, None)
  ∧ supportedOS (mkPlatform "linux" (Some "/home/u"%string) EmptyString).
Proof.
  split; [reflexivity|].
  exact (proj1 (proj2 (proj1 (GetSessionPath_chromium
           slashJoin
           (mkPlatform "linux" (Some "/home/u"%string) EmptyString) Chrome)
           "/home/u/.config/google-chrome/Default/Sessions"%string eq_refl))).
Defined.

(** ** The latest session file *)

Section Latest.

Variable Join : string → string → string.

Lemma sessionFileName_nonempty name : sessionFileName name = true → name ≠ EmptyString.
Proof. by intros Hn ->. Qed.

Lemma scanEntry_eligible dir file time e :
  scanEntry Join dir (file, time) e
  = match eligible e with
    | Some mt => if (time <? mt)%Z then (Join dir (de_Name e), mt) else (file, time)
    | None => (file, time)
    end.
Proof.
  unfold scanEntry, eligible, sessionFileName.
  destruct (de_IsDir e); [done|].
  by destruct (String.prefix "Session_" (de_Name e)),
              (String.prefix "Tabs_" (de_Name e)).
Qed.

Lemma candidate_eligible e mt : candidate e mt ↔ eligible e = Some mt ∧ (0 < mt)%Z.
Proof.
  unfold candidate, eligible. destruct (de_IsDir e).
  { split; [by intros (? & _)|by intros (? & _)]. }
  destruct (sessionFileName (de_Name e)).
  - split; [by intros (_ & _ & ? & ?)|by intros (? & ?)].
  - split; [by intros (_ & ? & _)|by intros (? & _)].
Qed.

Lemma scanned_snoc dir entries st x :
  scanned Join dir entries st → scanned Join dir (entries ++ [x]) (scanEntry Join dir st x).
Proof.
  destruct st as [file time]. rewrite scanEntry_eligible.
  intros [ [ [= -> ->] Hnone] |(i & e & Hi & Hc & Hf & Hmax & Hfirst)]; simpl in *.
  - destruct (eligible x) as [mt|] eqn:Hx.
    + destruct (Z.ltb_spec 0 mt) as [Hlt|Hge].
      * right. exists (length entries), x. simpl. split_and!.
        -- by rewrite lookup_app_r, Nat.sub_diag by done.
        -- apply candidate_eligible. done.
        -- done.
        -- intros e' mt' [Hin| ->%list_elem_of_singleton]%elem_of_app Hc'.
           ++ by destruct (Hnone e' mt' Hin).
           ++ apply candidate_eligible in Hc' as [Hc' _]. rewrite Hx in Hc'.
              injection Hc' as <-. lia.
        -- intros j e' mt' Hj Hl Hc'. rewrite lookup_app_l in Hl by done.
           apply list_elem_of_lookup_2 in Hl. by destruct (Hnone e' mt' Hl).
      * left. split; [done|].
        intros e' mt' [Hin| ->%list_elem_of_singleton]%elem_of_app Hc'.
        -- by destruct (Hnone e' mt' Hin).
        -- apply candidate_eligible in Hc' as [Hc' ?]. rewrite Hx in Hc'.
           injection Hc' as <-. lia.
    + left. split; [done|].
      intros e' mt' [Hin| ->%list_elem_of_singleton]%elem_of_app Hc'.
      * by destruct (Hnone e' mt' Hin).
      * apply candidate_eligible in Hc' as [Hc' ?]. congruence.
  - pose proof (lookup_lt_Some _ _ _ Hi) as Hlen.
    assert (0 < time)%Z as Hpos by (by destruct Hc as (_ & _ & _ & ?)).
    destruct (eligible x) as [mt|] eqn:Hx.
    + destruct (Z.ltb_spec time mt) as [Hlt|Hge].
      * right. exists (length entries), x. simpl. split_and!.
        -- by rewrite lookup_app_r, Nat.sub_diag by done.
        -- apply candidate_eligible. split; [done|lia].
        -- done.
        -- intros e' mt' [Hin| ->%list_elem_of_singleton]%elem_of_app Hc'.
           ++ specialize (Hmax e' mt' Hin Hc'). lia.
           ++ apply candidate_eligible in Hc' as [Hc' _]. rewrite Hx in Hc'.
              injection Hc' as <-. lia.
        -- intros j e' mt' Hj Hl Hc'. rewrite lookup_app_l in Hl by done.
           apply list_elem_of_lookup_2 in Hl. specialize (Hmax e' mt' Hl Hc'). lia.
      * right. exists i, e. simpl. split_and!.
        -- by rewrite lookup_app_l.
        -- done.
        -- done.
        -- intros e' mt' [Hin| ->%list_elem_of_singleton]%elem_of_app Hc'.
           ++ by apply (Hmax e' mt').
           ++ apply candidate_eligible in Hc' as [Hc' _]. rewrite Hx in Hc'.
              injection Hc' as <-. lia.
        -- intros j e' mt' Hj Hl Hc'. rewrite lookup_app_l in Hl by lia.
           by apply (Hfirst j e' mt').
    + right. exists i, e. simpl. split_and!.
      * by rewrite lookup_app_l.
      * done.
      * done.
      * intros e' mt' [Hin| ->%list_elem_of_singleton]%elem_of_app Hc'.
        -- by apply (Hmax e' mt').
        -- apply candidate_eligible in Hc' as [Hc' _]. congruence.
      * intros j e' mt' Hj Hl Hc'. rewrite lookup_app_l in Hl by lia.
        by apply (Hfirst j e' mt').
Qed.

Lemma scanned_fold dir entries :
  scanned Join dir entries (fold_left (scanEntry Join dir) entries (EmptyString, 0%Z)).
Proof.
  induction entries as [|x entries IH] using rev_ind.
  - left. split; [done|]. intros e mt Hin. by apply elem_of_nil in Hin.
  - rewrite fold_left_app. simpl. by apply scanned_snoc.
Qed.

(** X20: which file findLatestSessionFile returns.  When the directory
    cannot be read the error says so.  Otherwise the candidates are the
    entries that are not directories, are named Session_... or Tabs_...,
    and have a known modification time after the epoch: without a
    candidate the error is that no session file was found, even if
    session files with a time at or before the epoch exist; with one, the
    result is the path of the candidate with the latest modification
    time, the first of them in the listing when several share it. *)
Theorem findLatestSessionFile_latest fs dir :
  (∀ name, name ≠ EmptyString → Join dir name ≠ EmptyString) →
  (ReadDir fs dir = None →
   findLatestSessionFile Join fs dir = (EmptyString, Some ErrReadSessionDir))
  ∧ ∀ entries, ReadDir fs dir = Some entries →
      ((∀ e mt, e ∈ entries → ¬ candidate e mt)
       ∧ findLatestSessionFile Join fs dir = (EmptyString, Some (ErrNoSessionFile dir)))
      ∨ ∃ i e mt,
          entries !! i = Some e ∧ candidate e mt
          ∧ findLatestSessionFile Join fs dir = (Join dir (de_Name e), None)
          ∧ (∀ e' mt', e' ∈ entries → candidate e' mt' → (mt' ≤ mt)%Z)
          ∧ (∀ j e' mt', (j < i)%nat → entries !! j = Some e' → candidate e' mt' →
               (mt' < mt)%Z).
Proof.
  intros HJoin. unfold findLatestSessionFile. split.
  - by intros ->.
  - intros entries ->.
    pose proof (scanned_fold dir entries) as Hs.
    destruct (fold_left _ entries _) as [file time].
    destruct Hs as [ [ [= -> ->] Hnone] |(i & e & Hi & Hc & Hf & Hmax & Hfirst)];
      simpl in *.
    + left. split; [done|]. by rewrite ?decide_True by done.
    + right. exists i, e, time. subst file. rewrite decide_False; [done|].
      apply HJoin. apply sessionFileName_nonempty. by destruct Hc as (_ & ? & _).
Qed.

End Latest.

Lemma findLatestSessionFile_latest_witness :
  (∀ name, name ≠ EmptyString → slashJoin "d" name ≠ EmptyString)
  ∧ ∃ i e mt,
      sampleListing !! i = Some e ∧ candidate e mt
      ∧ findLatestSessionFile slashJoin sampleSessions "d"
        = (slashJoin "d" (de_Name e), None).
Proof.
  assert (∀ name, name ≠ EmptyString → slashJoin "d" name ≠ EmptyString) as HJoin.
  { intros name _. done. }
  split; [done|].
  destruct (proj2 (findLatestSessionFile_latest slashJoin sampleSessions "d" HJoin)
              sampleListing eq_refl)
    as [[_ Hnone]|(i & e & mt & Hi & Hc & Hres & _)].
  - vm_compute in Hnone. discriminate.
  - by exists i, e, mt.
Defined.

(** ** Queries *)

Section QueryAll.

Context `{SortSlice}.
Variable ExtractDomain : string → string.
Variable Join : string → string → string.

Lemma parseSessionFile_returned tabOrder winOrder fh name es :
  parseSessionFile ExtractDomain tabOrder winOrder fh name = Returned es →
  ∃ p, es = buildTabEntries ExtractDomain tabOrder winOrder p name.
Proof.
  unfold parseSessionFile.
  destruct (ReadFull 4 fh) as [[[magic [e|]] fh1]|]; try done.
  case_bool_decide; [done|].
  destruct (readUint32 fh1) as [[[ver [e|]] fh2]|]; try done.
  destruct (_ && _); [done|].
  destruct (readCommands _ fh2) as [p| |]; try done.
  intros [= <-]. by exists p.
Qed.

Lemma buildTabEntries_Browser tabOrder winOrder p name e :
  e ∈ buildTabEntries ExtractDomain tabOrder winOrder p name →
  Browser e = name ∧ URL e ≠ EmptyString.
Proof.
  intros (j & kw & i & t & _ & Hi & ->)%elem_of_buildTabEntries. split; [done|].
  simpl. apply list_elem_of_lookup_2 in Hi. unfold keptTabs in Hi.
  by apply list_elem_of_filter in Hi as [[_ ?] _].
Qed.

(** How a query of one browser ends. *)
Lemma QueryTabs_inv fs tabOrder winOrder b path :
  match QueryTabs ExtractDomain Join fs tabOrder winOrder b path with
  | Done (es, None) =>
      IsChromiumBased (b_Type b) = true
      ∧ ∃ file fh, findLatestSessionFile Join fs path = (file, None)
                   ∧ Open fs file = Some fh
                   ∧ parseSessionFile ExtractDomain tabOrder winOrder fh (b_Name b)
                     = Returned es
  | Done (es, Some _) => es = []
  | Panic k =>
      IsChromiumBased (b_Type b) = true
      ∧ ∃ file fh, findLatestSessionFile Join fs path = (file, None)
                   ∧ Open fs file = Some fh
                   ∧ parseSessionFile ExtractDomain tabOrder winOrder fh (b_Name b)
                     = Panicked k
  end.
Proof.
  unfold QueryTabs, parseSessionFileAt.
  destruct (IsChromiumBased (b_Type b)); simpl; [|done].
  destruct (findLatestSessionFile Join fs path) as [file [err|]]; [done|].
  destruct (Open fs file) as [fh|] eqn:Hopen; [|done].
  destruct (parseSessionFile _ _ _ fh _) as [es|e|k] eqn:Hparse; [|done|].
  - split; [done|]. by exists file, fh.
  - split; [done|]. by exists file, fh.
Qed.

Lemma queryEach_spec pf fs : ∀ browsers orders acc,
  match queryEach ExtractDomain Join pf fs orders browsers acc with
  | Done es =>
      ∃ more, es = acc ++ more
              ∧ ∀ e, e ∈ more →
                  ∃ b, b ∈ browsers ∧ IsChromiumBased (b_Type b) = true
                       ∧ Browser e = b_Name b ∧ URL e ≠ EmptyString
  | Panic k =>
      ∃ b tabOrder winOrder path file fh,
        b ∈ browsers ∧ IsChromiumBased (b_Type b) = true
        ∧ GetSessionPath Join pf (b_Type b) = (path, None)
        ∧ findLatestSessionFile Join fs path = (file, None)
        ∧ Open fs file = Some fh
        ∧ parseSessionFile ExtractDomain tabOrder winOrder fh (b_Name b) = Panicked k
  end.
Proof.
  induction browsers as [|b browsers IH]; intros orders acc.
  { simpl. exists []. split; [by rewrite app_nil_r|]. intros e He.
    by apply elem_of_nil in He. }
  assert (∀ orders' acc',
    (∃ more0, acc' = acc ++ more0
              ∧ ∀ e, e ∈ more0 →
                  IsChromiumBased (b_Type b) = true
                  ∧ Browser e = b_Name b ∧ URL e ≠ EmptyString) →
    match queryEach ExtractDomain Join pf fs orders' browsers acc' with
    | Done es =>
        ∃ more, es = acc ++ more
                ∧ ∀ e, e ∈ more →
                    ∃ b0, b0 ∈ b :: browsers ∧ IsChromiumBased (b_Type b0) = true
                          ∧ Browser e = b_Name b0 ∧ URL e ≠ EmptyString
    | Panic k =>
        ∃ b0 tabOrder winOrder path file fh,
          b0 ∈ b :: browsers ∧ IsChromiumBased (b_Type b0) = true
          ∧ GetSessionPath Join pf (b_Type b0) = (path, None)
          ∧ findLatestSessionFile Join fs path = (file, None)
          ∧ Open fs file = Some fh
          ∧ parseSessionFile ExtractDomain tabOrder winOrder fh (b_Name b0) = Panicked k
    end) as Hrest.
  { intros orders' acc' (more0 & -> & Hmore0).
    specialize (IH orders' (acc ++ more0)).
    destruct (queryEach _ _ _ _ orders' browsers _) as [es|k].
    - destruct IH as (more & -> & Hmore). exists (more0 ++ more).
      split; [by rewrite app_assoc|].
      intros e [He|He]%elem_of_app.
      + exists b. split; [left|]. by apply Hmore0.
      + destruct (Hmore e He) as (b0 & ? & ?). exists b0. split; [by right|done].
    - destruct IH as (b0 & tabOrder & winOrder & path & file & fh & Hin & Hrest).
      exists b0, tabOrder, winOrder, path, file, fh. split; [by right|done]. }
  assert (∃ more0, acc = acc ++ more0
                   ∧ ∀ e, e ∈ more0 →
                       IsChromiumBased (b_Type b) = true
                       ∧ Browser e = b_Name b ∧ URL e ≠ EmptyString) as Hsame.
  { exists []. split; [by rewrite app_nil_r|]. intros e He. by apply elem_of_nil in He. }
  cbn [queryEach]. destruct (hd ([], []) orders) as [tabOrder winOrder].
  destruct (IsChromiumBased (b_Type b)) eqn:Hc; simpl; [|by apply Hrest].
  destruct (GetSessionPath Join pf (b_Type b)) as [path [err|]] eqn:Hpath;
    [by apply Hrest|].
  pose proof (QueryTabs_inv fs tabOrder winOrder b path) as Hq.
  destruct (QueryTabs _ _ fs tabOrder winOrder b path) as [[es [err|]]|k].
  - by apply Hrest.
  - apply Hrest. exists es. split; [done|].
    destruct Hq as (_ & file & fh & _ & _ & Hparse).
    apply parseSessionFile_returned in Hparse as (p & ->).
    intros e He. split; [done|]. by eapply buildTabEntries_Browser.
  - destruct Hq as (_ & file & fh & Hfind & Hopen & Hparse).
    exists b, tabOrder, winOrder, path, file, fh. split; [left|done].
Qed.

Lemma queryEach_none pf fs : ∀ browsers orders acc,
  Forall (λ b, IsChromiumBased (b_Type b) = false) browsers →
  queryEach ExtractDomain Join pf fs orders browsers acc = Done acc.
Proof.
  induction browsers as [|b browsers IH]; intros orders acc Hall; [done|].
  apply Forall_cons in Hall as [Hb Hall].
  cbn [queryEach]. destruct (hd ([], []) orders) as [tabOrder winOrder].
  rewrite Hb. simpl. by apply IH.
Qed.

Lemma queryEach_acc pf fs : ∀ browsers orders acc,
  queryEach ExtractDomain Join pf fs orders browsers acc
  = match queryEach ExtractDomain Join pf fs orders browsers [] with
    | Done es => Done (acc ++ es)
    | Panic k => Panic k
    end.
Proof.
  induction browsers as [|b browsers IH]; intros orders acc.
  { simpl. by rewrite app_nil_r. }
  cbn [queryEach]. destruct (hd ([], []) orders) as [tabOrder winOrder].
  destruct (negb (IsChromiumBased (b_Type b))); [apply IH|].
  destruct (GetSessionPath Join pf (b_Type b)) as [path [err|]]; [apply IH|].
  destruct (QueryTabs _ _ fs tabOrder winOrder b path) as [[es [err|]]|k];
    [apply IH| |done].
  rewrite (IH _ (acc ++ es)), (IH _ ([] ++ es)).
  destruct (queryEach _ _ _ _ _ browsers []) as [es'|]; [|done].
  by rewrite app_assoc.
Qed.

Lemma queryEach_app pf fs : ∀ bs1 os1 os2 bs2 acc,
  length os1 = length bs1 →
  queryEach ExtractDomain Join pf fs (os1 ++ os2) (bs1 ++ bs2) acc
  = match queryEach ExtractDomain Join pf fs os1 bs1 acc with
    | Done es1 => queryEach ExtractDomain Join pf fs os2 bs2 es1
    | Panic k => Panic k
    end.
Proof.
  induction bs1 as [|b bs1 IH]; intros [|o os1] os2 bs2 acc Hlen; try done.
  injection Hlen as Hlen. rewrite <- !app_comm_cons. cbn [queryEach hd tl].
  destruct o as [tabOrder winOrder].
  destruct (negb (IsChromiumBased (b_Type b))); [by apply IH|].
  destruct (GetSessionPath Join pf (b_Type b)) as [path [err|]]; [by apply IH|].
  destruct (QueryTabs _ _ fs tabOrder winOrder b path) as [[es [err|]]|k];
    [by apply IH|by apply IH|done].
Qed.

(** The query of a browser whose latest session file opens is the parse
    of that file. *)
Lemma QueryTabs_parse fs tabOrder winOrder b path file fh :
  IsChromiumBased (b_Type b) = true →
  findLatestSessionFile Join fs path = (file, None) →
  Open fs file = Some fh →
  QueryTabs ExtractDomain Join fs tabOrder winOrder b path
  = match parseSessionFile ExtractDomain tabOrder winOrder fh (b_Name b) with
    | Returned entries => Done (entries, None)
    | Failed e => Done ([], Some (ErrParse e))
    | Panicked k => Panic k
    end.
Proof.
  intros Hc Hfind Hopen. unfold QueryTabs, parseSessionFileAt.
  by rewrite Hc, Hfind, Hopen.
Qed.

(** The whole query on the browsers before [b], then [b], then the
    browsers after it. *)
Lemma QueryMultipleBrowsersTabs_split pf fs os1 o os2 bs1 b bs2 :
  length os1 = length bs1 →
  QueryMultipleBrowsersTabs ExtractDomain Join pf fs (os1 ++ o :: os2) (bs1 ++ b :: bs2)
  = match QueryMultipleBrowsersTabs ExtractDomain Join pf fs os1 bs1 with
    | Panic k => Panic k
    | Done (es1, _) =>
        match QueryMultipleBrowsersTabs ExtractDomain Join pf fs [o] [b] with
        | Panic k => Panic k
        | Done (es, _) =>
            match QueryMultipleBrowsersTabs ExtractDomain Join pf fs os2 bs2 with
            | Panic k => Panic k
            | Done (es2, _) => Done (es1 ++ es ++ es2, None)
            end
        end
    end.
Proof.
  intros Hlen. unfold QueryMultipleBrowsersTabs.
  rewrite queryEach_app by done.
  destruct (queryEach _ _ pf fs os1 bs1 []) as [es1|]; [|done].
  change (o :: os2) with ([o] ++ os2). change (b :: bs2) with ([b] ++ bs2).
  rewrite (queryEach_app pf fs [b] [o] os2 bs2 es1 eq_refl).
  rewrite (queryEach_acc pf fs [b] [o] es1).
  destruct (queryEach _ _ pf fs [o] [b] []) as [es|]; [|done].
  rewrite (queryEach_acc pf fs bs2 os2 (es1 ++ es)).
  destruct (queryEach _ _ pf fs os2 bs2 []) as [es2|]; [|done].
  by rewrite app_assoc.
Qed.

Lemma QueryMultipleBrowsersTabs_skip pf fs os1 o os2 bs1 b bs2 :
  length os1 = length bs1 →
  QueryMultipleBrowsersTabs ExtractDomain Join pf fs [o] [b] = Done ([], None) →
  QueryMultipleBrowsersTabs ExtractDomain Join pf fs (os1 ++ o :: os2) (bs1 ++ b :: bs2)
  = QueryMultipleBrowsersTabs ExtractDomain Join pf fs (os1 ++ os2) (bs1 ++ bs2).
Proof.
  intros Hlen Hskip. rewrite QueryMultipleBrowsersTabs_split, Hskip by done.
  unfold QueryMultipleBrowsersTabs. rewrite queryEach_app by done.
  destruct (queryEach _ _ pf fs os1 bs1 []) as [es1|]; [|done].
  rewrite (queryEach_acc pf fs bs2 os2 es1).
  by destruct (queryEach _ _ pf fs os2 bs2 []).
Qed.

Lemma QueryMultipleBrowsersTabs_one pf fs o b :
  QueryMultipleBrowsersTabs ExtractDomain Join pf fs [o] [b]
  = if IsChromiumBased (b_Type b) then
      match GetSessionPath Join pf (b_Type b) with
      | (_, Some _) => Done ([], None)
      | (sessionPath, None) =>
          match QueryTabs ExtractDomain Join fs o.1 o.2 b sessionPath with
          | Panic k => Panic k
          | Done (_, Some _) => Done ([], None)
          | Done (entries, None) => Done (entries, None)
          end
      end
    else Done ([], None).
Proof.
  unfold QueryMultipleBrowsersTabs. cbn [queryEach hd tl]. destruct o as [tabOrder winOrder].
  destruct (IsChromiumBased (b_Type b)); simpl; [|done].
  destruct (GetSessionPath Join pf (b_Type b)) as [path [err|]]; [done|].
  by destruct (QueryTabs _ _ fs tabOrder winOrder b path) as [[es [err|]]|k].
Qed.

(** X21: QueryMultipleBrowsersTabs never returns an error, skips the
    browsers it cannot query, and dies of the first panic.  The entries
    returned all carry the name of a detected Chromium-based browser and
    a URL; without a Chromium-based browser the result is empty whatever
    the files hold; a panic of the query is the panic of the parse of
    the latest session file of a detected browser.  Conversely, with
    the browsers before [b] queried without panic: if the parse of the
    latest session file of [b] panics, the whole query panics with that
    panic, whatever the browsers after [b] hold; if [b] is not
    Chromium-based, has no session directory, has no session file, or
    its session file cannot be opened or fails to parse, the query goes
    on and returns what it returns without [b]; and if the parse of [b]
    returns entries, they come in the result between those of the
    browsers before and after [b]. *)
Theorem QueryMultipleBrowsersTabs_outcomes pf fs orders browsers :
  (∀ es err,
     QueryMultipleBrowsersTabs ExtractDomain Join pf fs orders browsers = Done (es, err) →
     err = None
     ∧ ∀ e, e ∈ es →
         ∃ b, b ∈ browsers ∧ IsChromiumBased (b_Type b) = true
              ∧ Browser e = b_Name b ∧ URL e ≠ EmptyString)
  ∧ (Forall (λ b, IsChromiumBased (b_Type b) = false) browsers →
     QueryMultipleBrowsersTabs ExtractDomain Join pf fs orders browsers = Done ([], None))
  ∧ (∀ k,
       QueryMultipleBrowsersTabs ExtractDomain Join pf fs orders browsers = Panic k →
       ∃ b tabOrder winOrder path file fh,
         b ∈ browsers ∧ IsChromiumBased (b_Type b) = true
         ∧ GetSessionPath Join pf (b_Type b) = (path, None)
         ∧ findLatestSessionFile Join fs path = (file, None)
         ∧ Open fs file = Some fh
         ∧ parseSessionFile ExtractDomain tabOrder winOrder fh (b_Name b) = Panicked k)
  ∧ (∀ os1 o os2 bs1 b bs2 es1 err1,
       orders = os1 ++ o :: os2 → browsers = bs1 ++ b :: bs2 →
       length os1 = length bs1 →
       QueryMultipleBrowsersTabs ExtractDomain Join pf fs os1 bs1 = Done (es1, err1) →
       (∀ path file fh k,
          IsChromiumBased (b_Type b) = true →
          GetSessionPath Join pf (b_Type b) = (path, None) →
          findLatestSessionFile Join fs path = (file, None) →
          Open fs file = Some fh →
          parseSessionFile ExtractDomain o.1 o.2 fh (b_Name b) = Panicked k →
          QueryMultipleBrowsersTabs ExtractDomain Join pf fs orders browsers = Panic k)
       ∧ (IsChromiumBased (b_Type b) = false
          ∨ (∃ path e, GetSessionPath Join pf (b_Type b) = (path, Some e))
          ∨ (∃ path file e,
               GetSessionPath Join pf (b_Type b) = (path, None)
               ∧ findLatestSessionFile Join fs path = (file, Some e))
          ∨ (∃ path file,
               GetSessionPath Join pf (b_Type b) = (path, None)
               ∧ findLatestSessionFile Join fs path = (file, None)
               ∧ (Open fs file = None
                  ∨ ∃ fh e, Open fs file = Some fh
                            ∧ parseSessionFile ExtractDomain o.1 o.2 fh (b_Name b)
                              = Failed e)) →
          QueryMultipleBrowsersTabs ExtractDomain Join pf fs orders browsers
          = QueryMultipleBrowsersTabs ExtractDomain Join pf fs (os1 ++ os2) (bs1 ++ bs2))
       ∧ (∀ path file fh es,
            IsChromiumBased (b_Type b) = true →
            GetSessionPath Join pf (b_Type b) = (path, None) →
            findLatestSessionFile Join fs path = (file, None) →
            Open fs file = Some fh →
            parseSessionFile ExtractDomain o.1 o.2 fh (b_Name b) = Returned es →
            QueryMultipleBrowsersTabs ExtractDomain Join pf fs orders browsers
            = match QueryMultipleBrowsersTabs ExtractDomain Join pf fs os2 bs2 with
              | Panic k => Panic k
              | Done (es2, _) => Done (es1 ++ es ++ es2, None)
              end)).
Proof.
  split_and!.
  - unfold QueryMultipleBrowsersTabs.
    pose proof (queryEach_spec pf fs browsers orders []) as Hspec.
    intros es err. destruct (queryEach _ _ _ _ _ _ _) as [es'|]; [|done].
    intros [= <- <-]. destruct Hspec as (more & -> & Hmore). done.
  - intros Hall. unfold QueryMultipleBrowsersTabs. by rewrite queryEach_none.
  - unfold QueryMultipleBrowsersTabs.
    pose proof (queryEach_spec pf fs browsers orders []) as Hspec.
    intros k. destruct (queryEach _ _ _ _ _ _ _) as [|k']; [done|].
    by intros [= <-].
  - intros os1 o os2 bs1 b bs2 es1 err1 -> -> Hlen Hbefore. split_and!.
    + intros path file fh k Hc Hpath Hfind Hopen Hparse.
      rewrite QueryMultipleBrowsersTabs_split, Hbefore by done.
      rewrite QueryMultipleBrowsersTabs_one, Hc, Hpath.
      by rewrite (QueryTabs_parse fs o.1 o.2 b path file fh Hc Hfind Hopen), Hparse.
    + intros Hskip. apply QueryMultipleBrowsersTabs_skip; [done|].
      rewrite QueryMultipleBrowsersTabs_one.
      destruct (IsChromiumBased (b_Type b)) eqn:Hc; [|done].
      destruct Hskip as [?|[(path & e & Hpath)|[(path & file & e & Hpath & Hfind)
                        |(path & file & Hpath & Hfind & Hfile)]]]; [done|..];
        rewrite Hpath; [done| |].
      * unfold QueryTabs. by rewrite Hc, Hfind.
      * destruct Hfile as [Hopen|(fh & e & Hopen & Hparse)].
        -- unfold QueryTabs, parseSessionFileAt. by rewrite Hc, Hfind, Hopen.
        -- by rewrite (QueryTabs_parse fs o.1 o.2 b path file fh Hc Hfind Hopen), Hparse.
    + intros path file fh es Hc Hpath Hfind Hopen Hparse.
      rewrite QueryMultipleBrowsersTabs_split, Hbefore by done.
      rewrite QueryMultipleBrowsersTabs_one, Hc, Hpath.
      by rewrite (QueryTabs_parse fs o.1 o.2 b path file fh Hc Hfind Hopen), Hparse.
Qed.

End QueryAll.

Lemma QueryMultipleBrowsersTabs_outcomes_witness :
  QueryMultipleBrowsersTabs (H := insertionSortSlice) (λ _, EmptyString) slashJoin
    linuxUser zeroSizeSessions [([], [])] [mkBrowser Firefox "firefox"]
  = Done ([], None)
  ∧ GetSessionPath slashJoin linuxUser Chrome
    = ("/home/u/.config/google-chrome/Default/Sessions"%string, None)
  ∧ findLatestSessionFile slashJoin zeroSizeSessions
      "/home/u/.config/google-chrome/Default/Sessions"
    = ("/home/u/.config/google-chrome/Default/Sessions/Tabs_2"%string, None)
  ∧ parseSessionFile (H := insertionSortSlice) (λ _, EmptyString) [] []
      (header 1 ++ [x00; x00; x05]) "chrome"
    = Panicked MakeSliceLen
  ∧ QueryMultipleBrowsersTabs (H := insertionSortSlice) (λ _, EmptyString) slashJoin
      linuxUser zeroSizeSessions [([], []); ([], []); ([], [])]
      [mkBrowser Firefox "firefox"; mkBrowser Chrome "chrome"; mkBrowser Brave "brave"]
    = Panic MakeSliceLen.
Proof.
  assert (QueryMultipleBrowsersTabs (H := insertionSortSlice) (λ _, EmptyString) slashJoin
            linuxUser zeroSizeSessions [([], [])] [mkBrowser Firefox "firefox"]
          = Done ([], None)) as Hbefore by reflexivity.
  assert (GetSessionPath slashJoin linuxUser Chrome
          = ("/home/u/.config/google-chrome/Default/Sessions"%string, None)) as Hpath
    by reflexivity.
  assert (findLatestSessionFile slashJoin zeroSizeSessions
            "/home/u/.config/google-chrome/Default/Sessions"
          = ("/home/u/.config/google-chrome/Default/Sessions/Tabs_2"%string, None))
    as Hfind by (vm_compute; reflexivity).
  assert (parseSessionFile (H := insertionSortSlice) (λ _, EmptyString) [] []
            (header 1 ++ [x00; x00; x05]) "chrome"
          = Panicked MakeSliceLen) as Hparse by (vm_compute; reflexivity).
  split_and!; [done..|].
  exact (proj1 (proj2 (proj2 (proj2
           (QueryMultipleBrowsersTabs_outcomes (H := insertionSortSlice)
              (λ _, EmptyString) slashJoin linuxUser zeroSizeSessions
              [([], []); ([], []); ([], [])]
              [mkBrowser Firefox "firefox"; mkBrowser Chrome "chrome";
               mkBrowser Brave "brave"])))
           [([], [])] ([], []) [([], [])]
           [mkBrowser Firefox "firefox"] (mkBrowser Chrome "chrome")
           [mkBrowser Brave "brave"] [] None eq_refl eq_refl eq_refl Hbefore)
           _ _ _ MakeSliceLen eq_refl Hpath Hfind eq_refl Hparse).
Defined.

Lemma assembled_tab_resolution_witness :
  NoDup [1]
  ∧ reachable (storeOf [UpdateTabNavigation 1 0 "http://a" "A"])
  ∧ StronglySorted (λ a b, t_idx a ≤ t_idx b)
      [mkTab 1 [mkItem 0 "http://a" "A"] 0 0 false 0 None].
Proof.
  assert (NoDup [1]) as Hnd by compute_done.
  assert (reachable (storeOf [UpdateTabNavigation 1 0 "http://a" "A"])) as Hreach.
  { apply (reachable_step newSessionParser kCommandUpdateTabNavigation
             (payloadOf (UpdateTabNavigation 1 0 "http://a" "A")) _ reachable_new).
    vm_compute. reflexivity. }
  split_and!; [done..|].
  refine (proj1 (assembled_tab_resolution (H := insertionSortSlice) [1]
                   (storeOf [UpdateTabNavigation 1 0 "http://a" "A"]) 0
                   (mkWindow 0 0 false
                      [mkTab 1 [mkItem 0 "http://a" "A"] 0 0 false 0 None])
                   (mkTab 1 [mkItem 0 "http://a" "A"] 0 0 false 0 None)
                   Hnd Hreach _ _)).
  - vm_compute. reflexivity.
  - left.
Defined.

Lemma buildTabEntries_tabOrder_witness :
  [1; 2] ≡ₚ [2; 1]
  ∧ distinctTabIndices (storeOf twoWindows)
  ∧ buildTabEntries (H := insertionSortSlice) (λ _, EmptyString) [1; 2] [1; 2]
      (storeOf twoWindows) "chrome"
    = buildTabEntries (H := insertionSortSlice) (λ _, EmptyString) [2; 1] [1; 2]
        (storeOf twoWindows) "chrome".
Proof.
  assert (NoDup [1; 2]) as Hn1 by compute_done.
  assert (NoDup [2; 1]) as Hn2 by compute_done.
  assert ([1; 2] ≡ₚ [2; 1]) as Hp by apply Permutation_swap.
  pose proof (storeOf_tablessWindows twoWindows) as Htl.
  assert (distinctTabIndices (storeOf twoWindows)) as Hd.
  { assert (tabs (storeOf twoWindows)
            = <[2 := mkTab 2 [mkItem 0 "http://b" "B"] 0 2 false 0 None]>
                (<[1 := mkTab 1 [mkItem 0 "http://a" "A"] 0 1 false 0 None]> ∅)) as E
      by (vm_compute; reflexivity).
    intros id1 id2 t1 t2 H1 H2 Hne Hw. rewrite E in H1, H2.
    apply lookup_insert_Some in H1 as [[<- <-]|[_ H1]];
      apply lookup_insert_Some in H2 as [[<- <-]|[_ H2]]; try done.
    all: repeat match goal with
         | H : <[_ := _]> _ !! _ = Some _ |- _ =>
             apply lookup_insert_Some in H as [[<- <-]|[_ H]]
         | H : ∅ !! _ = Some _ |- _ => by rewrite lookup_empty in H
         end; try done. }
  split_and!; [done..|].
  exact (buildTabEntries_tabOrder (H := insertionSortSlice) (λ _, EmptyString)
           [1; 2] [2; 1] [1; 2] (storeOf twoWindows) "chrome"%string
           Hn1 Hn2 Hp Htl Hd).
Defined.

(** ** Group keys *)

Lemma digitValue_hexDigit d : d < 16 → digitValue (hexDigit d) = d.
Proof.
  intros Hd.
  assert (d ∈ [0; 1; 2; 3; 4; 5; 6; 7; 8; 9; 10; 11; 12; 13; 14; 15]) as Hin.
  { rewrite !elem_of_cons. lia. }
  rewrite !elem_of_cons, elem_of_nil in Hin.
  repeat (destruct Hin as [->|Hin]; [reflexivity|]). done.
Qed.

Lemma append_String c s1 s2 :
  String.append (String c s1) s2 = String c (String.append s1 s2).
Proof. reflexivity. Qed.

Lemma append_nil_r s : String.append s EmptyString = s.
Proof. induction s as [|c s IH]; [done|]. by rewrite append_String, IH. Qed.

Lemma append_assoc s1 s2 s3 :
  String.append (String.append s1 s2) s3 = String.append s1 (String.append s2 s3).
Proof. induction s1 as [|c s1 IH]; [done|]. by rewrite !append_String, IH. Qed.

Lemma append_inj_length s1 : ∀ s1' s2 s2',
  String.length s1 = String.length s1' →
  String.append s1 s2 = String.append s1' s2' → s1 = s1' ∧ s2 = s2'.
Proof.
  induction s1 as [|c s1 IH]; intros [|c' s1'] s2 s2' Hlen Happ; try done.
  rewrite !append_String in Happ. injection Happ as -> Happ.
  simpl in Hlen. destruct (IH s1' s2 s2') as [-> ->]; [lia|done|done].
Qed.

Lemma hexValueAcc_app s1 s2 acc :
  hexValueAcc (String.append s1 s2) acc = hexValueAcc s2 (hexValueAcc s1 acc).
Proof.
  revert acc. induction s1 as [|c s1 IH]; intros acc; [done|].
  rewrite append_String. simpl. apply IH.
Qed.

Lemma hexDigits_value fuel : ∀ v acc,
  v < 16 ^ N.of_nat fuel → (0 < fuel)%nat →
  ∃ ds, hexDigits fuel v acc = String.append ds acc ∧ hexValue ds = v.
Proof.
  induction fuel as [|fuel IH]; intros v acc Hv Hf; [lia|].
  rewrite Nat2N.inj_succ, N.pow_succ_r' in Hv.
  pose proof (N.div_mod v 16 ltac:(done)) as Hdm.
  pose proof (N.mod_lt v 16 ltac:(done)) as Hm.
  simpl. destruct (N.eqb_spec (v / 16) 0) as [Hz|Hnz].
  - exists (String (hexDigit (v mod 16)) EmptyString). split; [done|].
    unfold hexValue. simpl. rewrite digitValue_hexDigit by done. lia.
  - assert (v / 16 < 16 ^ N.of_nat fuel) as Hq.
    { apply N.Div0.div_lt_upper_bound. lia. }
    assert (0 < fuel)%nat as Hf'.
    { destruct fuel; [|lia]. simpl in Hq. lia. }
    destruct (IH (v / 16) (String (hexDigit (v mod 16)) acc) Hq Hf') as (ds & -> & Hds).
    exists (String.append ds (String (hexDigit (v mod 16)) EmptyString)). split.
    + by rewrite append_assoc.
    + unfold hexValue in *. rewrite hexValueAcc_app, Hds. simpl.
      rewrite digitValue_hexDigit by done. lia.
Qed.

Lemma formatHex_value v : v < 2 ^ 64 → hexValue (formatHex v) = v.
Proof.
  intros Hv. unfold formatHex.
  destruct (hexDigits_value 16 v EmptyString) as (ds & -> & Hds); [done|lia|].
  by rewrite append_nil_r.
Qed.

(** X22: when the group key tells groups apart.  The hexadecimal text of
    a 64-bit number determines the number; so two tokens whose high
    halves are written with the same number of digits have the same key
    only if they are the same token, and in particular two tokens with
    the same high half never share a key. *)
Theorem groupKey_same_width high low high' low' :
  high < 2 ^ 64 → low < 2 ^ 64 → high' < 2 ^ 64 → low' < 2 ^ 64 →
  (formatHex high = formatHex high' → high = high')
  ∧ (String.length (formatHex high) = String.length (formatHex high') →
     groupKey high low = groupKey high' low' → high = high' ∧ low = low')
  ∧ (high = high' → groupKey high low = groupKey high' low' → low = low').
Proof.
  intros Hh Hl Hh' Hl'.
  assert (∀ a b, a < 2 ^ 64 → b < 2 ^ 64 → formatHex a = formatHex b → a = b) as Hinj.
  { intros a b Ha Hb E. rewrite <- (formatHex_value a), <- (formatHex_value b) by done.
    by rewrite E. }
  assert (String.length (formatHex high) = String.length (formatHex high') →
          groupKey high low = groupKey high' low' → high = high' ∧ low = low') as Hkey.
  { unfold groupKey. intros Hlen Hkey.
    apply append_inj_length in Hkey as [E1 E2]; [|done]. split; by apply Hinj. }
  split_and!; [by apply Hinj|done|].
  intros <- Hk. by apply Hkey.
Qed.

Lemma groupKey_same_width_witness :
  0x12 < 2 ^ 64 ∧ 0x3 < 2 ^ 64
  ∧ (groupKey 0x12 0x3 = groupKey 0x12 0x3 → 0x3 = 0x3).
Proof.
  assert (0x12 < 2 ^ 64) as H1 by (vm_compute; reflexivity).
  assert (0x3 < 2 ^ 64) as H2 by (vm_compute; reflexivity).
  split_and!; [done..|].
  exact (proj2 (proj2 (groupKey_same_width 0x12 0x3 0x12 0x3 H1 H2 H1 H2)) eq_refl).
Defined.

(** ** Commands with a short payload: what is applied *)











